(** * Similarity engine of the question manager (src/script.js)

    A shallow embedding of [levenshteinDistance], [calculateSimilarity] and
    [findSimilarQuestionsForQuestion] of the class [QuestionManager], and the
    properties of the near-duplicate detection that follow from the code.

    Modelling choices, all taken from the JavaScript semantics of the source:
    - a string is the list of its UTF-16 code units; [s.length] is the length
      of that list and [s[i]] its i-th unit;
    - a number that only ever holds an index, a length or a table entry is an
      integer (all of them stay far below 2^53, where doubles are exact);
    - the similarity itself is an IEEE 754 binary64 value, computed with the
      operations of [SpecFloat] at precision 53 and maximal exponent 1024;
    - [String.prototype.toLowerCase] depends on the Unicode case tables, which
      are not part of the repository: it is a parameter [toLowerCase], and a
      theorem that needs a fact about it states that fact as a hypothesis.

    The second part of the file embeds [generateFirestoreId], [loadQuestions],
    [appendQuestions], [findSimilarQuestions], [applyFilters],
    [saveToCurrentFile], [deleteQuestion], [undeleteQuestion], [saveData] and
    [exportData] as far as they work on the collection of questions (what
    they draw on the page is left out):
    - [Math.random], the clock and the controls of the page are inputs: the
      numbers, the timestamp and the values of the controls are arguments of
      the functions that read them;
    - a function that changes [this.questions] returns the new collection,
      and a function that may throw returns an option. *)

From Stdlib Require Import ZArith NArith QArith Qpower Lia Lqa Bool List String Ascii.
From Stdlib Require Import Floats.SpecFloat.
From Stdlib Require Import Sorting.Sorted Sorting.Permutation.
From stdpp Require Import base numbers list.

Close Scope Q_scope.
Local Open Scope Z_scope.

(** ** Strings *)

Abbreviation code_unit := N (only parsing).
Abbreviation jsstring := (list N) (only parsing).

(** The code units of a literal written with ASCII characters only. *)
Definition js (s : string) : jsstring := map N_of_ascii (list_ascii_of_string s).

Definition SPACE : code_unit := 32%N.

(** ECMAScript WhiteSpace and LineTerminator code points: the set that both
    [trim] and the regular expression class [\s] use. *)
Definition is_white_space (c : code_unit) : bool :=
  ((9 <=? c) && (c <=? 13) ||
   (c =? 32) || (c =? 160) || (c =? 5760) ||
   (8192 <=? c) && (c <=? 8202) ||
   (c =? 8232) || (c =? 8233) || (c =? 8239) || (c =? 8287) ||
   (c =? 12288) || (c =? 65279))%N.

Fixpoint trim_start (s : jsstring) : jsstring :=
  match s with
  | [] => []
  | c :: r => if is_white_space c then trim_start r else s
  end.

Fixpoint trim_end (s : jsstring) : jsstring :=
  match s with
  | [] => []
  | c :: r =>
      match trim_end r with
      | [] => if is_white_space c then [] else [c]
      | r' => c :: r'
      end
  end.

(** [s.trim()] *)
Definition trim (s : jsstring) : jsstring := trim_end (trim_start s).

(** The left-to-right scan of [s.replace(/\s+/g, ' ')]: [in_run] tells that
    the previous unit was white space, whose run has already been replaced. *)
Fixpoint replace_runs_from (in_run : bool) (s : jsstring) : jsstring :=
  match s with
  | [] => []
  | c :: r =>
      if is_white_space c
      then (if in_run then replace_runs_from true r
            else SPACE :: replace_runs_from true r)
      else c :: replace_runs_from false r
  end.

(** [s.replace(/\s+/g, ' ')] *)
Definition replace_white_space_runs (s : jsstring) : jsstring :=
  replace_runs_from false s.

(** [text.toLowerCase().trim().replace(/\s+/g, ' ')] (script.js, lines 79-80) *)
Definition normalize (toLowerCase : jsstring -> jsstring) (text : jsstring) : jsstring :=
  replace_white_space_runs (trim (toLowerCase text)).

(** What [toLowerCase] does to a string of ASCII characters: the letters
    A to Z move to a to z, every other unit is kept. *)
Definition ascii_lower_unit (c : code_unit) : code_unit :=
  if ((65 <=? c) && (c <=? 90))%N then (c + 32)%N else c.

Definition toLowerCase_ascii (s : jsstring) : jsstring := map ascii_lower_unit s.

Definition is_ascii (s : jsstring) : bool := forallb (fun c => (c <? 128)%N) s.

(** [starts_clean s]: the first unit, if any, is not white space;
    [ends_clean s]: the same for the last unit. *)
Definition starts_clean (s : jsstring) : Prop :=
  forall c, head s = Some c -> is_white_space c = false.
Definition ends_clean (s : jsstring) : Prop :=
  forall c, last s = Some c -> is_white_space c = false.

(** ** The distance table of [levenshteinDistance] *)

(** An entry of the table is [null] until the loops write a number to it. *)
Abbreviation cell := (option Z) (only parsing).
Abbreviation matrix := (list (list (option Z))) (only parsing).

(** [Array(len1 + 1).fill(null).map(() => Array(len2 + 1).fill(null))] *)
Definition new_matrix (len1 len2 : nat) : matrix :=
  replicate (S len1) (replicate (S len2) None).

(** [matrix[i][j] = v]; every write of the source is inside the table. *)
Definition mset (m : matrix) (i j : nat) (v : Z) : matrix :=
  alter (fun row => <[j := Some v]> row) i m.

(** [null] converts to 0 in arithmetic. *)
Definition to_number (c : cell) : Z :=
  match c with Some v => v | None => 0 end.

(** [matrix[i][j]] read as a number; every read of the source is inside the
    table and finds a number written before. *)
Definition mget (m : matrix) (i j : nat) : Z :=
  match m !! i with
  | Some row => match row !! j with Some c => to_number c | None => 0 end
  | None => 0
  end.

(** [for (let i = 0; i <= len1; i++) matrix[i][0] = i;] *)
Definition init_column (len1 : nat) (m : matrix) : matrix :=
  fold_left (fun m i => mset m i 0 (Z.of_nat i)) (seq 0 (S len1)) m.

(** [for (let j = 0; j <= len2; j++) matrix[0][j] = j;] *)
Definition init_row (len2 : nat) (m : matrix) : matrix :=
  fold_left (fun m j => mset m 0 j (Z.of_nat j)) (seq 0 (S len2)) m.

(** [str1[i - 1] === str2[j - 1] ? 0 : 1] *)
Definition cost (str1 str2 : jsstring) (i j : nat) : Z :=
  if bool_decide (str1 !! (i - 1)%nat = str2 !! (j - 1)%nat) then 0 else 1.

Definition min3 (a b c : Z) : Z := Z.min (Z.min a b) c.

(** The body of the inner loop. *)
Definition fill_cell (str1 str2 : jsstring) (m : matrix) (i j : nat) : matrix :=
  mset m i j
    (min3 (mget m (i - 1) j + 1)
          (mget m i (j - 1) + 1)
          (mget m (i - 1) (j - 1) + cost str1 str2 i j)).

(** [for (let j = 1; j <= len2; j++) ...] *)
Definition fill_row (str1 str2 : jsstring) (len2 : nat) (m : matrix) (i : nat) : matrix :=
  fold_left (fun m j => fill_cell str1 str2 m i j) (seq 1 len2) m.

(** [for (let i = 1; i <= len1; i++) ...] *)
Definition fill_matrix (str1 str2 : jsstring) (len1 len2 : nat) (m : matrix) : matrix :=
  fold_left (fun m i => fill_row str1 str2 len2 m i) (seq 1 len1) m.

(** The table when the loops are over. *)
Definition final_matrix (str1 str2 : jsstring) : matrix :=
  let len1 := length str1 in
  let len2 := length str2 in
  fill_matrix str1 str2 len1 len2
    (init_row len2 (init_column len1 (new_matrix len1 len2))).

Definition levenshteinDistance (str1 str2 : jsstring) : Z :=
  mget (final_matrix str1 str2) (length str1) (length str2).

(** The recurrence the table is filled by, as a function of the two prefix
    lengths. *)
Fixpoint lev_rec (str1 str2 : jsstring) (i : nat) : nat -> Z :=
  match i with
  | O => fun j => Z.of_nat j
  | S i' =>
      fix row (j : nat) : Z :=
        match j with
        | O => Z.of_nat (S i')
        | S j' =>
            min3 (lev_rec str1 str2 i' (S j') + 1)
                 (row j' + 1)
                 (lev_rec str1 str2 i' j' + cost str1 str2 (S i') (S j'))
        end
  end.

(** ** Numbers *)

Definition prec : Z := 53.
Definition emax : Z := 1024.

(** The double that an integer literal or an integer-valued variable holds. *)
Definition num (z : Z) : spec_float := binary_normalize prec emax z 0 false.

Definition fdiv : spec_float -> spec_float -> spec_float := SFdiv prec emax.
Definition fmul : spec_float -> spec_float -> spec_float := SFmul prec emax.
Definition fsub : spec_float -> spec_float -> spec_float := SFsub prec emax.

(** [x >= y] and [x > 0] on numbers; both are false when a side is NaN. *)
Definition fge (x y : spec_float) : bool := SFleb y x.
Definition fpositive (x : spec_float) : bool := SFltb (S754_zero false) x.

(** The integer [floor (x + 1/2)] for the finite number [(-1)^s * m * 2^e]. *)
Definition round_half_up (s : bool) (m : positive) (e : Z) : Z :=
  let v := cond_Zopp s (Zpos m) in
  match e with
  | Zneg p => (2 * v + 2 ^ Zpos p) / 2 ^ (Zpos p + 1)
  | _ => v * 2 ^ e
  end.

(** [Math.round]: the integer nearest to [x], ties towards +infinity; NaN,
    the infinities and the zeros are returned as they are, and a result of
    zero keeps the sign of [x]. *)
Definition Math_round (x : spec_float) : spec_float :=
  match x with
  | S754_finite s m e =>
      let n := round_half_up s m e in
      if n =? 0 then S754_zero s else num n
  | _ => x
  end.

(** The mantissa of a normal number. *)
Definition normal_mantissa (m : positive) : Prop := Zpos (digits2_pos m) = 53.


(** The doubles a similarity can be: +0, or a positive normal number that is
    at most 100. *)
Definition is_score (f : spec_float) : bool :=
  match f with
  | S754_zero false => true
  | S754_finite false m e =>
      (Zpos (digits2_pos m) =? 53) && (-1074 <=? e) && (e <=? 971) && SFleb f (num 100)
  | _ => false
  end.

Local Open Scope Q_scope.

(** The rational number a finite double stands for. *)
Definition F2Q (f : spec_float) : Q :=
  match f with
  | S754_finite s m e => inject_Z (cond_Zopp s (Zpos m)) * 2 ^ e
  | _ => 0
  end.

(** One unit in the last place of a normal number, relative to its value. *)
Definition ulp_bound : Q := 1 + (1 # 4503599627370496).

Local Close Scope Q_scope.

(** ** calculateSimilarity *)

(** [!text]: the text is missing ([undefined] or [null]) or the empty string. *)
Definition falsy (text : option jsstring) : bool :=
  match text with
  | Some (_ :: _) => false
  | _ => true
  end.

(** The last three statements of [calculateSimilarity]. *)
Definition similarity_of (maxLength distance : Z) : spec_float :=
  let similarity := fmul (fdiv (num (maxLength - distance)) (num maxLength)) (num 100) in
  fdiv (Math_round (fmul similarity (num 100))) (num 100).

Definition calculateSimilarity (toLowerCase : jsstring -> jsstring)
    (text1 text2 : option jsstring) : spec_float :=
  match text1, text2 with
  | Some t1, Some t2 =>
      if falsy text1 || falsy text2 then num 0 else
      let normalizedText1 := normalize toLowerCase t1 in
      let normalizedText2 := normalize toLowerCase t2 in
      if bool_decide (normalizedText1 = normalizedText2) then num 100 else
      let maxLength := Z.max (Z.of_nat (length normalizedText1))
                             (Z.of_nat (length normalizedText2)) in
      if maxLength =? 0 then num 100 else
      let distance := levenshteinDistance normalizedText1 normalizedText2 in
      similarity_of maxLength distance
  | _, _ => num 0
  end.

(** ** findSimilarQuestionsForQuestion *)

(** A question as [loadQuestions] stores it; [question_text] is [None] for a
    record that has no such field. *)
Record Question := {
  id : jsstring;
  question_text : option jsstring;
  options : list jsstring;
  category : jsstring;
  difficulty : Z
}.

(** [{...question, similarity: s}] *)
Record SimilarQuestion := {
  question : Question;
  similarity : spec_float
}.

(** [(a, b) => b.similarity - a.similarity] *)
Definition comparefn (a b : SimilarQuestion) : spec_float :=
  fsub (similarity b) (similarity a).

(** [Array.prototype.sort] is a stable sort that puts [b] before [a] when
    [comparefn a b > 0]: a stable insertion sort from the right end. *)
Fixpoint sort_insert (a : SimilarQuestion) (l : list SimilarQuestion) : list SimilarQuestion :=
  match l with
  | [] => [a]
  | b :: r => if fpositive (comparefn a b) then b :: sort_insert a r else a :: l
  end.

Definition sort (l : list SimilarQuestion) : list SimilarQuestion :=
  fold_right sort_insert [] l.

(** The predicate given to [filter]. *)
Definition is_similar (toLowerCase : jsstring -> jsstring)
    (targetQuestion : Question) (threshold : spec_float) (question : Question) : bool :=
  if bool_decide (id question = id targetQuestion) then false
  else fge (calculateSimilarity toLowerCase
              (question_text targetQuestion) (question_text question)) threshold.

(** The function given to [map]. *)
Definition with_similarity (toLowerCase : jsstring -> jsstring)
    (targetQuestion : Question) (question : Question) : SimilarQuestion :=
  {| question := question;
     similarity := calculateSimilarity toLowerCase
                     (question_text targetQuestion) (question_text question) |}.

(** [questions] is [this.questions]; [targetQuestion] is [None] for
    [null] or [undefined]; [threshold] is [None] when the argument is left
    out, and then 70. *)
Definition findSimilarQuestionsForQuestion (toLowerCase : jsstring -> jsstring)
    (questions : list Question) (targetQuestion : option Question)
    (threshold : option spec_float) : list SimilarQuestion :=
  let threshold := default (num 70) threshold in
  match targetQuestion with
  | None => []
  | Some target =>
      if falsy (question_text target) then [] else
      sort (map (with_similarity toLowerCase target)
              (List.filter (is_similar toLowerCase target threshold) questions))
  end.

(** A JavaScript string holds at most 2^53 - 1 code units. *)
Definition max_string_length : Z := 2 ^ 53 - 1.

(** The normalised form of a text, when there is a text, is a string. *)
Definition fits (toLowerCase : jsstring -> jsstring) (text : option jsstring) : Prop :=
  match text with
  | Some t => Z.of_nat (length (normalize toLowerCase t)) <= max_string_length
  | None => True
  end.

(** The order of the result: no later entry has a greater similarity. *)
Definition descending (a b : SimilarQuestion) : Prop :=
  fge (similarity a) (similarity b) = true.

(** ** Sample values *)

Definition q1 : Question :=
  {| id := js "1"; question_text := Some (js "What is the capital of France?");
     options := []; category := []; difficulty := 1 |}.
Definition q2 : Question :=
  {| id := js "2"; question_text := Some (js "What is the capital of france");
     options := []; category := []; difficulty := 1 |}.
Definition q3 : Question :=
  {| id := js "3"; question_text := Some (js "How tall is Mount Everest?");
     options := []; category := []; difficulty := 1 |}.

(** ** Edit scripts *)

(** A way of turning one string into another, both read from left to right:
    each step keeps a character, puts another in its place, drops one of the
    first string or adds one of the second; the number counts the steps that
    are not keeps (putting a character in its own place counts, too). *)
Inductive edit_script : list N -> list N -> Z -> Prop :=
  | edit_done : edit_script [] [] 0
  | edit_keep s t c n : edit_script s t n -> edit_script (s ++ [c]) (t ++ [c]) n
  | edit_substitute s t a b n : edit_script s t n -> edit_script (s ++ [a]) (t ++ [b]) (n + 1)
  | edit_delete s t a n : edit_script s t n -> edit_script (s ++ [a]) t (n + 1)
  | edit_insert s t b n : edit_script s t n -> edit_script s (t ++ [b]) (n + 1).

(** Equality of numbers as values can be decided. *)
#[global] Instance spec_float_eq_dec : EqDecision spec_float.
Proof. solve_decision. Defined.

(** ** generateFirestoreId *)

Definition chars : jsstring :=
  js "ABCDEFGHIJKLMNOPQRSTUVWXYZabcdefghijklmnopqrstuvwxyz0123456789".

Definition totalLength : nat := 20.

(** The integer [floor x] for the finite number [(-1)^s * m * 2^e]. *)
Definition floor_Z (s : bool) (m : positive) (e : Z) : Z :=
  match e with
  | Zneg p => cond_Zopp s (Zpos m) / 2 ^ Zpos p
  | _ => cond_Zopp s (Zpos m) * 2 ^ e
  end.

(** [Math.floor]; a result of zero comes from a number from 0 to 1 and is +0. *)
Definition Math_floor (x : spec_float) : spec_float :=
  match x with
  | S754_finite s m e =>
      let n := floor_Z s m e in
      if n =? 0 then S754_zero false else num n
  | _ => x
  end.

(** The position a number stands for: NaN counts as 0, a finite number is cut
    to an integer, an infinity is no position. *)
Definition to_position (pos : spec_float) : option Z :=
  match pos with
  | S754_nan | S754_zero _ => Some 0
  | S754_infinity _ => None
  | S754_finite s m e =>
      Some match e with
           | Zneg p => Z.quot (cond_Zopp s (Zpos m)) (2 ^ Zpos p)
           | _ => cond_Zopp s (Zpos m) * 2 ^ e
           end
  end.

(** [s.charAt(pos)]: the string of the one unit at the position, or the empty
    string when the position is outside the string. *)
Definition charAt (s : jsstring) (pos : spec_float) : jsstring :=
  match to_position pos with
  | Some k =>
      if 0 <=? k
      then match s !! Z.to_nat k with Some c => [c] | None => [] end
      else []
  | None => []
  end.

(** [result += s[i]]: [s[i]] is [undefined] outside the string, and then the
    text "undefined" is added. *)
Definition append_unit (result s : jsstring) (i : nat) : jsstring :=
  match s !! i with
  | Some c => result ++ [c]
  | None => result ++ js "undefined"
  end.

(** The literal [0.7]: the double nearest to [7 / 10]. *)
Definition double_0_7 : spec_float := fdiv (num 7) (num 10).

(** [x > y] on numbers. *)
Definition fgt (x y : spec_float) : bool := SFltb y x.

(** The first loop: [count] more characters are added to [randomPart];
    [calls] counts the calls of [Math.random] so far, and [Math_random n] is
    what the call number [n] returns. *)
Fixpoint random_part (Math_random : nat -> spec_float) (count : nat)
    (randomPart : jsstring) (calls : nat) : jsstring * nat :=
  match count with
  | O => (randomPart, calls)
  | S count' =>
      random_part Math_random count'
        (randomPart ++ charAt chars
           (Math_floor (fmul (Math_random calls) (num (Z.of_nat (length chars))))))
        (S calls)
  end.

(** The variables of the second loop. *)
Record scatter_state := {
  result : jsstring;
  timestampIndex : nat;
  randomIndex : nat;
  random_calls : nat
}.

(** The body of the second loop; [Math.random] is called only when there is
    a character of the timestamp left. *)
Definition scatter_step (Math_random : nat -> spec_float)
    (timestamp randomPart : jsstring) (st : scatter_state) : scatter_state :=
  if (timestampIndex st <? length timestamp)%nat then
    if fgt (Math_random (random_calls st)) double_0_7 then
      {| result := append_unit (result st) timestamp (timestampIndex st);
         timestampIndex := S (timestampIndex st);
         randomIndex := randomIndex st;
         random_calls := S (random_calls st) |}
    else if (randomIndex st <? length randomPart)%nat then
      {| result := append_unit (result st) randomPart (randomIndex st);
         timestampIndex := timestampIndex st;
         randomIndex := S (randomIndex st);
         random_calls := S (random_calls st) |}
    else
      {| result := append_unit (result st) timestamp (timestampIndex st);
         timestampIndex := S (timestampIndex st);
         randomIndex := randomIndex st;
         random_calls := S (random_calls st) |}
  else if (randomIndex st <? length randomPart)%nat then
    {| result := append_unit (result st) randomPart (randomIndex st);
       timestampIndex := timestampIndex st;
       randomIndex := S (randomIndex st);
       random_calls := random_calls st |}
  else st.

(** [timestamp] is [Date.now().toString(36)]. The function returns the id and
    the number of calls of [Math.random] it made. *)
Definition generateFirestoreId (Math_random : nat -> spec_float) (timestamp : jsstring)
    : jsstring * nat :=
  let remainingLength := (totalLength - length timestamp)%nat in
  let '(randomPart, calls) := random_part Math_random remainingLength [] 0 in
  let st := Nat.iter totalLength (scatter_step Math_random timestamp randomPart)
              {| result := []; timestampIndex := 0; randomIndex := 0;
                 random_calls := calls |} in
  (result st, random_calls st).

(** The two strings [s] and [t], each in its order, make up [r]. *)
Inductive shuffle : list N -> list N -> list N -> Prop :=
  | shuffle_nil : shuffle [] [] []
  | shuffle_l c s t r : shuffle s t r -> shuffle (s ++ [c]) t (r ++ [c])
  | shuffle_r c s t r : shuffle s t r -> shuffle s (t ++ [c]) (r ++ [c]).

(** ** The collection of the editor *)

(** An element of [this.questions]: the fields of the question and the two
    marks of the editor; [_isDeleted] is [false] when the object has no such
    field. *)
Record StoredQuestion := {
  fields : Question;
  _hasChanges : bool;
  _isDeleted : bool
}.

(** A question of an imported file. Each field may be missing;
    [imported_question_text], [imported_id] and [imported_category] are
    strings when they are there, [imported_options] is [None] also for a
    value that is not an array, [imported_difficulty] is the integer that
    [parseInt] makes of the field, [None] for NaN, and [imported_isDeleted]
    tells whether the object has a [_isDeleted] that counts as true. *)
Record ImportedQuestion := {
  imported_id : option jsstring;
  imported_question_text : option jsstring;
  imported_options : option (list jsstring);
  imported_category : option jsstring;
  imported_difficulty : option Z;
  imported_isDeleted : bool
}.

(** The category of a question that has none (four Arabic letters). *)
Definition default_category : jsstring := [1593%N; 1575%N; 1605%N; 1577%N].


(** [value || fallback] for a string that may be missing. *)
Definition string_or (value : option jsstring) (fallback : jsstring) : jsstring :=
  match value with
  | Some (c :: r) => c :: r
  | _ => fallback
  end.

(** [parseInt(value) || 1] *)
Definition difficulty_or_1 (value : option Z) : Z :=
  match value with
  | Some 0 | None => 1
  | Some n => n
  end.



(** [q.question_text?.trim().toLowerCase()] *)
Definition text_key (toLowerCase : jsstring -> jsstring) (text : option jsstring)
    : option jsstring :=
  match text with
  | Some t => Some (toLowerCase (trim t))
  | None => None
  end.

(** The variables of [appendQuestions]; the two sets are kept as the lists of
    what was added to them, and [generated] counts the calls of
    [generateFirestoreId]. *)
Record append_state := {
  questions_now : list StoredQuestion;
  existingIds : list jsstring;
  existingTexts : list (option jsstring);
  appendedCount : nat;
  skippedCount : nat;
  duplicateCount : nat;
  generated : nat
}.

(** The body of the loop over the imported questions. [fresh n] is the id
    that the call number [n] of [generateFirestoreId] returns. *)
Definition append_step (toLowerCase : jsstring -> jsstring) (fresh : nat -> jsstring)
    (st : append_state) (newQuestion : ImportedQuestion) : append_state :=
  match imported_question_text newQuestion, imported_options newQuestion with
  | Some (c :: r), Some options_ =>
      let text := c :: r in
      let '(questionId, generated1) :=
        match imported_id newQuestion with
        | Some (c' :: r') => (c' :: r', generated st)
        | _ => (fresh (generated st), S (generated st))
        end in
      let '(questionId, generated2) :=
        if bool_decide (elem_of questionId (existingIds st))
        then (fresh generated1, S generated1)
        else (questionId, generated1) in
      let normalizedText := toLowerCase (trim text) in
      if bool_decide (elem_of (Some normalizedText) (existingTexts st)) then
        {| questions_now := questions_now st;
           existingIds := existingIds st;
           existingTexts := existingTexts st;
           appendedCount := appendedCount st;
           skippedCount := skippedCount st;
           duplicateCount := S (duplicateCount st);
           generated := generated2 |}
      else
        let processedQuestion :=
          {| fields := {| id := questionId;
                          question_text := Some (string_or (Some text) []);
                          options := options_;
                          category := string_or (imported_category newQuestion) default_category;
                          difficulty := difficulty_or_1 (imported_difficulty newQuestion) |};
             _hasChanges := false;
             _isDeleted := imported_isDeleted newQuestion |} in
        {| questions_now := questions_now st ++ [processedQuestion];
           existingIds := existingIds st ++ [questionId];
           existingTexts := existingTexts st ++ [Some normalizedText];
           appendedCount := S (appendedCount st);
           skippedCount := skippedCount st;
           duplicateCount := duplicateCount st;
           generated := generated2 |}
  | _, _ =>
      {| questions_now := questions_now st;
         existingIds := existingIds st;
         existingTexts := existingTexts st;
         appendedCount := appendedCount st;
         skippedCount := S (skippedCount st);
         duplicateCount := duplicateCount st;
         generated := generated st |}
  end.

(** [appendQuestions]: [newQuestions] is [newData.questions], [None] when
    [newData] is no object or has no array of that name; the result is
    [None] when the function throws. [generated0] is the number of ids
    generated before the call. *)
Definition appendQuestions (toLowerCase : jsstring -> jsstring) (fresh : nat -> jsstring)
    (questions : list StoredQuestion) (generated0 : nat)
    (newQuestions : option (list ImportedQuestion)) : option append_state :=
  match newQuestions with
  | None | Some [] => None
  | Some new =>
      Some (fold_left (append_step toLowerCase fresh) new
              {| questions_now := questions;
                 existingIds := map (fun q => id (fields q)) questions;
                 existingTexts :=
                   map (fun q => text_key toLowerCase (question_text (fields q))) questions;
                 appendedCount := 0;
                 skippedCount := 0;
                 duplicateCount := 0;
                 generated := generated0 |})
  end.

(** The key under which [appendQuestions] looks a stored question up. *)
Definition stored_key (toLowerCase : jsstring -> jsstring) (q : StoredQuestion)
    : option jsstring :=
  text_key toLowerCase (question_text (fields q)).

(** An imported question that the loop of [appendQuestions] does not skip as
    incomplete. *)
Definition complete (newQuestion : ImportedQuestion) : bool :=
  negb (falsy (imported_question_text newQuestion)) &&
  bool_decide (is_Some (imported_options newQuestion)).

(** What [appendQuestions] stores is filled in. *)
Definition stored_complete (p : StoredQuestion) : Prop :=
  (exists t, t <> [] /\ question_text (fields p) = Some t) /\
  category (fields p) <> [] /\ difficulty (fields p) <> 0 /\ _hasChanges p = false.



(** ** deleteQuestion, undeleteQuestion, saveData and exportData *)

(** [this.questions.find(q => q.id === questionId)] *)
Definition find_question (questionId : jsstring) (questions : list StoredQuestion)
    : option StoredQuestion :=
  List.find (fun q => bool_decide (id (fields q) = questionId)) questions.

(** The collection after the object that [find] returns has been changed by
    [change]: the first question with the id. *)
Fixpoint change_found (questionId : jsstring) (change : StoredQuestion -> StoredQuestion)
    (questions : list StoredQuestion) : list StoredQuestion :=
  match questions with
  | [] => []
  | q :: r =>
      if bool_decide (id (fields q) = questionId) then change q :: r
      else q :: change_found questionId change r
  end.

(** [delete question._isDeleted; question._hasChanges = true;] *)
Definition undeleteQuestion (questionId : jsstring) (questions : list StoredQuestion)
    : list StoredQuestion :=
  change_found questionId
    (fun q => {| fields := fields q; _hasChanges := true; _isDeleted := false |})
    questions.

(** [this.questions] after [deleteQuestion(questionId)]. *)
Definition deleteQuestion (questionId : jsstring) (questions : list StoredQuestion)
    : list StoredQuestion :=
  match find_question questionId questions with
  | None => questions
  | Some question =>
      if _isDeleted question then undeleteQuestion questionId questions
      else change_found questionId
             (fun q => {| fields := fields q; _hasChanges := true; _isDeleted := true |})
             questions
  end.

(** [a < b] on strings: the order of the code units. *)
Fixpoint string_lt (a b : jsstring) : bool :=
  match a, b with
  | _, [] => false
  | [], _ :: _ => true
  | x :: a', y :: b' => (x <? y)%N || ((x =? y)%N && string_lt a' b')
  end.

(** [Array.prototype.sort] without a function, on strings. *)
Fixpoint sort_insert_string (a : jsstring) (l : list jsstring) : list jsstring :=
  match l with
  | [] => [a]
  | b :: r => if string_lt b a then b :: sort_insert_string a r else a :: l
  end.

Definition sort_strings (l : list jsstring) : list jsstring :=
  fold_right sort_insert_string [] l.

(** [export_info] of the exported object. *)
Record ExportInfo := {
  exported_at : jsstring;
  total_questions : nat;
  source : jsstring;
  note : jsstring;
  removed_fields : list jsstring
}.

(** The object that [exportData] writes to the file; [difficulty_stats] has
    the counts for the difficulties 1 to 5, in this order. *)
Record ExportData := {
  export_info : ExportInfo;
  exported_questions : list Question;
  exported_categories : list jsstring;
  difficulty_stats : list nat
}.

(** [questions.filter(q => q.difficulty === d).length] *)
Definition count_difficulty (d : Z) (questions : list Question) : nat :=
  length (List.filter (fun q => difficulty q =? d) questions).

(** The object of [exportData], or [None] when there is no question at all
    and nothing is written. [categories] is [this.categories] and [now] is
    [new Date().toISOString()]. *)
Definition exportData (questions : list StoredQuestion) (categories : list jsstring)
    (now : jsstring) : option ExportData :=
  if (length questions =? 0)%nat then None else
  let cleanedQuestions :=
    map fields (List.filter (fun question => negb (_isDeleted question)) questions) in
  Some {| export_info :=
            {| exported_at := now;
               total_questions := length cleanedQuestions;
               source := js "Admin Web Interface";
               note := js "All questions are approved. Correct answer is always the first option.";
               removed_fields :=
                 [js "admin"; js "submission"; js "correct_answer_index"; js "status";
                  js "_isEditing"; js "_hasChanges"; js "_originalData"] |};
          exported_questions := cleanedQuestions;
          exported_categories := sort_strings categories;
          difficulty_stats :=
            map (fun d => count_difficulty d cleanedQuestions) [1; 2; 3; 4; 5] |}.

(** The object that [saveData] keeps in the local storage. *)
Record SavedData := {
  saved_at : jsstring;
  saved_total_questions : nat;
  saved_source : jsstring;
  saved_note : jsstring;
  saved_questions : list StoredQuestion;
  saved_categories : list jsstring;
  saved_difficulty_stats : list nat
}.

(** The note of [saveData] (an Arabic sentence). *)
Definition save_note : jsstring :=
  [1578; 1605; 32; 1575; 1604; 1578; 1593; 1583; 1610; 1604; 32; 1576; 1575; 1587; 1578;
   1582; 1583; 1575; 1605; 32; 1608; 1575; 1580; 1607; 1577; 32; 1575; 1604; 1573; 1583;
   1575; 1585; 1577]%N.

Definition saveData (questions : list StoredQuestion) (categories : list jsstring)
    (now : jsstring) : SavedData :=
  {| saved_at := now;
     saved_total_questions :=
       length (List.filter (fun q => negb (_isDeleted q)) questions);
     saved_source := js "Admin Web Interface";
     saved_note := save_note;
     saved_questions := questions;
     saved_categories := sort_strings categories;
     saved_difficulty_stats :=
       map (fun d => length (List.filter
                               (fun q => (difficulty (fields q) =? d) && negb (_isDeleted q))
                               questions))
           [1; 2; 3; 4; 5] |}.

(** The list without its first question that has the id. *)
Fixpoint remove_first (questionId : jsstring) (questions : list Question) : list Question :=
  match questions with
  | [] => []
  | q :: r =>
      if bool_decide (id q = questionId) then r else q :: remove_first questionId r
  end.

(** ** findSimilarQuestions and applyFilters *)

(** [s.startsWith(sub)] and [s.includes(sub)] *)
Fixpoint starts_with (s sub : jsstring) {struct sub} : bool :=
  match sub, s with
  | [], _ => true
  | _ :: _, [] => false
  | x :: sub', y :: s' => (x =? y)%N && starts_with s' sub'
  end.

Fixpoint includes (s sub : jsstring) : bool :=
  starts_with s sub ||
  match s with
  | [] => false
  | _ :: r => includes r sub
  end.

(** The two fields of the similar-questions mode. *)
Record similar_mode := {
  showSimilarQuestions : bool;
  selectedQuestionForSimilarity : option Question
}.

(** The mode after [findSimilarQuestions(questionId)]: the button of a
    question switches the mode on for it, and off when it is on for it. *)
Definition findSimilarQuestions (questionId : jsstring) (questions : list Question)
    (mode : similar_mode) : similar_mode :=
  match List.find (fun q => bool_decide (id q = questionId)) questions with
  | None => mode
  | Some question =>
      if showSimilarQuestions mode &&
         match selectedQuestionForSimilarity mode with
         | Some selected => bool_decide (id selected = questionId)
         | None => false
         end
      then {| showSimilarQuestions := false; selectedQuestionForSimilarity := None |}
      else {| showSimilarQuestions := true; selectedQuestionForSimilarity := Some question |}
  end.

(** The mode switched off, and switched on for a question. *)
Definition similar_off : similar_mode :=
  {| showSimilarQuestions := false; selectedQuestionForSimilarity := None |}.

Definition similar_on (selected : Question) : similar_mode :=
  {| showSimilarQuestions := true; selectedQuestionForSimilarity := Some selected |}.

(** An element of [this.filteredQuestions]: a question, with a similarity
    and the mark of the reference question when [applyFilters] adds them. *)
Record Displayed := {
  shown : Question;
  shown_similarity : option spec_float;
  isReference : bool
}.

(** [matchesSearch]; [None] when [question.question_text.toLowerCase()]
    throws because the question has no text. *)
Definition matches_search (toLowerCase : jsstring -> jsstring) (searchQuery : jsstring)
    (q : Question) : option bool :=
  match searchQuery with
  | [] => Some true
  | _ :: _ =>
      match question_text q with
      | None => None
      | Some text =>
          Some (includes (toLowerCase text) searchQuery ||
                includes (toLowerCase (id q)) searchQuery ||
                existsb (fun opt => includes (toLowerCase opt) searchQuery) (options q))
      end
  end.

(** [matchesCategory] *)
Definition matches_category (categoryFilter : jsstring) (q : Question) : bool :=
  match categoryFilter with
  | [] => true
  | _ :: _ => bool_decide (category q = categoryFilter)
  end.

(** [matchesDifficulty]; [difficultyFilter] is [None] when the value of the
    control is empty, and else what [parseInt] makes of it, [None] for NaN. *)
Definition matches_difficulty (difficultyFilter : option (option Z)) (q : Question)
    : bool :=
  match difficultyFilter with
  | None => true
  | Some None => false
  | Some (Some d) => difficulty q =? d
  end.

(** The function given to the first [filter]. *)
Definition matches (toLowerCase : jsstring -> jsstring) (searchQuery categoryFilter : jsstring)
    (difficultyFilter : option (option Z)) (q : Question) : option bool :=
  match matches_search toLowerCase searchQuery q with
  | None => None
  | Some matchesSearch =>
      Some (matchesSearch && matches_category categoryFilter q &&
            matches_difficulty difficultyFilter q)
  end.

(** [filter] with a function that may throw. *)
Fixpoint filter_questions (f : Question -> option bool) (questions : list Question)
    : option (list Question) :=
  match questions with
  | [] => Some []
  | q :: r =>
      match f q with
      | None => None
      | Some keep =>
          match filter_questions f r with
          | None => None
          | Some r' => Some (if keep then q :: r' else r')
          end
      end
  end.

(** [x || 0] for a similarity that may be missing. *)
Definition or_0 (x : option spec_float) : spec_float :=
  match x with
  | Some (S754_finite s m e) => S754_finite s m e
  | Some (S754_infinity s) => S754_infinity s
  | _ => num 0
  end.

(** [(a, b) => (b.similarity || 0) - (a.similarity || 0)] and the sort with
    it. *)
Definition compare_shown (a b : Displayed) : spec_float :=
  fsub (or_0 (shown_similarity b)) (or_0 (shown_similarity a)).

Fixpoint sort_insert_shown (a : Displayed) (l : list Displayed) : list Displayed :=
  match l with
  | [] => [a]
  | b :: r => if fpositive (compare_shown a b) then b :: sort_insert_shown a r else a :: l
  end.

Definition sort_shown (l : list Displayed) : list Displayed :=
  fold_right sort_insert_shown [] l.

(** The function given to [map] in the similar-questions mode. *)
Definition with_similarity_data (selected : Question) (similarQuestions : list SimilarQuestion)
    (q : Question) : Displayed :=
  if bool_decide (id q = id selected) then
    {| shown := q; shown_similarity := Some (num 100); isReference := true |}
  else
    match List.find (fun sq => bool_decide (id (question sq) = id q)) similarQuestions with
    | Some similarQuestion =>
        {| shown := q; shown_similarity := Some (similarity similarQuestion);
           isReference := false |}
    | None => {| shown := q; shown_similarity := None; isReference := false |}
    end.

(** A question as it is shown outside the similar-questions mode. *)
Definition plain (q : Question) : Displayed :=
  {| shown := q; shown_similarity := None; isReference := false |}.

(** [this.filteredQuestions] after [applyFilters], or [None] when it throws.
    [searchInput], [categoryFilter] and [difficultyFilter] are the values of
    the three controls of the page. *)
Definition applyFilters (toLowerCase : jsstring -> jsstring) (questions : list Question)
    (mode : similar_mode) (searchInput categoryFilter : jsstring)
    (difficultyFilter : option (option Z)) : option (list Displayed) :=
  let searchQuery := trim (toLowerCase searchInput) in
  match filter_questions (matches toLowerCase searchQuery categoryFilter difficultyFilter)
          questions with
  | None => None
  | Some filteredQuestions =>
      match showSimilarQuestions mode, selectedQuestionForSimilarity mode with
      | true, Some selected =>
          let similarQuestions :=
            findSimilarQuestionsForQuestion toLowerCase questions (Some selected)
              (Some (num 70)) in
          let filteredQuestions :=
            List.filter
              (fun q =>
                 bool_decide (id q = id selected) ||
                 existsb (fun similar => bool_decide (id (question similar) = id q))
                   similarQuestions)
              filteredQuestions in
          Some (sort_shown (map (with_similarity_data selected similarQuestions)
                              filteredQuestions))
      | _, _ => Some (map plain filteredQuestions)
      end
  end.

(** The order of what is shown in the similar-questions mode. *)
Definition descending_shown (a b : Displayed) : Prop :=
  fge (or_0 (shown_similarity a)) (or_0 (shown_similarity b)) = true.

(** An entry of what is shown as an entry of the search. *)
Definition as_similar (d : Displayed) : SimilarQuestion :=
  {| question := shown d; similarity := or_0 (shown_similarity d) |}.

(** ** saveToCurrentFile *)

(** The controls of the card of a question on the page: the value of the
    text area and of the category control, [None] when the card has no such
    control, what [parseInt] makes of the value of the difficulty control,
    [None] for NaN or when there is no such control, and the values of the
    option inputs. *)
Record Card := {
  card_text : option jsstring;
  card_category : option jsstring;
  card_difficulty : option Z;
  card_options : list jsstring
}.

(** The question after its fields have been set from its card. *)
Definition read_card (card : Card) (q : StoredQuestion) : StoredQuestion :=
  {| fields :=
       {| id := id (fields q);
          question_text := Some (default [] (trim <$> card_text card));
          options := map trim (card_options card);
          category := default [] (card_category card);
          difficulty := difficulty_or_1 (card_difficulty card) |};
     _hasChanges := _hasChanges q;
     _isDeleted := _isDeleted q |}.

(** The two checks of [saveToCurrentFile] on the values read from a card;
    [new Set(options).size] is the number of different options. *)
Definition card_valid (q : Question) : bool :=
  negb (falsy (question_text q)) &&
  negb (bool_decide (category q = [])) &&
  (length (options q) =? 4)%nat &&
  forallb (fun opt => negb (bool_decide (opt = []))) (options q) &&
  (length (remove_dups (options q)) =? 4)%nat.

(** The loop of [saveToCurrentFile] from the index [i] on: the questions
    as the loop leaves them, and the numbers pushed to [invalidQuestions].
    [page id] is the card that [document.querySelector] finds for the id. *)
Fixpoint save_loop (page : jsstring -> option Card) (i : nat)
    (questions : list StoredQuestion) : list StoredQuestion * list nat :=
  match questions with
  | [] => ([], [])
  | q :: r =>
      let '(r', invalidQuestions) := save_loop page (S i) r in
      if _isDeleted q then (q :: r', invalidQuestions)
      else match page (id (fields q)) with
           | Some questionCard =>
               let q' := read_card questionCard q in
               (q' :: r',
                if card_valid (fields q') then invalidQuestions
                else (i + 1)%nat :: invalidQuestions)
           | None => (q :: r', invalidQuestions)
           end
  end.

(** [this.questions] after [saveToCurrentFile], and [invalidQuestions]:
    when that is not empty, nothing is saved. *)
Definition saveToCurrentFile (page : jsstring -> option Card)
    (questions : list StoredQuestion) : list StoredQuestion * list nat :=
  let '(updated, invalidQuestions) := save_loop page 0 questions in
  match invalidQuestions with
  | _ :: _ => (updated, invalidQuestions)
  | [] =>
      (map (fun q => {| fields := fields q; _hasChanges := false;
                        _isDeleted := _isDeleted q |})
         (List.filter (fun q => negb (_isDeleted q)) updated),
       [])
  end.

(** ** More sample values *)

(** A number that [Math.random] can return. *)
Definition half : spec_float := fdiv (num 1) (num 2).

(** The ids that [generateFirestoreId] is taken to return, one after the
    other, in the samples. *)
Definition fresh_sample (n : nat) : jsstring :=
  js "mh5x2k9aQ0" ++ [(65 + N.of_nat n)%N].

Definition imported (id_ text_ : string) : ImportedQuestion :=
  {| imported_id := Some (js id_);
     imported_question_text := Some (js text_);
     imported_options := Some [js "a"; js "b"; js "c"; js "d"];
     imported_category := Some (js "geography");
     imported_difficulty := Some 2;
     imported_isDeleted := false |}.

(** A file with a question, the same question in other letters, a question
    without options and one without id, category and difficulty. *)
Definition file_sample : list ImportedQuestion :=
  [imported "1" "What is the capital of France?";
   imported "2" "  what is the capital of france?  ";
   {| imported_id := Some (js "3"); imported_question_text := Some (js "How tall?");
      imported_options := None; imported_category := None;
      imported_difficulty := None; imported_isDeleted := false |};
   {| imported_id := None; imported_question_text := Some (js "How tall is Mount Everest?");
      imported_options := Some []; imported_category := None;
      imported_difficulty := None; imported_isDeleted := false |}].

Definition stored (q : Question) (deleted : bool) : StoredQuestion :=
  {| fields := q; _hasChanges := false; _isDeleted := deleted |}.

Definition collection_sample : list StoredQuestion :=
  [stored q1 false; stored q2 true; stored q3 false].

(** The first sample question again, under another id and in other letters. *)
Definition copy_sample : Question :=
  {| id := js "4"; question_text := Some (js "  what IS the capital   of france? ");
     options := []; category := []; difficulty := 1 |}.

(** A page with a card for the question "1", filled in as the checks of
    [saveToCurrentFile] want it, and one with a card for the question "3"
    that has only three options. *)
Definition page_sample (questionId : jsstring) : option Card :=
  if bool_decide (questionId = js "1") then
    Some {| card_text := Some (js " What is the capital of France? ");
            card_category := Some (js "geography");
            card_difficulty := Some 2;
            card_options := [js "Paris"; js "Lyon"; js " Nice"; js "Lille "] |}
  else None.

Definition page_sample_invalid (questionId : jsstring) : option Card :=
  if bool_decide (questionId = js "3") then
    Some {| card_text := Some (js "How tall is Mount Everest?");
            card_category := Some (js "geography");
            card_difficulty := None;
            card_options := [js "8849 m"; js "8611 m"; js "8516 m"] |}
  else None.

(** * Proofs *)

(** ** Normalisation *)

Lemma is_white_space_SPACE : is_white_space SPACE = true.
Proof. reflexivity. Qed.

(** A second pass of the replacement finds only single spaces. *)
Lemma replace_runs_from_idem (s : jsstring) : forall b b' : bool,
  (b = true -> b' = true) ->
  replace_runs_from b (replace_runs_from b' s) = replace_runs_from b' s.
Proof.
  induction s as [|c r IH]; intros b b' Hb; [reflexivity|].
  cbn [replace_runs_from]. destruct (is_white_space c) eqn:Ec.
  - destruct b'.
    + now apply IH.
    + destruct b; [now specialize (Hb eq_refl)|].
      cbn [replace_runs_from]. rewrite is_white_space_SPACE.
      f_equal. now apply IH.
  - cbn [replace_runs_from]. rewrite Ec. f_equal. now apply IH.
Qed.

Lemma replace_white_space_runs_idem (s : jsstring) :
  replace_white_space_runs (replace_white_space_runs s) = replace_white_space_runs s.
Proof. unfold replace_white_space_runs. now apply replace_runs_from_idem. Qed.

Lemma trim_start_clean (s : jsstring) : starts_clean (trim_start s).
Proof.
  induction s as [|c r IH]; intros x Hx; [discriminate|].
  cbn [trim_start] in Hx. destruct (is_white_space c) eqn:Ec.
  - now apply IH.
  - injection Hx as <-. exact Ec.
Qed.

Lemma trim_start_id (s : jsstring) : starts_clean s -> trim_start s = s.
Proof.
  destruct s as [|c r]; intros H; [reflexivity|].
  cbn [trim_start]. now rewrite (H c eq_refl).
Qed.

Lemma trim_end_clean (s : jsstring) : ends_clean (trim_end s).
Proof.
  induction s as [|c r IH]; intros x Hx; [discriminate|].
  cbn [trim_end] in Hx. destruct (trim_end r) as [|y r'] eqn:Er.
  - destruct (is_white_space c) eqn:Ec; [discriminate|].
    injection Hx as <-. exact Ec.
  - rewrite last_cons in Hx. apply IH.
    destruct (last (y :: r')) eqn:El; [congruence|].
    now apply last_None in El.
Qed.

Lemma trim_end_id (s : jsstring) : ends_clean s -> trim_end s = s.
Proof.
  induction s as [|c r IH]; intros H; [reflexivity|].
  cbn [trim_end]. destruct r as [|y r'].
  - cbn. now rewrite (H c eq_refl).
  - rewrite IH; [reflexivity|].
    intros x Hx. apply H. rewrite last_cons, Hx. reflexivity.
Qed.

Lemma trim_end_head (s : jsstring) : starts_clean s -> starts_clean (trim_end s).
Proof.
  destruct s as [|c r]; intros H x Hx; [discriminate|].
  cbn [trim_end] in Hx. specialize (H c eq_refl).
  destruct (trim_end r); [rewrite H in Hx|]; injection Hx as <-; exact H.
Qed.

Lemma trim_clean (s : jsstring) : starts_clean (trim s) /\ ends_clean (trim s).
Proof.
  unfold trim. split.
  - apply trim_end_head, trim_start_clean.
  - apply trim_end_clean.
Qed.

Lemma trim_id (s : jsstring) : starts_clean s -> ends_clean s -> trim s = s.
Proof. intros H1 H2. unfold trim. rewrite trim_start_id by assumption. now apply trim_end_id. Qed.

Lemma replace_runs_from_head (s : jsstring) b :
  starts_clean s -> starts_clean (replace_runs_from b s).
Proof.
  destruct s as [|c r]; intros H x Hx; [discriminate|].
  cbn [replace_runs_from] in Hx. specialize (H c eq_refl). rewrite H in Hx.
  injection Hx as <-. exact H.
Qed.

Lemma replace_runs_from_last (s : jsstring) : forall b c,
  last s = Some c -> is_white_space c = false ->
  last (replace_runs_from b s) = Some c.
Proof.
  induction s as [|x r IH]; intros b c Hl Hc; [discriminate|].
  rewrite last_cons in Hl. cbn [replace_runs_from].
  destruct (last r) as [y|] eqn:Er.
  - injection Hl as ->.
    destruct (is_white_space x); [destruct b|]; rewrite ?last_cons, ?(IH _ c eq_refl Hc);
      reflexivity.
  - injection Hl as ->. apply last_None in Er. subst r. rewrite Hc. reflexivity.
Qed.

Lemma replace_runs_from_ends (s : jsstring) b :
  ends_clean s -> ends_clean (replace_runs_from b s).
Proof.
  intros H x Hx. destruct (last s) as [c|] eqn:El.
  - rewrite (replace_runs_from_last s b c El (H c El)) in Hx. injection Hx as <-. now apply H.
  - apply last_None in El. subst s. discriminate.
Qed.

(** White space is normalised once and for all. *)
Lemma tidy_fixed (s : jsstring) :
  let t := replace_white_space_runs (trim s) in
  trim t = t /\ replace_white_space_runs t = t.
Proof.
  cbv zeta. destruct (trim_clean s) as [H1 H2]. split.
  - apply trim_id; unfold replace_white_space_runs.
    + now apply replace_runs_from_head.
    + now apply replace_runs_from_ends.
  - apply replace_white_space_runs_idem.
Qed.

Lemma trim_start_all_white_space (s : jsstring) :
  forallb is_white_space s = true -> trim_start s = [].
Proof.
  induction s as [|c r IH]; [reflexivity|]. cbn [forallb trim_start].
  intros H. apply andb_prop in H as [-> Hr]. now apply IH.
Qed.

Lemma length_trim_start (s : jsstring) : (length (trim_start s) <= length s)%nat.
Proof.
  induction s as [|c r IH]; [reflexivity|]. cbn [trim_start].
  destruct (is_white_space c); cbn [length]; lia.
Qed.

Lemma length_trim_end (s : jsstring) : (length (trim_end s) <= length s)%nat.
Proof.
  induction s as [|c r IH]; [reflexivity|]. cbn [trim_end].
  destruct (trim_end r); [destruct (is_white_space c)|]; cbn [length] in *; lia.
Qed.

Lemma length_replace_runs_from (s : jsstring) b :
  (length (replace_runs_from b s) <= length s)%nat.
Proof.
  revert b. induction s as [|c r IH]; intros b; [reflexivity|]. cbn [replace_runs_from].
  destruct (is_white_space c); [destruct b|]; cbn [length];
    try (specialize (IH true); lia); specialize (IH false); lia.
Qed.

(** ** Lower-casing of ASCII text *)

Lemma ascii_lower_unit_idem c : ascii_lower_unit (ascii_lower_unit c) = ascii_lower_unit c.
Proof.
  unfold ascii_lower_unit.
  destruct ((65 <=? c) && (c <=? 90))%N eqn:E; [|now rewrite E].
  apply andb_prop in E as [H1 H2]. apply N.leb_le in H1, H2.
  replace ((65 <=? c + 32) && (c + 32 <=? 90))%N with false; [reflexivity|].
  symmetry. apply andb_false_iff. right. apply N.leb_gt. lia.
Qed.

Lemma ascii_lower_unit_white_space c :
  is_white_space c = true -> ascii_lower_unit c = c.
Proof.
  intros H. unfold ascii_lower_unit.
  destruct ((65 <=? c) && (c <=? 90))%N eqn:E; [|reflexivity].
  apply andb_prop in E as [H1 H2]. apply N.leb_le in H1, H2.
  unfold is_white_space in H.
  repeat (apply orb_prop in H as [H|H]);
    try (apply andb_prop in H as [H3 H4]; apply N.leb_le in H3, H4; lia);
    apply N.eqb_eq in H; lia.
Qed.

Lemma toLowerCase_ascii_idem (s : jsstring) :
  toLowerCase_ascii (toLowerCase_ascii s) = toLowerCase_ascii s.
Proof.
  unfold toLowerCase_ascii. rewrite map_map. apply map_ext. apply ascii_lower_unit_idem.
Qed.

Lemma toLowerCase_ascii_white_space (s : jsstring) :
  forallb is_white_space s = true -> toLowerCase_ascii s = s.
Proof.
  induction s as [|c r IH]; [reflexivity|]. cbn [forallb]. intros H.
  apply andb_prop in H as [Hc Hr]. unfold toLowerCase_ascii in *. cbn [map].
  now rewrite ascii_lower_unit_white_space, IH.
Qed.

Lemma toLowerCase_ascii_fixed (s : jsstring) :
  toLowerCase_ascii s = s <-> Forall (fun c => ascii_lower_unit c = c) s.
Proof.
  unfold toLowerCase_ascii. induction s as [|c r IH]; cbn [map].
  - split; [constructor|reflexivity].
  - split.
    + intros H. injection H as Hc Hr. constructor; [assumption|]. now apply IH.
    + intros H. inversion H as [|? ? Hc Hr]; subst. rewrite Hc. f_equal. now apply IH.
Qed.

Lemma Forall_trim_start (P : N -> Prop) (s : jsstring) :
  Forall P s -> Forall P (trim_start s).
Proof.
  induction 1 as [|c r Hc Hr IH]; [constructor|]. cbn [trim_start].
  destruct (is_white_space c); [assumption|now constructor].
Qed.

Lemma Forall_trim_end (P : N -> Prop) (s : jsstring) :
  Forall P s -> Forall P (trim_end s).
Proof.
  induction 1 as [|c r Hc Hr IH]; [constructor|]. cbn [trim_end].
  destruct (trim_end r); [destruct (is_white_space c)|]; auto.
Qed.

Lemma Forall_replace_runs_from (P : N -> Prop) (s : jsstring) b :
  P SPACE -> Forall P s -> Forall P (replace_runs_from b s).
Proof.
  intros Hs H. revert b. induction H as [|c r Hc Hr IH]; intros b; [constructor|].
  cbn [replace_runs_from].
  destruct (is_white_space c); [destruct b|]; auto.
Qed.

Lemma toLowerCase_ascii_tidy (s : jsstring) :
  toLowerCase_ascii s = s ->
  toLowerCase_ascii (replace_white_space_runs (trim s)) = replace_white_space_runs (trim s).
Proof.
  rewrite !toLowerCase_ascii_fixed. intros H.
  apply Forall_replace_runs_from; [reflexivity|].
  apply Forall_trim_end, Forall_trim_start, H.
Qed.

(** ** The distance table *)

Definition shaped (rows cols : nat) (m : matrix) : Prop :=
  length m = rows /\ Forall (fun row => length row = cols) m.

Lemma shaped_new_matrix len1 len2 : shaped (S len1) (S len2) (new_matrix len1 len2).
Proof.
  split.
  - apply length_replicate.
  - apply Forall_forall. intros row Hrow.
    apply elem_of_replicate in Hrow as [-> _].
    apply length_replicate.
Qed.

Lemma shaped_mset rows cols m i j v :
  shaped rows cols m -> shaped rows cols (mset m i j v).
Proof.
  intros [Hlen Hrows]. split.
  - unfold mset. now rewrite length_alter.
  - unfold mset. apply Forall_lookup. intros k row Hk.
    rewrite Forall_lookup in Hrows.
    destruct (decide (i = k)) as [->|Hne].
    + rewrite list_lookup_alter_eq in Hk.
      destruct (m !! k) as [row0|] eqn:E; simpl in Hk; [|discriminate].
      injection Hk as <-. rewrite length_insert. eauto.
    + rewrite list_lookup_alter_ne in Hk by assumption. eauto.
Qed.

Lemma mget_mset_eq rows cols m i j v :
  shaped rows cols m -> (i < rows)%nat -> (j < cols)%nat ->
  mget (mset m i j v) i j = v.
Proof.
  intros [Hlen Hrows] Hi Hj. unfold mget, mset.
  rewrite list_lookup_alter_eq.
  destruct (lookup_lt_is_Some_2 m i) as [row Hrow]; [lia|].
  rewrite Hrow. simpl.
  rewrite Forall_lookup in Hrows. specialize (Hrows _ _ Hrow).
  rewrite list_lookup_insert_eq by lia. reflexivity.
Qed.

Lemma mget_mset_ne m i j v i' j' :
  (i, j) <> (i', j') -> mget (mset m i j v) i' j' = mget m i' j'.
Proof.
  intros Hne. unfold mget, mset.
  destruct (decide (i = i')) as [->|Hi].
  - rewrite list_lookup_alter_eq.
    destruct (m !! i') as [row|]; simpl; [|reflexivity].
    rewrite list_lookup_insert_ne; [reflexivity|congruence].
  - rewrite list_lookup_alter_ne by assumption. reflexivity.
Qed.

Lemma lev_rec_0_l str1 str2 j : lev_rec str1 str2 0 j = Z.of_nat j.
Proof. reflexivity. Qed.

Lemma lev_rec_0_r str1 str2 i : lev_rec str1 str2 i 0 = Z.of_nat i.
Proof. destruct i; reflexivity. Qed.

Lemma lev_rec_S str1 str2 i j :
  lev_rec str1 str2 (S i) (S j) =
  min3 (lev_rec str1 str2 i (S j) + 1)
       (lev_rec str1 str2 (S i) j + 1)
       (lev_rec str1 str2 i j + cost str1 str2 (S i) (S j)).
Proof. reflexivity. Qed.

Lemma shaped_init_column rows cols len1 m :
  shaped rows cols m -> shaped rows cols (init_column len1 m).
Proof.
  unfold init_column. generalize (seq 0 (S len1)). intros l. revert m.
  induction l as [|i l IH]; intros m Hm; simpl; [assumption|].
  apply IH, shaped_mset, Hm.
Qed.

Lemma shaped_init_row rows cols len2 m :
  shaped rows cols m -> shaped rows cols (init_row len2 m).
Proof.
  unfold init_row. generalize (seq 0 (S len2)). intros l. revert m.
  induction l as [|j l IH]; intros m Hm; simpl; [assumption|].
  apply IH, shaped_mset, Hm.
Qed.

Lemma init_column_get rows cols m k i :
  shaped rows cols m -> (0 < cols)%nat -> (k <= rows)%nat -> (i < k)%nat ->
  mget (fold_left (fun m i => mset m i 0 (Z.of_nat i)) (seq 0 k) m) i 0%nat = Z.of_nat i.
Proof.
  intros Hm Hc. revert i. induction k as [|k IH]; intros i Hk Hi; [lia|].
  rewrite seq_S, fold_left_app. simpl.
  assert (Hs : shaped rows cols (fold_left (fun m i => mset m i 0 (Z.of_nat i)) (seq 0 k) m)).
  { clear -Hm. generalize (seq 0 k). intros l. revert m Hm.
    induction l as [|x l IHl]; intros m Hm; simpl; [assumption|].
    apply IHl, shaped_mset, Hm. }
  destruct (decide (i = k)) as [->|Hne].
  - apply (mget_mset_eq rows cols); [assumption|lia|lia].
  - rewrite mget_mset_ne by congruence. apply IH; lia.
Qed.

Lemma init_row_get rows cols m k i j :
  shaped rows cols m -> (0 < rows)%nat -> (k <= cols)%nat ->
  mget (fold_left (fun m j => mset m 0 j (Z.of_nat j)) (seq 0 k) m) i j =
  if bool_decide (i = 0%nat /\ (j < k)%nat) then Z.of_nat j else mget m i j.
Proof.
  intros Hm Hr. revert i j. induction k as [|k IH]; intros i j Hk.
  - simpl. rewrite bool_decide_eq_false_2; [reflexivity|lia].
  - rewrite seq_S, fold_left_app. simpl.
    assert (Hs : shaped rows cols (fold_left (fun m j => mset m 0 j (Z.of_nat j)) (seq 0 k) m)).
    { clear -Hm. generalize (seq 0 k). intros l. revert m Hm.
      induction l as [|x l IHl]; intros m Hm; simpl; [assumption|].
      apply IHl, shaped_mset, Hm. }
    destruct (decide ((i, j) = (0%nat, k))) as [Heq|Hne].
    + injection Heq as -> ->.
      rewrite (mget_mset_eq rows cols) by (assumption || lia).
      rewrite bool_decide_eq_true_2; [reflexivity|lia].
    + rewrite mget_mset_ne by congruence. rewrite IH by lia.
      assert (Hiff : (i = 0%nat /\ (j < k)%nat) <-> (i = 0%nat /\ (j < S k)%nat)).
      { split; intros [-> H]; split; try reflexivity; try lia.
        destruct (decide (j = k)) as [->|]; [congruence|lia]. }
      now rewrite (bool_decide_ext _ _ Hiff).
Qed.

(** [filled a b i j]: the entry [(i, j)] has its final value when the rows
    below [a] are complete and row [a] is complete up to column [b]. *)
Definition filled (a b i j : nat) : Prop :=
  i = 0%nat \/ j = 0%nat \/ (i < a)%nat \/ (i = a /\ (j <= b)%nat).

Definition table_inv (str1 str2 : jsstring) (len1 len2 a b : nat) (m : matrix) : Prop :=
  shaped (S len1) (S len2) m /\
  forall i j, (i <= len1)%nat -> (j <= len2)%nat -> filled a b i j ->
    mget m i j = lev_rec str1 str2 i j.

Lemma table_inv_init str1 str2 len1 len2 :
  table_inv str1 str2 len1 len2 0 0
    (init_row len2 (init_column len1 (new_matrix len1 len2))).
Proof.
  pose proof (shaped_new_matrix len1 len2) as Hn.
  pose proof (shaped_init_column _ _ len1 _ Hn) as Hc.
  split; [now apply shaped_init_row|].
  intros i j Hi Hj Hf. unfold init_row.
  rewrite (init_row_get (S len1) (S len2)) by (assumption || lia).
  case_bool_decide as Hd.
  - destruct Hd as [-> _]. now rewrite lev_rec_0_l.
  - assert (j = 0%nat) as -> by (unfold filled in Hf; lia).
    rewrite lev_rec_0_r. unfold init_column.
    apply (init_column_get (S len1) (S len2)); (assumption || lia).
Qed.

Lemma table_inv_fill_cell str1 str2 len1 len2 i j m :
  (1 <= i <= len1)%nat -> (1 <= j <= len2)%nat ->
  table_inv str1 str2 len1 len2 i (j - 1) m ->
  table_inv str1 str2 len1 len2 i j (fill_cell str1 str2 m i j).
Proof.
  intros Hi Hj [Hs Hv]. split; [now apply shaped_mset|].
  intros i' j' Hi' Hj' Hf. unfold fill_cell.
  destruct (decide ((i, j) = (i', j'))) as [Heq|Hne].
  - injection Heq as <- <-.
    rewrite (mget_mset_eq (S len1) (S len2)) by (assumption || lia).
    destruct i as [|i0]; [lia|]. destruct j as [|j0]; [lia|].
    rewrite lev_rec_S. simpl Nat.sub. rewrite !Nat.sub_0_r.
    rewrite !Hv; [reflexivity| | | | | | | | |]; unfold filled; lia.
  - rewrite mget_mset_ne by assumption. apply Hv; try assumption.
    unfold filled in *.
    destruct (decide (i' = i)) as [->|]; [|lia].
    destruct (decide (j' = j)) as [->|]; [congruence|lia].
Qed.

Lemma table_inv_fill_row str1 str2 len1 len2 i m :
  (1 <= i <= len1)%nat ->
  table_inv str1 str2 len1 len2 i 0 m ->
  table_inv str1 str2 len1 len2 i len2 (fill_row str1 str2 len2 m i).
Proof.
  intros Hi Hm. unfold fill_row.
  assert (H : forall k, (k <= len2)%nat ->
            table_inv str1 str2 len1 len2 i k
              (fold_left (fun m j => fill_cell str1 str2 m i j) (seq 1 k) m)).
  { induction k as [|k IH]; intros Hk; [exact Hm|].
    rewrite seq_S, fold_left_app. simpl.
    apply table_inv_fill_cell; [lia|lia|].
    replace (S k - 1)%nat with k by lia. apply IH. lia. }
  apply H. lia.
Qed.

Lemma table_inv_next_row str1 str2 len1 len2 i m :
  table_inv str1 str2 len1 len2 i len2 m ->
  table_inv str1 str2 len1 len2 (S i) 0 m.
Proof.
  intros [Hs Hv]. split; [assumption|].
  intros i' j' Hi' Hj' Hf. apply Hv; try assumption. unfold filled in *. lia.
Qed.

Lemma table_inv_fill_matrix str1 str2 len1 len2 m :
  table_inv str1 str2 len1 len2 0 0 m ->
  table_inv str1 str2 len1 len2 len1 len2 (fill_matrix str1 str2 len1 len2 m).
Proof.
  intros Hm. unfold fill_matrix.
  assert (H : forall k, (k <= len1)%nat ->
            table_inv str1 str2 len1 len2 k len2
              (fold_left (fun m i => fill_row str1 str2 len2 m i) (seq 1 k) m)).
  { induction k as [|k IH]; intros Hk.
    - destruct Hm as [Hs Hv]. split; [assumption|].
      intros i j Hi Hj Hf. apply Hv; try assumption. unfold filled in *. lia.
    - rewrite seq_S, fold_left_app. simpl.
      apply table_inv_fill_row; [lia|].
      apply table_inv_next_row, IH. lia. }
  apply H. lia.
Qed.

(** Every entry of the final table is the value of the recurrence. *)
Lemma final_matrix_get str1 str2 i j :
  (i <= length str1)%nat -> (j <= length str2)%nat ->
  mget (final_matrix str1 str2) i j = lev_rec str1 str2 i j.
Proof.
  intros Hi Hj. unfold final_matrix.
  destruct (table_inv_fill_matrix str1 str2 (length str1) (length str2) _
              (table_inv_init str1 str2 (length str1) (length str2))) as [_ Hv].
  apply Hv; try assumption. unfold filled. lia.
Qed.

Lemma levenshteinDistance_lev_rec str1 str2 :
  levenshteinDistance str1 str2 = lev_rec str1 str2 (length str1) (length str2).
Proof. unfold levenshteinDistance. now apply final_matrix_get. Qed.

Lemma cost_sym str1 str2 i j : cost str1 str2 i j = cost str2 str1 j i.
Proof.
  unfold cost. repeat case_bool_decide; congruence.
Qed.

Lemma cost_range str1 str2 i j : 0 <= cost str1 str2 i j <= 1.
Proof. unfold cost. case_bool_decide; lia. Qed.

Lemma lev_rec_sym str1 str2 i j :
  lev_rec str1 str2 i j = lev_rec str2 str1 j i.
Proof.
  revert j. induction i as [|i IHi]; intros j.
  - now rewrite lev_rec_0_l, lev_rec_0_r.
  - induction j as [|j IHj].
    + now rewrite lev_rec_0_l, lev_rec_0_r.
    + rewrite !lev_rec_S, IHj, !IHi, (cost_sym str1 str2).
      unfold min3. lia.
Qed.

Lemma lev_rec_bounds str1 str2 i j :
  0 <= lev_rec str1 str2 i j <= Z.max (Z.of_nat i) (Z.of_nat j).
Proof.
  revert j. induction i as [|i IHi]; intros j.
  - rewrite lev_rec_0_l. lia.
  - induction j as [|j IHj].
    + rewrite lev_rec_0_r. lia.
    + rewrite lev_rec_S.
      pose proof (IHi j). pose proof (IHi (S j)).
      pose proof (cost_range str1 str2 (S i) (S j)).
      unfold min3. lia.
Qed.

Lemma levenshteinDistance_sym str1 str2 :
  levenshteinDistance str1 str2 = levenshteinDistance str2 str1.
Proof. rewrite !levenshteinDistance_lev_rec. apply lev_rec_sym. Qed.

Lemma levenshteinDistance_bounds str1 str2 :
  0 <= levenshteinDistance str1 str2
    <= Z.max (Z.of_nat (length str1)) (Z.of_nat (length str2)).
Proof. rewrite levenshteinDistance_lev_rec. apply lev_rec_bounds. Qed.

(** ** Rounding to binary64 *)

Lemma digits2_pos_bounds (p : positive) :
  2 ^ (Zpos (digits2_pos p) - 1) <= Zpos p < 2 ^ Zpos (digits2_pos p).
Proof.
  assert (Hstep : forall d : positive,
            2 ^ Zpos (Pos.succ d) = 2 * 2 ^ Zpos d /\
            2 ^ (Zpos (Pos.succ d) - 1) = 2 ^ Zpos d /\
            2 ^ Zpos d = 2 * 2 ^ (Zpos d - 1)).
  { intros d. rewrite Pos2Z.inj_succ. repeat split.
    - apply Z.pow_succ_r. lia.
    - f_equal. lia.
    - rewrite <- Z.pow_succ_r by lia. f_equal. lia. }
  induction p as [p IH|p IH|]; simpl digits2_pos.
  - destruct (Hstep (digits2_pos p)) as (-> & -> & E). lia.
  - destruct (Hstep (digits2_pos p)) as (-> & -> & E). lia.
  - simpl. lia.
Qed.

Lemma digits2_pos_unique (p : positive) (d : Z) :
  2 ^ (d - 1) <= Zpos p < 2 ^ d -> Zpos (digits2_pos p) = d.
Proof.
  intros [Hlo Hhi]. pose proof (digits2_pos_bounds p) as [Hlo' Hhi'].
  assert (0 < d).
  { destruct (Z_lt_le_dec 0 d); [assumption|].
    destruct (Z.eq_dec d 0) as [->|]; [simpl in Hhi; lia|].
    rewrite Z.pow_neg_r in Hhi by lia. lia. }
  destruct (Z_lt_le_dec (Zpos (digits2_pos p)) d).
  - assert (2 ^ Zpos (digits2_pos p) <= 2 ^ (d - 1)) by (apply Z.pow_le_mono_r; lia). lia.
  - destruct (Z_lt_le_dec d (Zpos (digits2_pos p))); [|lia].
    assert (2 ^ d <= 2 ^ (Zpos (digits2_pos p) - 1)) by (apply Z.pow_le_mono_r; lia). lia.
Qed.

Lemma shr_1_m mrs : 0 <= shr_m mrs -> shr_m (shr_1 mrs) = shr_m mrs / 2.
Proof.
  destruct mrs as [m r s]. simpl. intros Hm.
  destruct m as [|[p|p|]|p]; cbn -[Z.div]; try reflexivity; try lia.
  - apply Z.div_unique with (r := 1); lia.
  - apply Z.div_unique with (r := 0); lia.
Qed.

Lemma pow2_xI p : 2 ^ Zpos p~1 = 2 * 2 ^ Zpos p * 2 ^ Zpos p.
Proof.
  assert (E : Zpos p~1 = 1 + Zpos p + Zpos p) by lia.
  rewrite E, !Z.pow_add_r by lia. reflexivity.
Qed.

Lemma pow2_xO p : 2 ^ Zpos p~0 = 2 ^ Zpos p * 2 ^ Zpos p.
Proof.
  assert (E : Zpos p~0 = Zpos p + Zpos p) by lia.
  rewrite E, !Z.pow_add_r by lia. reflexivity.
Qed.

Lemma iter_shr_1_m p : forall mrs, 0 <= shr_m mrs ->
  shr_m (SpecFloat.iter_pos shr_1 p mrs) = shr_m mrs / 2 ^ Zpos p.
Proof.
  induction p as [p IH|p IH|]; intros mrs Hm; simpl SpecFloat.iter_pos.
  - assert (H1 : 0 <= shr_m (shr_1 mrs)) by (rewrite shr_1_m by assumption; apply Z.div_pos; lia).
    assert (H2 : 0 <= shr_m (SpecFloat.iter_pos shr_1 p (shr_1 mrs))) by (rewrite IH by assumption; apply Z.div_pos; lia).
    rewrite IH, IH, shr_1_m by assumption.
    rewrite !Z.div_div by lia. rewrite pow2_xI. f_equal. ring.
  - assert (H2 : 0 <= shr_m (SpecFloat.iter_pos shr_1 p mrs)) by (rewrite IH by assumption; apply Z.div_pos; lia).
    rewrite IH, IH by assumption.
    rewrite !Z.div_div by lia. rewrite pow2_xO. reflexivity.
  - rewrite shr_1_m by assumption. reflexivity.
Qed.

Lemma shr_record_of_loc_m m l : shr_m (shr_record_of_loc m l) = m.
Proof. destruct l as [|[]]; reflexivity. Qed.

(** A right shift by [n >= 0] places divides the mantissa by [2 ^ n]. *)
Lemma shr_m_div m l e n :
  0 <= m -> 0 <= n ->
  shr_m (fst (shr (shr_record_of_loc m l) e n)) = m / 2 ^ n /\
  snd (shr (shr_record_of_loc m l) e n) = e + n.
Proof.
  intros Hm Hn. destruct n as [|p|p]; simpl; [| |lia].
  - rewrite shr_record_of_loc_m, Z.div_1_r. lia.
  - rewrite iter_shr_1_m by (rewrite shr_record_of_loc_m; lia).
    rewrite shr_record_of_loc_m. lia.
Qed.

Lemma round_nearest_even_range m l :
  m <= round_nearest_even m l <= m + 1.
Proof.
  unfold round_nearest_even. destruct l as [|[]]; try lia.
  destruct (Z.even m); lia.
Qed.

Lemma fexp_normal e : -1074 <= e - 53 -> fexp prec emax e = e - 53.
Proof. unfold fexp, emin, prec, emax. lia. Qed.

(** What [shr_fexp] does to a mantissa of [d >= 53] digits whose result stays
    above the subnormal range: the [d - 53] low digits are shifted out. *)
Lemma shr_fexp_normal m e l d mrs e' :
  0 < m -> Zdigits2 m = d -> 53 <= d -> -1074 <= e + d - 53 ->
  shr_fexp prec emax m e l = (mrs, e') ->
  shr_m mrs = m / 2 ^ (d - 53) /\ e' = e + d - 53.
Proof.
  intros Hm Hd Hd53 He H. unfold shr_fexp in H.
  rewrite Hd, fexp_normal in H by lia.
  replace (d + e - 53 - e) with (d - 53) in H by lia.
  destruct (shr_m_div m l e (d - 53)) as [H1 H2]; [lia|lia|].
  rewrite H in H1, H2. simpl in H1, H2. split; [assumption|lia].
Qed.

Lemma Zdigits2_pos_eq m d :
  0 < m -> 2 ^ (d - 1) <= m < 2 ^ d -> Zdigits2 m = d.
Proof.
  intros Hm Hb. destruct m as [|p|p]; try lia.
  simpl. now apply digits2_pos_unique.
Qed.

Lemma Zdigits2_bounds m :
  0 < m -> 2 ^ (Zdigits2 m - 1) <= m < 2 ^ Zdigits2 m.
Proof.
  intros Hm. destruct m as [|p|p]; try lia. apply digits2_pos_bounds.
Qed.

Lemma shift_to_53_digits m d :
  0 < m -> Zdigits2 m = d -> 53 <= d ->
  2 ^ 52 <= m / 2 ^ (d - 53) < 2 ^ 53.
Proof.
  intros Hm Hd Hd53. pose proof (Zdigits2_bounds m Hm) as [Hlo Hhi].
  rewrite Hd in Hlo, Hhi.
  assert (Hp : 0 < 2 ^ (d - 53)) by (apply Z.pow_pos_nonneg; lia).
  assert (E1 : 2 ^ (d - 1) = 2 ^ 52 * 2 ^ (d - 53)).
  { rewrite <- Z.pow_add_r by lia. f_equal. lia. }
  assert (E2 : 2 ^ d = 2 ^ 53 * 2 ^ (d - 53)).
  { rewrite <- Z.pow_add_r by lia. f_equal. lia. }
  split.
  - apply Z.div_le_lower_bound; [assumption|]. lia.
  - apply Z.div_lt_upper_bound; [assumption|]. lia.
Qed.

(** Rounding a positive value whose result is a normal number: the result is
    a normal number too, at most one unit in the last place above the
    truncated mantissa. *)
Lemma binary_round_aux_normal mx ex lx d :
  0 < mx -> Zdigits2 mx = d -> 53 <= d ->
  -1074 <= ex + d - 53 -> ex + d - 52 <= 971 ->
  exists m e,
    binary_round_aux prec emax false mx ex lx = S754_finite false m e /\
    Zpos (digits2_pos m) = 53 /\
    ex + d - 53 <= e <= ex + d - 52 /\
    Zpos m * 2 ^ (e - (ex + d - 53)) <= mx / 2 ^ (d - 53) + 1.
Proof.
  intros Hm Hd Hd53 Hlo Hhi. unfold binary_round_aux.
  destruct (shr_fexp prec emax mx ex lx) as [mrs1 e1] eqn:E1.
  destruct (shr_fexp_normal _ _ _ _ _ _ Hm Hd Hd53 Hlo E1) as [Hm1 He1].
  pose proof (shift_to_53_digits mx d Hm Hd Hd53) as Ht.
  set (t := mx / 2 ^ (d - 53)) in *.
  pose proof (round_nearest_even_range (shr_m mrs1) (loc_of_shr_record mrs1)) as Hr.
  set (m' := round_nearest_even (shr_m mrs1) (loc_of_shr_record mrs1)) in *.
  rewrite Hm1 in Hr.
  destruct (shr_fexp prec emax m' e1 loc_Exact) as [mrs2 e2] eqn:E2.
  assert (Hm' : 0 < m') by lia.
  destruct (Z_lt_le_dec m' (2 ^ 53)) as [Hlt|Hge].
  - assert (Hd' : Zdigits2 m' = 53).
    { apply Zdigits2_pos_eq; [lia|]. change (53 - 1) with 52. lia. }
    destruct (shr_fexp_normal m' e1 loc_Exact 53 mrs2 e2 Hm' Hd') as [Hm2 He2];
      [lia|lia|exact E2|].
    simpl in Hm2. rewrite Z.div_1_r in Hm2. rewrite Hm2.
    destruct m' as [|p|p]; try lia.
    replace (e2 <=? emax - prec) with true by (symmetry; apply Z.leb_le; unfold emax, prec; lia).
    exists p, e2. split; [reflexivity|]. split; [exact Hd'|]. split; [lia|].
    replace (e2 - (ex + d - 53)) with 0 by lia. simpl. lia.
  - assert (Em' : m' = 2 ^ 53) by lia.
    assert (Hd' : Zdigits2 m' = 54) by (rewrite Em'; reflexivity).
    destruct (shr_fexp_normal m' e1 loc_Exact 54 mrs2 e2 Hm' Hd') as [Hm2 He2];
      [lia|lia|exact E2|].
    rewrite Em' in Hm2. change (2 ^ 53 / 2 ^ (54 - 53)) with (2 ^ 52) in Hm2.
    rewrite Hm2. change (2 ^ 52) with (Zpos (2 ^ 52)%positive).
    replace (e2 <=? emax - prec) with true by (symmetry; apply Z.leb_le; unfold emax, prec; lia).
    exists (2 ^ 52)%positive, e2. split; [reflexivity|]. split; [reflexivity|]. split; [lia|].
    replace (e2 - (ex + d - 53)) with 1 by lia.
    change (Zpos (2 ^ 52) * 2 ^ 1) with (2 ^ 53). lia.
Qed.

Local Open Scope Q_scope.

Lemma Qpow2_pos e : 0 < 2 ^ e.
Proof. apply Qpower_0_lt. reflexivity. Qed.

Lemma Qpow2_add a b : 2 ^ (a + b) == 2 ^ a * 2 ^ b.
Proof. apply Qpower_plus. discriminate. Qed.

Lemma Qpow2_inject n : (0 <= n)%Z -> inject_Z (2 ^ n) == 2 ^ n.
Proof. intros Hn. now rewrite Zpower_Qpower. Qed.

Lemma round_value_bound mx ex d m e :
  (0 < mx)%Z -> (53 <= d)%Z ->
  (2 ^ 52 <= mx / 2 ^ (d - 53))%Z ->
  (ex + d - 53 <= e)%Z ->
  (Zpos m * 2 ^ (e - (ex + d - 53)) <= mx / 2 ^ (d - 53) + 1)%Z ->
  inject_Z (Zpos m) * 2 ^ e <= inject_Z mx * 2 ^ ex * ulp_bound.
Proof.
  intros Hmx Hd Ht He Hm.
  set (t := (mx / 2 ^ (d - 53))%Z) in *.
  assert (Hdiv : (t * 2 ^ (d - 53) <= mx)%Z).
  { unfold t. rewrite Z.mul_comm. apply Z.mul_div_le. apply Z.pow_pos_nonneg; lia. }
  assert (E1 : inject_Z (Zpos m) * 2 ^ e ==
               inject_Z (Zpos m * 2 ^ (e - (ex + d - 53))) * 2 ^ (ex + d - 53)).
  { rewrite inject_Z_mult, Qpow2_inject by lia.
    rewrite <- Qmult_assoc, <- Qpow2_add.
    replace (e - (ex + d - 53) + (ex + d - 53))%Z with e by lia. reflexivity. }
  assert (E2 : inject_Z t * 2 ^ (ex + d - 53) == inject_Z (t * 2 ^ (d - 53)) * 2 ^ ex).
  { rewrite inject_Z_mult, Qpow2_inject by lia.
    rewrite <- Qmult_assoc, <- Qpow2_add.
    replace (d - 53 + ex)%Z with (ex + d - 53)%Z by lia. reflexivity. }
  pose proof (Qpow2_pos (ex + d - 53)) as Hp1.
  pose proof (Qpow2_pos ex) as Hp2.
  assert (H1 : inject_Z (Zpos m * 2 ^ (e - (ex + d - 53))) <= inject_Z t + 1).
  { change 1 with (inject_Z 1). rewrite <- inject_Z_plus. now rewrite <- Zle_Qle. }
  assert (H2 : inject_Z t + 1 <= inject_Z t * ulp_bound).
  { assert (H : inject_Z (2 ^ 52) <= inject_Z t) by now rewrite <- Zle_Qle.
    unfold ulp_bound. change (inject_Z (2 ^ 52)) with (4503599627370496 # 1) in H. lra. }
  assert (H3 : inject_Z (t * 2 ^ (d - 53)) <= inject_Z mx) by now rewrite <- Zle_Qle.
  rewrite E1.
  apply Qle_trans with ((inject_Z t * ulp_bound) * 2 ^ (ex + d - 53)).
  - apply Qmult_le_compat_r; [|lra]. lra.
  - assert (E3 : inject_Z t * ulp_bound * 2 ^ (ex + d - 53) ==
                 (inject_Z t * 2 ^ (ex + d - 53)) * ulp_bound) by ring.
    rewrite E3, E2. apply Qmult_le_compat_r; [|unfold ulp_bound; lra].
    apply Qmult_le_compat_r; [assumption|lra].
Qed.

Local Close Scope Q_scope.

(** A mantissa of exactly 53 digits that needs no rounding is kept. *)
Lemma binary_round_aux_exact m e :
  Zpos (digits2_pos m) = 53 -> -1074 <= e <= 971 ->
  binary_round_aux prec emax false (Zpos m) e loc_Exact = S754_finite false m e.
Proof.
  intros Hd He. unfold binary_round_aux, shr_fexp.
  cbn [Zdigits2]. rewrite Hd, fexp_normal by lia.
  replace (53 + e - 53 - e) with 0 by lia. cbn.
  rewrite Hd. unfold fexp, emin, prec, emax.
  replace (Z.max (53 + e - 53) (3 - 1024 - 53) - e) with 0 by lia. cbn.
  replace (e <=? 1024 - 53) with true by (symmetry; apply Z.leb_le; lia). reflexivity.
Qed.

Lemma Pos_iter_xO_pow p k : Zpos (Pos.iter xO p k) = Zpos p * 2 ^ Zpos k.
Proof.
  revert p. induction k as [|k IH] using Pos.peano_ind; intros p.
  - simpl. lia.
  - rewrite Pos.iter_succ, Pos2Z.inj_xO, IH, Pos2Z.inj_succ, Z.pow_succ_r by lia. ring.
Qed.

Lemma Zdigits2_mul_pow2 p k :
  Zpos (digits2_pos (Pos.iter xO p k)) = Zpos (digits2_pos p) + Zpos k.
Proof.
  revert p. induction k as [|k IH] using Pos.peano_ind; intros p.
  - simpl. lia.
  - rewrite Pos.iter_succ. simpl digits2_pos. rewrite Pos2Z.inj_succ, IH. lia.
Qed.

Local Open Scope Q_scope.

Lemma num_normal z :
  (1 <= z < 2 ^ 53)%Z ->
  exists m e,
    num z = S754_finite false m e /\
    Zpos (digits2_pos m) = 53%Z /\
    e = (Zdigits2 z - 53)%Z /\
    inject_Z (Zpos m) * 2 ^ e == inject_Z z.
Proof.
  intros Hz. destruct z as [|p|p]; try lia.
  unfold num, binary_normalize, binary_round.
  pose proof (digits2_pos_bounds p) as Hb.
  set (d := Zpos (digits2_pos p)) in *.
  assert (Hd : (1 <= d <= 53)%Z).
  { split; [lia|]. destruct (Z_lt_le_dec 53 d); [|lia].
    assert (2 ^ 53 <= 2 ^ (d - 1))%Z by (apply Z.pow_le_mono_r; lia). lia. }
  rewrite Z.add_0_r, fexp_normal by lia.
  unfold shl_align. rewrite Z.sub_0_r.
  destruct (d - 53)%Z as [|k|k] eqn:Ek; try lia.
  - rewrite binary_round_aux_exact by (fold d; lia).
    exists p, 0%Z. repeat split; try (cbn [Zdigits2]; fold d; lia).
    cbn. ring.
  - rewrite binary_round_aux_exact
      by (rewrite ?Zdigits2_mul_pow2; fold d; lia).
    exists (Pos.iter xO p k), (Zneg k). repeat split.
    + rewrite Zdigits2_mul_pow2. fold d. lia.
    + cbn [Zdigits2]. fold d. lia.
    + rewrite Pos_iter_xO_pow, inject_Z_mult, Qpow2_inject by lia.
      rewrite <- Qmult_assoc, <- Qpow2_add.
      replace (Zpos k + Zneg k)%Z with 0%Z by lia. cbn. ring.
Qed.

Lemma fmul_normal mx ex my ey :
  Zpos (digits2_pos mx) = 53%Z -> Zpos (digits2_pos my) = 53%Z ->
  (-1074 <= ex + ey + 52)%Z -> (ex + ey + 54 <= 971)%Z ->
  exists m e,
    fmul (S754_finite false mx ex) (S754_finite false my ey) = S754_finite false m e /\
    Zpos (digits2_pos m) = 53%Z /\
    (ex + ey + 52 <= e <= ex + ey + 54)%Z /\
    inject_Z (Zpos m) * 2 ^ e <=
      (inject_Z (Zpos mx) * 2 ^ ex) * (inject_Z (Zpos my) * 2 ^ ey) * ulp_bound.
Proof.
  intros Hdx Hdy Hlo Hhi. unfold fmul, SFmul. cbn [xorb].
  pose proof (digits2_pos_bounds mx) as Hbx. rewrite Hdx in Hbx.
  pose proof (digits2_pos_bounds my) as Hby. rewrite Hdy in Hby.
  change (53 - 1)%Z with 52%Z in *.
  assert (Hprod : (2 ^ 104 <= Zpos (mx * my) < 2 ^ 106)%Z).
  { rewrite Pos2Z.inj_mul. change (2 ^ 104)%Z with (2 ^ 52 * 2 ^ 52)%Z.
    change (2 ^ 106)%Z with (2 ^ 53 * 2 ^ 53)%Z. nia. }
  set (mm := Zpos (mx * my)) in *.
  assert (Hmm : (0 < mm)%Z) by (unfold mm; lia).
  pose proof (Zdigits2_bounds mm Hmm) as Hd.
  set (d := Zdigits2 mm) in *.
  assert (Hdr : (105 <= d <= 106)%Z).
  { split.
    - destruct (Z_lt_le_dec d 105); [|lia].
      assert (2 ^ d <= 2 ^ 104)%Z by (apply Z.pow_le_mono_r; lia). lia.
    - destruct (Z_lt_le_dec 106 d); [|lia].
      assert (2 ^ 106 <= 2 ^ (d - 1))%Z by (apply Z.pow_le_mono_r; lia). lia. }
  destruct (binary_round_aux_normal mm (ex + ey) loc_Exact d)
    as (m & e & Hr & Hdm & He & Hv); try lia; try reflexivity.
  exists m, e. split; [exact Hr|]. split; [exact Hdm|]. split; [lia|].
  pose proof (shift_to_53_digits mm d Hmm eq_refl ltac:(lia)) as [Ht _].
  pose proof (round_value_bound mm (ex + ey) d m e Hmm ltac:(lia) Ht ltac:(lia) Hv) as H.
  eapply Qle_trans; [exact H|]. apply Qle_lteq. right.
  unfold mm. rewrite Pos2Z.inj_mul, inject_Z_mult, Qpow2_add. ring.
Qed.

Lemma SFdiv_core_binary_normal mx ex my ey :
  Zpos (digits2_pos mx) = 53%Z -> Zpos (digits2_pos my) = 53%Z ->
  (-1074 <= ex - ey - 53)%Z ->
  exists l,
    SFdiv_core_binary prec emax (Zpos mx) ex (Zpos my) ey =
    ((Zpos mx * 2 ^ 53) / Zpos my, ex - ey - 53, l)%Z.
Proof.
  intros Hdx Hdy Hlo. unfold SFdiv_core_binary. cbn [Zdigits2].
  rewrite Hdx, Hdy.
  replace (fexp prec emax (53 + ex - (53 + ey))) with (ex - ey - 53)%Z
    by (unfold fexp, emin, prec, emax; lia).
  replace (Z.min (ex - ey - 53) (ex - ey)) with (ex - ey - 53)%Z by lia.
  replace (ex - ey - (ex - ey - 53))%Z with 53%Z by lia.
  rewrite Z.shiftl_mul_pow2 by lia.
  unfold Z.div.
  destruct (Z.div_eucl (Zpos mx * 2 ^ 53) (Zpos my)) as [q r].
  eexists. reflexivity.
Qed.

Lemma fdiv_normal mx ex my ey :
  Zpos (digits2_pos mx) = 53%Z -> Zpos (digits2_pos my) = 53%Z ->
  (-1074 <= ex - ey - 53)%Z -> (ex - ey - 51 <= 971)%Z ->
  exists m e,
    fdiv (S754_finite false mx ex) (S754_finite false my ey) = S754_finite false m e /\
    Zpos (digits2_pos m) = 53%Z /\
    (ex - ey - 53 <= e <= ex - ey - 51)%Z /\
    (inject_Z (Zpos m) * 2 ^ e) * (inject_Z (Zpos my) * 2 ^ ey) <=
      (inject_Z (Zpos mx) * 2 ^ ex) * ulp_bound.
Proof.
  intros Hdx Hdy Hlo Hhi. unfold fdiv, SFdiv. cbn [xorb].
  destruct (SFdiv_core_binary_normal mx ex my ey Hdx Hdy Hlo) as [l ->].
  pose proof (digits2_pos_bounds mx) as Hbx. rewrite Hdx in Hbx.
  pose proof (digits2_pos_bounds my) as Hby. rewrite Hdy in Hby.
  change (53 - 1)%Z with 52%Z in *.
  set (q := (Zpos mx * 2 ^ 53 / Zpos my)%Z).
  assert (Hq : (2 ^ 52 <= q < 2 ^ 54)%Z).
  { unfold q. split.
    - apply Z.div_le_lower_bound; [lia|].
      change (2 ^ 53)%Z with (2 * 2 ^ 52)%Z in *. nia.
    - apply Z.div_lt_upper_bound; [lia|].
      change (2 ^ 54)%Z with (2 * 2 ^ 53)%Z. change (2 ^ 53)%Z with (2 * 2 ^ 52)%Z in *. nia. }
  assert (Hq0 : (0 < q)%Z) by lia.
  assert (Hqm : (q * Zpos my <= Zpos mx * 2 ^ 53)%Z).
  { unfold q. rewrite Z.mul_comm. apply Z.mul_div_le. lia. }
  pose proof (Zdigits2_bounds q Hq0) as Hd.
  set (d := Zdigits2 q) in *.
  assert (Hdr : (53 <= d <= 54)%Z).
  { split.
    - destruct (Z_lt_le_dec d 53); [|lia].
      assert (2 ^ d <= 2 ^ 52)%Z by (apply Z.pow_le_mono_r; lia). lia.
    - destruct (Z_lt_le_dec 54 d); [|lia].
      assert (2 ^ 54 <= 2 ^ (d - 1))%Z by (apply Z.pow_le_mono_r; lia). lia. }
  destruct (binary_round_aux_normal q (ex - ey - 53) l d)
    as (m & e & Hr & Hdm & He & Hv); try lia; try reflexivity.
  exists m, e. split; [exact Hr|]. split; [exact Hdm|]. split; [lia|].
  pose proof (shift_to_53_digits q d Hq0 eq_refl ltac:(lia)) as [Ht _].
  pose proof (round_value_bound q (ex - ey - 53) d m e Hq0 ltac:(lia) Ht ltac:(lia) Hv) as H.
  pose proof (Qpow2_pos ey) as Hpy. pose proof (Qpow2_pos ex) as Hpx.
  assert (Hy : 0 <= inject_Z (Zpos my) * 2 ^ ey).
  { apply Qmult_le_0_compat; [|lra]. change 0 with (inject_Z 0). rewrite <- Zle_Qle. lia. }
  apply Qle_trans with
    ((inject_Z q * 2 ^ (ex - ey - 53) * ulp_bound) * (inject_Z (Zpos my) * 2 ^ ey)).
  { apply Qmult_le_compat_r; assumption. }
  assert (E : inject_Z q * 2 ^ (ex - ey - 53) * ulp_bound * (inject_Z (Zpos my) * 2 ^ ey) ==
              inject_Z (q * Zpos my) * (2 ^ (ex - ey - 53) * 2 ^ ey) * ulp_bound).
  { rewrite inject_Z_mult. ring. }
  rewrite E, <- Qpow2_add.
  assert (E' : inject_Z (Zpos mx) * 2 ^ ex ==
               inject_Z (Zpos mx * 2 ^ 53) * 2 ^ (ex - ey - 53 + ey)).
  { rewrite inject_Z_mult, Qpow2_inject by lia.
    rewrite <- Qmult_assoc, <- Qpow2_add.
    replace (53 + (ex - ey - 53 + ey))%Z with ex by lia. reflexivity. }
  rewrite E'.
  pose proof (Qpow2_pos (ex - ey - 53 + ey)) as Hp.
  apply Qmult_le_compat_r; [|unfold ulp_bound; lra].
  apply Qmult_le_compat_r; [|lra]. now rewrite <- Zle_Qle.
Qed.

Local Close Scope Q_scope.

Lemma num_100 : num 100 = S754_finite false 7036874417766400 (-46).
Proof. reflexivity. Qed.

Lemma Zdigits2_mono a b : 0 < a <= b -> Zdigits2 a <= Zdigits2 b.
Proof.
  intros [Ha Hab].
  pose proof (Zdigits2_bounds a Ha) as [Hlo _].
  pose proof (Zdigits2_bounds b ltac:(lia)) as [_ Hhi].
  destruct (Z_lt_le_dec (Zdigits2 b) (Zdigits2 a)); [|assumption].
  assert (2 ^ Zdigits2 b <= 2 ^ (Zdigits2 a - 1)) by (apply Z.pow_le_mono_r; lia). lia.
Qed.

Lemma Zdigits2_range z : 1 <= z < 2 ^ 53 -> 1 <= Zdigits2 z <= 53.
Proof.
  intros Hz. pose proof (Zdigits2_bounds z ltac:(lia)) as [Hlo Hhi].
  destruct z as [|p|p]; try lia. cbn [Zdigits2] in *. split; [lia|].
  destruct (Z_lt_le_dec 53 (Zpos (digits2_pos p))); [|assumption].
  assert (2 ^ 53 <= 2 ^ (Zpos (digits2_pos p) - 1)) by (apply Z.pow_le_mono_r; lia). lia.
Qed.

Local Open Scope Q_scope.

(** [Math.round] of a positive normal number below 10000.5. *)
Lemma Math_round_small m e :
  (e < 0)%Z ->
  inject_Z (Zpos m) * 2 ^ e < 20001 # 2 ->
  exists k, (0 <= k <= 10000)%Z /\ Math_round (S754_finite false m e) = num k.
Proof.
  intros He Hv. destruct e as [|p|p]; try lia.
  exists (round_half_up false m (Zneg p)). split.
  - unfold round_half_up. cbn [cond_Zopp].
    assert (Hp : (0 < 2 ^ Zpos p)%Z) by (apply Z.pow_pos_nonneg; lia).
    assert (Hs : (2 ^ (Zpos p + 1) = 2 * 2 ^ Zpos p)%Z).
    { rewrite Z.pow_add_r by lia. change (2 ^ 1)%Z with 2%Z. lia. }
    assert (Hz : (2 * Zpos m < 20001 * 2 ^ Zpos p)%Z).
    { rewrite Zlt_Qlt, !inject_Z_mult, Qpow2_inject by lia.
      pose proof (Qpow2_pos (Zpos p)) as Hq.
      assert (E : inject_Z (Zpos m) == inject_Z (Zpos m) * 2 ^ Zneg p * 2 ^ Zpos p).
      { rewrite <- Qmult_assoc, <- Qpow2_add.
        replace (Zneg p + Zpos p)%Z with 0%Z by lia. cbn. ring. }
      rewrite E.
      assert (H : inject_Z (Zpos m) * 2 ^ Zneg p * 2 ^ Zpos p < (20001 # 2) * 2 ^ Zpos p).
      { apply Qmult_lt_compat_r; assumption. }
      change (inject_Z 2) with 2. change (inject_Z 20001) with 20001. lra. }
    split.
    + apply Z.div_pos; lia.
    + apply Z.lt_succ_r, Z.div_lt_upper_bound; lia.
  - unfold Math_round. cbv zeta.
    destruct (round_half_up false m (Zneg p) =? 0)%Z eqn:E; [|reflexivity].
    apply Z.eqb_eq in E. rewrite E. reflexivity.
Qed.

(** The value [calculateSimilarity] returns from its last line is one of the
    10001 doubles nearest to [k / 100], [k] from 0 to 10000. *)
Lemma similarity_of_hundredths maxLength distance :
  (1 <= maxLength < 2 ^ 53)%Z -> (0 <= distance <= maxLength)%Z ->
  exists k, (0 <= k <= 10000)%Z /\
            similarity_of maxLength distance = fdiv (num k) (num 100).
Proof.
  intros HM Hd. unfold similarity_of.
  destruct (num_normal maxLength HM) as (mM & eM & EM & HdM & HeM & HvM).
  rewrite EM.
  destruct (Z.eq_dec (maxLength - distance)%Z 0%Z) as [E0|Hne].
  - exists 0%Z. split; [lia|]. rewrite E0. reflexivity.
  - assert (HX : (1 <= maxLength - distance < 2 ^ 53)%Z) by lia.
    destruct (num_normal _ HX) as (mX & eX & EX & HdX & HeX & HvX).
    rewrite EX.
    pose proof (Zdigits2_mono (maxLength - distance) maxLength ltac:(lia)) as Hmono.
    pose proof (Zdigits2_range _ HX) as HrX.
    pose proof (Zdigits2_range _ HM) as HrM.
    destruct (fdiv_normal mX eX mM eM HdX HdM ltac:(lia) ltac:(lia))
      as (ma & ea & Ea & Hda & Hea & Hva).
    rewrite Ea, num_100.
    destruct (fmul_normal ma ea 7036874417766400 (-46) Hda eq_refl ltac:(lia) ltac:(lia))
      as (mb & eb & Eb & Hdb & Heb & Hvb).
    rewrite Eb.
    destruct (fmul_normal mb eb 7036874417766400 (-46) Hdb eq_refl ltac:(lia) ltac:(lia))
      as (mc & ec & Ec & Hdc & Hec & Hvc).
    rewrite Ec.
    destruct (Math_round_small mc ec) as (k & Hk & Ek); [lia| |].
    + rewrite HvM, HvX in Hva.
      set (Va := inject_Z (Zpos ma) * 2 ^ ea) in *.
      set (Vb := inject_Z (Zpos mb) * 2 ^ eb) in *.
      set (Vc := inject_Z (Zpos mc) * 2 ^ ec) in *.
      change (inject_Z 7036874417766400 * 2 ^ (-46)) with (7036874417766400 # 70368744177664) in *.
      assert (HXM : inject_Z (maxLength - distance) <= inject_Z maxLength)
        by (rewrite <- Zle_Qle; lia).
      assert (HM0 : 0 < inject_Z maxLength)
        by (change 0 with (inject_Z 0); rewrite <- Zlt_Qlt; lia).
      assert (Ha : Va <= ulp_bound).
      { apply (Qmult_le_r _ _ (inject_Z maxLength)); [assumption|].
        eapply Qle_trans; [exact Hva|].
        rewrite (Qmult_comm ulp_bound).
        apply Qmult_le_compat_r; [assumption|unfold ulp_bound; lra]. }
      unfold ulp_bound in *. lra.
    + exists k. split; [assumption|]. now rewrite Ek.
Qed.

Local Close Scope Q_scope.

Lemma hundredths_are_scores :
  forallb (fun k => is_score (fdiv (num (Z.of_nat k)) (num 100))) (seq 0 (Z.to_nat 10001)) = true.
Proof. vm_compute. reflexivity. Qed.

(** ** Comparison and subtraction *)

Lemma SFcompare_antisym x y :
  SFcompare y x = option_map CompOpp (SFcompare x y).
Proof.
  destruct x as [sx|sx| |sx mx ex], y as [sy|sy| |sy my ey]; simpl;
    try reflexivity; try (destruct sx; reflexivity); try (destruct sy; reflexivity);
    try (destruct sx, sy; reflexivity).
  destruct sx, sy; try reflexivity; simpl; f_equal.
  - rewrite (Z.compare_antisym ex ey).
    destruct (ex ?= ey); simpl; try reflexivity.
    f_equal. symmetry. exact (Pos.compare_cont_antisym mx my Eq).
  - rewrite (Z.compare_antisym ex ey).
    destruct (ex ?= ey); simpl; try reflexivity.
    symmetry. exact (Pos.compare_cont_antisym mx my Eq).
Qed.

Lemma shr_fexp_positive m e l mrs e' :
  0 < m -> -1074 <= e ->
  shr_fexp prec emax m e l = (mrs, e') ->
  0 < shr_m mrs /\ -1074 <= e'.
Proof.
  intros Hm He H. unfold shr_fexp in H.
  set (d := Zdigits2 m) in *.
  set (n := fexp prec emax (d + e) - e) in *.
  destruct (Z_le_gt_dec n 0) as [Hn|Hn].
  - assert (E : shr (shr_record_of_loc m l) e n = (shr_record_of_loc m l, e))
      by (unfold shr; destruct n; try reflexivity; lia).
    rewrite E in H. injection H as <- <-. rewrite shr_record_of_loc_m. lia.
  - assert (En : n = d - 53) by (unfold n, fexp, emin, prec, emax in *; lia).
    destruct (shr_m_div m l e n) as [H1 H2]; [lia|lia|].
    rewrite H in H1, H2. simpl in H1, H2.
    pose proof (shift_to_53_digits m d Hm eq_refl ltac:(lia)) as Ht.
    rewrite En in H1. split; [|lia].
    rewrite H1. change (2 ^ 52) with 4503599627370496 in Ht. lia.
Qed.

(** Rounding a number that is not zero keeps its sign: the result is neither a
    zero nor NaN. *)
Lemma binary_round_aux_sign s m e l :
  0 < m -> -1074 <= e ->
  exists f, binary_round_aux prec emax s m e l = f /\
            match f with
            | S754_finite s' _ _ | S754_infinity s' => s' = s
            | _ => False
            end.
Proof.
  intros Hm He. unfold binary_round_aux.
  destruct (shr_fexp prec emax m e l) as [mrs1 e1] eqn:E1.
  destruct (shr_fexp_positive _ _ _ _ _ Hm He E1) as [Hm1 He1].
  pose proof (round_nearest_even_range (shr_m mrs1) (loc_of_shr_record mrs1)) as Hr.
  destruct (shr_fexp prec emax _ e1 loc_Exact) as [mrs2 e2] eqn:E2.
  assert (Hm' : 0 < round_nearest_even (shr_m mrs1) (loc_of_shr_record mrs1)) by lia.
  destruct (shr_fexp_positive _ _ _ _ _ Hm' He1 E2) as [Hm2 He2].
  destruct (shr_m mrs2) as [|p|p]; try lia.
  eexists. split; [reflexivity|].
  destruct (e2 <=? emax - prec); reflexivity.
Qed.

Lemma binary_round_sign s m e :
  -1074 <= e ->
  match binary_round prec emax s m e with
  | S754_finite s' _ _ | S754_infinity s' => s' = s
  | _ => False
  end.
Proof.
  intros He. unfold binary_round.
  destruct (shl_align m e (fexp prec emax (Zpos (digits2_pos m) + e))) as [mz ez] eqn:E.
  assert (Hez : -1074 <= ez).
  { unfold shl_align in E.
    destruct (fexp prec emax (Zpos (digits2_pos m) + e) - e) eqn:E'; injection E as <- <-;
      try lia. unfold fexp, emin, prec, emax in *. lia. }
  destruct (binary_round_aux_sign s (Zpos mz) ez loc_Exact) as (f & -> & Hf); [lia|lia|].
  exact Hf.
Qed.

Lemma normal_mantissa_bounds m : normal_mantissa m -> 2 ^ 52 <= Zpos m < 2 ^ 53.
Proof.
  intros H. pose proof (digits2_pos_bounds m) as Hb. rewrite H in Hb. exact Hb.
Qed.

Lemma shl_align_fst m e e' :
  e' <= e -> Zpos (fst (shl_align m e e')) = Zpos m * 2 ^ (e - e').
Proof.
  intros H. unfold shl_align.
  destruct (e' - e) as [|p|p] eqn:E; try lia.
  - replace (e - e') with 0 by lia. simpl. lia.
  - simpl. rewrite Pos_iter_xO_pow. f_equal. f_equal. lia.
Qed.

(** [y - x > 0] exactly when [x < y], for two positive normal numbers. *)
Lemma fsub_positive_finite mx ex my ey :
  normal_mantissa mx -> normal_mantissa my -> -1074 <= ex -> -1074 <= ey ->
  fpositive (fsub (S754_finite false my ey) (S754_finite false mx ex)) =
  SFltb (S754_finite false mx ex) (S754_finite false my ey).
Proof.
  intros Hx Hy Hex Hey.
  apply normal_mantissa_bounds in Hx, Hy.
  unfold fsub, SFsub. cbn [cond_Zopp].
  rewrite !shl_align_fst by lia.
  set (ez := Z.min ey ex).
  set (D := Zpos my * 2 ^ (ey - ez) - Zpos mx * 2 ^ (ex - ez)).
  unfold SFltb, SFcompare.
  assert (Hpow : forall k, 0 < k -> 2 <= 2 ^ k).
  { intros k Hk. change 2 with (2 ^ 1) at 1. apply Z.pow_le_mono_r; lia. }
  assert (Hsign : forall p, fpositive (binary_round prec emax false p ez) = true /\
                            fpositive (binary_round prec emax true p ez) = false).
  { intros p. split.
    - pose proof (binary_round_sign false p ez ltac:(lia)) as H.
      destruct (binary_round prec emax false p ez) as [| | |s' ? ?]; try contradiction;
        subst; reflexivity.
    - pose proof (binary_round_sign true p ez ltac:(lia)) as H.
      destruct (binary_round prec emax true p ez) as [| | |s' ? ?]; try contradiction;
        subst; reflexivity. }
  destruct (Z.compare_spec ex ey) as [Heq|Hlt|Hgt].
  - subst ey. assert (ez = ex) as Ez by lia.
    assert (ED : D = Zpos my - Zpos mx).
    { unfold D. rewrite Ez, Z.sub_diag. simpl. lia. }
    change (Pos.compare_cont Eq mx my) with (Pos.compare mx my).
    destruct (Pos.compare_spec mx my) as [Hm|Hm|Hm].
    + subst my. replace D with 0 by lia. reflexivity.
    + destruct D as [|p|p] eqn:EDp; try lia. apply Hsign.
    + destruct D as [|p|p] eqn:EDp; try lia. apply Hsign.
  - assert (ez = ex) as Ez by lia.
    assert (HD : 0 < D).
    { unfold D. rewrite Ez, Z.sub_diag. pose proof (Hpow (ey - ex) ltac:(lia)).
      change (2 ^ 53) with (2 * 2 ^ 52) in *. change (2 ^ 0) with 1. nia. }
    destruct D as [|p|p] eqn:EDp; try lia. apply Hsign.
  - assert (ez = ey) as Ez by lia.
    assert (HD : D < 0).
    { unfold D. rewrite Ez, Z.sub_diag. pose proof (Hpow (ex - ey) ltac:(lia)).
      change (2 ^ 53) with (2 * 2 ^ 52) in *. change (2 ^ 0) with 1. nia. }
    destruct D as [|p|p] eqn:EDp; try lia. apply Hsign.
Qed.

Lemma SFleb_finite_iff m1 e1 m2 e2 :
  SFleb (S754_finite false m1 e1) (S754_finite false m2 e2) = true <->
  e1 < e2 \/ (e1 = e2 /\ (m1 <= m2)%positive).
Proof.
  unfold SFleb, SFcompare.
  destruct (Z.compare_spec e1 e2) as [He|He|He].
  - change (Pos.compare_cont Eq m1 m2) with (Pos.compare m1 m2).
    destruct (Pos.compare_spec m1 m2) as [Hm|Hm|Hm]; split; intros H;
      try reflexivity; try discriminate; try lia.
  - split; [lia|reflexivity].
  - split; [discriminate|lia].
Qed.

Lemma is_score_cases f :
  is_score f = true ->
  f = S754_zero false \/
  exists m e, f = S754_finite false m e /\ normal_mantissa m /\ -1074 <= e <= 971.
Proof.
  destruct f as [[]|[]| |[] m e]; cbn [is_score]; try discriminate; intros H.
  - now left.
  - right. exists m, e. unfold normal_mantissa.
    rewrite !andb_true_iff, Z.eqb_eq, !Z.leb_le in H. intuition.
Qed.

Lemma SFltb_SFleb x y : SFltb x y = true -> SFleb x y = true.
Proof. unfold SFltb, SFleb. destruct (SFcompare x y) as [[]|]; congruence. Qed.

Lemma score_not_lt_ge x y :
  is_score x = true -> is_score y = true ->
  SFltb x y = false -> SFleb y x = true.
Proof.
  intros Hx Hy. unfold SFltb, SFleb. rewrite (SFcompare_antisym x y).
  destruct (is_score_cases _ Hx) as [->|(mx & ex & -> & _)];
    destruct (is_score_cases _ Hy) as [->|(my & ey & -> & _)];
    cbn -[Z.compare Pos.compare_cont]; try congruence.
  destruct (ex ?= ey); cbn -[Pos.compare_cont]; try congruence.
  destruct (Pos.compare_cont Eq mx my); cbn; congruence.
Qed.

Lemma score_le_trans x y z :
  is_score x = true -> is_score y = true -> is_score z = true ->
  SFleb x y = true -> SFleb y z = true -> SFleb x z = true.
Proof.
  intros Hx Hy Hz.
  destruct (is_score_cases _ Hx) as [->|(mx & ex & -> & _)];
    destruct (is_score_cases _ Hy) as [->|(my & ey & -> & _)];
    destruct (is_score_cases _ Hz) as [->|(mz & ez & -> & _)];
    intros H1 H2; try reflexivity; try discriminate H1; try discriminate H2.
  rewrite SFleb_finite_iff in *. lia.
Qed.

(** The sign of [y - x] decides [x < y] on the values a similarity can be. *)
Lemma score_fsub_positive x y :
  is_score x = true -> is_score y = true ->
  fpositive (fsub y x) = SFltb x y.
Proof.
  intros Hx Hy.
  destruct (is_score_cases _ Hx) as [->|(mx & ex & -> & Hmx & Hex)];
    destruct (is_score_cases _ Hy) as [->|(my & ey & -> & Hmy & Hey)];
    try reflexivity.
  apply fsub_positive_finite; (assumption || lia).
Qed.

Lemma hundredth_is_score k :
  0 <= k <= 10000 -> is_score (fdiv (num k) (num 100)) = true.
Proof.
  intros Hk. pose proof hundredths_are_scores as H.
  rewrite forallb_forall in H. specialize (H (Z.to_nat k)).
  rewrite Z2Nat.id in H by lia. apply H, in_seq. lia.
Qed.

(** ** The sort *)

Lemma sort_insert_Permutation a l : Permutation (sort_insert a l) (a :: l).
Proof.
  induction l as [|b r IH]; cbn [sort_insert]; [reflexivity|].
  destruct (fpositive (comparefn a b)); [|reflexivity].
  rewrite IH. apply perm_swap.
Qed.

Lemma sort_Permutation l : Permutation (sort l) l.
Proof.
  induction l as [|a r IH]; [reflexivity|]. cbn [sort fold_right].
  rewrite sort_insert_Permutation. now constructor.
Qed.

Lemma sort_insert_sorted a l :
  is_score (similarity a) = true ->
  Forall (fun b => is_score (similarity b) = true) l ->
  StronglySorted descending l ->
  StronglySorted descending (sort_insert a l).
Proof.
  intros Ha Hl Hs. induction Hs as [|b r Hr IH Hb]; cbn [sort_insert].
  - repeat constructor.
  - inversion Hl as [|? ? Hsb Hsr]; subst.
    unfold comparefn. rewrite score_fsub_positive by assumption.
    destruct (SFltb (similarity a) (similarity b)) eqn:E.
    + constructor; [now apply IH|].
      rewrite sort_insert_Permutation. constructor; [|assumption].
      unfold descending, fge. now apply SFltb_SFleb.
    + assert (Hab : descending a b) by (now apply score_not_lt_ge).
      constructor; [now constructor|]. constructor; [assumption|].
      rewrite Forall_forall in Hb, Hsr |- *. intros c Hc.
      unfold descending, fge in *.
      apply (score_le_trans _ (similarity b)); auto.
Qed.

Lemma sort_sorted l :
  Forall (fun b => is_score (similarity b) = true) l ->
  StronglySorted descending (sort l).
Proof.
  induction 1 as [|a r Ha Hr IH]; cbn [sort fold_right]; [constructor|].
  apply sort_insert_sorted; [assumption| |assumption].
  fold (sort r). now rewrite sort_Permutation.
Qed.

(** ** The similarity engine *)

Lemma is_score_range f :
  is_score f = true -> fge f (num 0) = true /\ fge (num 100) f = true.
Proof.
  intros H. destruct f as [[]|[]| |[] m e]; try discriminate H; split; try reflexivity.
  cbn [is_score] in H. rewrite !andb_true_iff in H. apply H.
Qed.

Lemma length_normalize toLowerCase (t : jsstring) :
  (length (normalize toLowerCase t) <= length (toLowerCase t))%nat.
Proof.
  unfold normalize, replace_white_space_runs, trim.
  pose proof (length_replace_runs_from (trim_end (trim_start (toLowerCase t))) false).
  pose proof (length_trim_end (trim_start (toLowerCase t))).
  pose proof (length_trim_start (toLowerCase t)). lia.
Qed.

Lemma calculateSimilarity_falsy (toLowerCase : jsstring -> jsstring) text1 text2 :
  falsy text1 = true \/ falsy text2 = true ->
  calculateSimilarity toLowerCase text1 text2 = num 0.
Proof.
  unfold calculateSimilarity.
  destruct text1 as [t1|], text2 as [t2|]; try reflexivity.
  intros [->| ->]; [reflexivity|]. now rewrite orb_true_r.
Qed.

Lemma calculateSimilarity_is_score (toLowerCase : jsstring -> jsstring) text1 text2 :
  fits toLowerCase text1 -> fits toLowerCase text2 ->
  is_score (calculateSimilarity toLowerCase text1 text2) = true.
Proof.
  intros H1 H2. unfold calculateSimilarity.
  destruct text1 as [t1|], text2 as [t2|]; try reflexivity.
  destruct (falsy (Some t1) || falsy (Some t2)); [reflexivity|].
  cbv zeta. case_bool_decide; [reflexivity|].
  destruct (Z.eqb_spec (Z.max (Z.of_nat (length (normalize toLowerCase t1)))
                              (Z.of_nat (length (normalize toLowerCase t2)))) 0) as [|Hne];
    [reflexivity|].
  cbn [fits] in H1, H2. unfold max_string_length in H1, H2.
  pose proof (levenshteinDistance_bounds (normalize toLowerCase t1) (normalize toLowerCase t2)) as Hd.
  set (maxLength := Z.max (Z.of_nat (length (normalize toLowerCase t1)))
                          (Z.of_nat (length (normalize toLowerCase t2)))) in *.
  assert (HM : 1 <= maxLength < 2 ^ 53) by lia.
  destruct (similarity_of_hundredths _ _ HM Hd) as (k & Hk & ->).
  now apply hundredth_is_score.
Qed.

Lemma is_similar_true toLowerCase target threshold q :
  is_similar toLowerCase target threshold q = true <->
  id q <> id target /\
  fge (calculateSimilarity toLowerCase (question_text target) (question_text q))
      threshold = true.
Proof.
  unfold is_similar. case_bool_decide as Hid; split; intros H; try discriminate;
    try (split; assumption); try (destruct H; congruence); apply H.
Qed.

Lemma falsy_false text :
  falsy text = false <-> exists c r, text = Some (c :: r).
Proof.
  destruct text as [[|c r]|]; cbn; split; intros H; try discriminate; eauto;
    destruct H as (? & ? & ?); discriminate.
Qed.

Lemma calculateSimilarity_ext (f g : jsstring -> jsstring) text1 text2 :
  (forall t, text1 = Some t -> f t = g t) ->
  (forall t, text2 = Some t -> f t = g t) ->
  calculateSimilarity f text1 text2 = calculateSimilarity g text1 text2.
Proof.
  intros H1 H2. unfold calculateSimilarity, normalize.
  destruct text1 as [t1|], text2 as [t2|]; try reflexivity.
  now rewrite (H1 t1 eq_refl), (H2 t2 eq_refl).
Qed.

Lemma findSimilarQuestionsForQuestion_ext (f g : jsstring -> jsstring)
    questions target threshold :
  (forall t, question_text target = Some t -> f t = g t) ->
  Forall (fun q => forall t, question_text q = Some t -> f t = g t) questions ->
  findSimilarQuestionsForQuestion f questions (Some target) threshold =
  findSimilarQuestionsForQuestion g questions (Some target) threshold.
Proof.
  intros Ht Hq. rewrite List.Forall_forall in Hq.
  unfold findSimilarQuestionsForQuestion. cbv zeta.
  destruct (falsy (question_text target)); [reflexivity|]. f_equal.
  assert (E : List.filter (is_similar f target (default (num 70) threshold)) questions =
              List.filter (is_similar g target (default (num 70) threshold)) questions).
  { apply List.filter_ext_in. intros q Hin. unfold is_similar.
    now rewrite (calculateSimilarity_ext f g _ _ Ht (Hq q Hin)). }
  rewrite E. apply List.map_ext_in. intros q Hin. apply filter_In in Hin as [Hin _].
  unfold with_similarity.
  now rewrite (calculateSimilarity_ext f g _ _ Ht (Hq q Hin)).
Qed.

Lemma normalize_white_space toLowerCase (s : jsstring) :
  (forall s, forallb is_white_space s = true -> toLowerCase s = s) ->
  forallb is_white_space s = true -> normalize toLowerCase s = [].
Proof.
  intros H Hs. unfold normalize, trim. rewrite (H s Hs).
  now rewrite trim_start_all_white_space.
Qed.

Section NearDuplicates.

Variable toLowerCase : jsstring -> jsstring.

(** ** Properties of the engine *)

(** C1. For a target whose text is not empty, the result of
    [findSimilarQuestionsForQuestion] holds exactly the questions whose id
    differs from the target's and whose similarity to the target's text is
    at least the threshold, each as often as it occurs in the collection
    and each with that similarity; the result is in descending order of
    similarity, and no entry has the target's id. The texts are strings,
    so their normalised forms have fewer than 2^53 code units. *)
Theorem findSimilarQuestionsForQuestion_correct
    (questions : list Question) (target : Question) (threshold : option spec_float) :
  falsy (question_text target) = false ->
  fits toLowerCase (question_text target) ->
  Forall (fun q => fits toLowerCase (question_text q)) questions ->
  (forall q s,
     In {| question := q; similarity := s |}
        (findSimilarQuestionsForQuestion toLowerCase questions (Some target) threshold) <->
     In q questions /\ id q <> id target /\
     s = calculateSimilarity toLowerCase (question_text target) (question_text q) /\
     fge s (default (num 70) threshold) = true) /\
  Permutation
    (map question
       (findSimilarQuestionsForQuestion toLowerCase questions (Some target) threshold))
    (List.filter
       (fun q => negb (bool_decide (id q = id target)) &&
                 fge (calculateSimilarity toLowerCase (question_text target) (question_text q))
                     (default (num 70) threshold))
       questions) /\
  StronglySorted descending
    (findSimilarQuestionsForQuestion toLowerCase questions (Some target) threshold) /\
  Forall (fun r => id (question r) <> id target)
    (findSimilarQuestionsForQuestion toLowerCase questions (Some target) threshold).
Proof.
  intros Htext Hfit Hfits.
  unfold findSimilarQuestionsForQuestion. rewrite Htext. cbv zeta.
  set (th := default (num 70) threshold).
  set (kept := List.filter (is_similar toLowerCase target th) questions).
  assert (Hmem : forall q s,
            In {| question := q; similarity := s |}
               (sort (map (with_similarity toLowerCase target) kept)) <->
            In q questions /\ id q <> id target /\
            s = calculateSimilarity toLowerCase (question_text target) (question_text q) /\
            fge s th = true).
  { intros q s. split.
    - intros H. apply (Permutation_in _ (sort_Permutation _)) in H.
      apply in_map_iff in H as (q' & E & Hq'). unfold with_similarity in E.
      injection E as -> <-. unfold kept in Hq'.
      apply filter_In in Hq' as [Hin Hs]. apply is_similar_true in Hs as [Hid Hge].
      auto.
    - intros (Hin & Hid & -> & Hge).
      apply (Permutation_in _ (Permutation_sym (sort_Permutation _))).
      apply in_map_iff. exists q. split; [reflexivity|].
      unfold kept. apply filter_In. split; [assumption|].
      apply is_similar_true. auto. }
  split; [exact Hmem|]. split; [|split].
  - rewrite sort_Permutation, map_map. cbn [question with_similarity].
    rewrite map_id. unfold kept.
    assert (E : forall q, is_similar toLowerCase target th q =
              negb (bool_decide (id q = id target)) &&
              fge (calculateSimilarity toLowerCase (question_text target) (question_text q)) th).
    { intros q. unfold is_similar. now case_bool_decide. }
    rewrite (List.filter_ext _ _ E). reflexivity.
  - apply sort_sorted. apply List.Forall_forall. intros r Hr.
    apply in_map_iff in Hr as (q & <- & Hq). cbn [similarity with_similarity].
    apply calculateSimilarity_is_score; [assumption|].
    unfold kept in Hq. apply filter_In in Hq as [Hin _].
    rewrite List.Forall_forall in Hfits. now apply Hfits.
  - apply List.Forall_forall. intros [q s] Hr. apply Hmem in Hr. cbn [question]. tauto.
Qed.

(** C2 (as the code has it). Two empty strings have similarity 0: the
    test for a missing or empty text comes first, before the texts are
    normalised and compared. *)
Theorem calculateSimilarity_empty_empty :
  calculateSimilarity toLowerCase (Some []) (Some []) = num 0.
Proof. reflexivity. Qed.

(** C3 (as the code has it). A text that is not empty has similarity
    exactly 100 to itself. *)
Theorem calculateSimilarity_self (a : jsstring) :
  a <> [] -> calculateSimilarity toLowerCase (Some a) (Some a) = num 100.
Proof.
  intros Ha. unfold calculateSimilarity.
  destruct a as [|c r]; [congruence|]. cbn [falsy orb]. cbv zeta.
  now rewrite bool_decide_eq_true_2.
Qed.

(** C4. When the loops of [levenshteinDistance] are over, the table holds
    the classic recurrence: [d[i][0] = i], [d[0][j] = j], and every other
    entry is the least of the entry above plus 1, the entry to the left
    plus 1, and the entry above to the left plus 0 or 1, 0 when the two
    characters are equal; the result is the entry [d[m][n]], it is never
    negative, and it is 3 for "kitten" and "sitting". *)
Theorem levenshteinDistance_recurrence (str1 str2 : jsstring) :
  (forall i, (i <= length str1)%nat ->
     mget (final_matrix str1 str2) i 0 = Z.of_nat i) /\
  (forall j, (j <= length str2)%nat ->
     mget (final_matrix str1 str2) 0 j = Z.of_nat j) /\
  (forall i j, (1 <= i <= length str1)%nat -> (1 <= j <= length str2)%nat ->
     mget (final_matrix str1 str2) i j =
     Z.min (Z.min (mget (final_matrix str1 str2) (i - 1) j + 1)
                  (mget (final_matrix str1 str2) i (j - 1) + 1))
           (mget (final_matrix str1 str2) (i - 1) (j - 1) +
            (if bool_decide (str1 !! (i - 1)%nat = str2 !! (j - 1)%nat) then 0 else 1))) /\
  levenshteinDistance str1 str2 =
    mget (final_matrix str1 str2) (length str1) (length str2) /\
  0 <= levenshteinDistance str1 str2 /\
  levenshteinDistance (js "kitten") (js "sitting") = 3.
Proof.
  split; [|split; [|split; [|split; [|split]]]].
  - intros i Hi. rewrite final_matrix_get by lia. apply lev_rec_0_r.
  - intros j Hj. rewrite final_matrix_get by lia. apply lev_rec_0_l.
  - intros i j Hi Hj. rewrite !final_matrix_get by lia.
    destruct i as [|i]; [lia|]. destruct j as [|j]; [lia|].
    rewrite lev_rec_S. unfold min3, cost. cbn [Nat.sub]. rewrite !Nat.sub_0_r.
    reflexivity.
  - reflexivity.
  - apply levenshteinDistance_bounds.
  - vm_compute. reflexivity.
Qed.

(** C5. The similarity of any two texts is a number from 0 to 100, because
    the distance of two strings is at most the greater of their lengths. *)
Theorem calculateSimilarity_range (text1 text2 : option jsstring) :
  fits toLowerCase text1 -> fits toLowerCase text2 ->
  fge (calculateSimilarity toLowerCase text1 text2) (num 0) = true /\
  fge (num 100) (calculateSimilarity toLowerCase text1 text2) = true /\
  (forall str1 str2 : jsstring,
     levenshteinDistance str1 str2 <=
     Z.max (Z.of_nat (length str1)) (Z.of_nat (length str2))).
Proof.
  intros H1 H2.
  destruct (is_score_range _ (calculateSimilarity_is_score toLowerCase _ _ H1 H2))
    as [Hlo Hhi].
  split; [exact Hlo|]. split; [exact Hhi|].
  intros str1 str2. apply levenshteinDistance_bounds.
Qed.

(** C6. The similarity and the distance do not depend on the order of
    their two arguments. *)
Theorem calculateSimilarity_symmetric :
  (forall text1 text2 : option jsstring,
     calculateSimilarity toLowerCase text1 text2 =
     calculateSimilarity toLowerCase text2 text1) /\
  (forall str1 str2 : jsstring,
     levenshteinDistance str1 str2 = levenshteinDistance str2 str1).
Proof.
  split; [|apply levenshteinDistance_sym].
  intros text1 text2. unfold calculateSimilarity.
  destruct text1 as [t1|], text2 as [t2|]; try reflexivity.
  rewrite (orb_comm (falsy (Some t2))). cbv zeta.
  destruct (falsy (Some t1) || falsy (Some t2)); [reflexivity|].
  rewrite (Z.max_comm (Z.of_nat (length (normalize toLowerCase t2)))).
  rewrite (levenshteinDistance_sym (normalize toLowerCase t2)).
  repeat case_bool_decide; congruence.
Qed.

(** Two facts about [String.prototype.toLowerCase]: a lower-cased string has
    no character left that lower-casing changes; and a string without such a
    character still has none when white space is removed at its ends and
    every run of white space is replaced by one space (white space has no
    case, and the replacement never joins two units that were apart). *)
Hypothesis toLowerCase_idem :
  forall s, toLowerCase (toLowerCase s) = toLowerCase s.
Hypothesis toLowerCase_tidy :
  forall s, toLowerCase s = s ->
    toLowerCase (replace_white_space_runs (trim s)) = replace_white_space_runs (trim s).

(** C7. Normalising is defined for every string, and normalising twice
    gives what normalising once gives; a normalised string has no white
    space at its ends and no white space but single spaces. *)
Theorem normalize_idempotent (s : jsstring) :
  normalize toLowerCase (normalize toLowerCase s) = normalize toLowerCase s /\
  trim (normalize toLowerCase s) = normalize toLowerCase s /\
  replace_white_space_runs (normalize toLowerCase s) = normalize toLowerCase s.
Proof.
  destruct (tidy_fixed (toLowerCase s)) as [Ht Hr].
  split; [|split; [exact Ht|exact Hr]].
  unfold normalize at 1 3. unfold normalize.
  rewrite (toLowerCase_tidy _ (toLowerCase_idem s)), Ht. exact Hr.
Qed.

(** C8. Without a target, or with a target whose text is missing or
    empty, the result is the empty list, whatever the collection and the
    threshold are. *)
Theorem findSimilarQuestionsForQuestion_no_target
    (questions : list Question) (threshold : option spec_float) :
  findSimilarQuestionsForQuestion toLowerCase questions None threshold = [] /\
  (forall target,
     question_text target = None \/ question_text target = Some [] ->
     findSimilarQuestionsForQuestion toLowerCase questions (Some target) threshold = []).
Proof.
  split; [reflexivity|]. intros target H.
  unfold findSimilarQuestionsForQuestion. cbv zeta.
  now destruct H as [-> | ->].
Qed.

(** On text made of ASCII characters, [toLowerCase] changes the letters
    A to Z and nothing else. *)
Hypothesis toLowerCase_on_ascii :
  forall s, is_ascii s = true -> toLowerCase s = toLowerCase_ascii s.

(** C9. For the three sample questions, the first as target and the
    threshold 70 (given, or left out), the result is the second question
    alone, with similarity 96.67. *)
Theorem findSimilarQuestionsForQuestion_sample :
  findSimilarQuestionsForQuestion toLowerCase [q1; q2; q3] (Some q1) (Some (num 70)) =
    [{| question := q2; similarity := fdiv (num 9667) (num 100) |}] /\
  findSimilarQuestionsForQuestion toLowerCase [q1; q2; q3] (Some q1) None =
    [{| question := q2; similarity := fdiv (num 9667) (num 100) |}] /\
  fge (fdiv (num 9667) (num 100)) (num 96) = true /\
  fge (num 97) (fdiv (num 9667) (num 100)) = true.
Proof.
  assert (E : forall threshold,
            findSimilarQuestionsForQuestion toLowerCase [q1; q2; q3] (Some q1) threshold =
            findSimilarQuestionsForQuestion toLowerCase_ascii [q1; q2; q3] (Some q1) threshold).
  { intros threshold. apply findSimilarQuestionsForQuestion_ext.
    - intros t Ht. injection Ht as <-. now apply toLowerCase_on_ascii.
    - repeat constructor; intros t Ht; injection Ht as <-; now apply toLowerCase_on_ascii. }
  rewrite !E. repeat split; vm_compute; reflexivity.
Qed.

(** White space has no case: [toLowerCase] keeps a string of white space. *)
Hypothesis toLowerCase_white_space :
  forall s, forallb is_white_space s = true -> toLowerCase s = s.

(** C10. Two texts that are not empty and hold white space only have
    similarity exactly 100, as a space and two tabs have: both normalise
    to the empty string, and the normalised forms are compared before any
    length is looked at. A text that is empty before it is normalised
    gives 0. *)
Theorem calculateSimilarity_white_space_only (a b : jsstring) :
  a <> [] -> b <> [] ->
  forallb is_white_space a = true -> forallb is_white_space b = true ->
  normalize toLowerCase a = [] /\ normalize toLowerCase b = [] /\
  calculateSimilarity toLowerCase (Some a) (Some b) = num 100 /\
  calculateSimilarity toLowerCase (Some [32%N]) (Some [9%N; 9%N]) = num 100 /\
  calculateSimilarity toLowerCase (Some []) (Some b) = num 0.
Proof.
  intros Ha Hb Hwa Hwb.
  pose proof (normalize_white_space toLowerCase a toLowerCase_white_space Hwa) as Na.
  pose proof (normalize_white_space toLowerCase b toLowerCase_white_space Hwb) as Nb.
  split; [exact Na|]. split; [exact Nb|]. split; [|split; [|reflexivity]].
  - unfold calculateSimilarity.
    destruct a as [|ca ra]; [congruence|]. destruct b as [|cb rb]; [congruence|].
    cbn [falsy orb]. cbv zeta. rewrite Na, Nb. reflexivity.
  - unfold calculateSimilarity. cbn [falsy orb]. cbv zeta.
    rewrite !(normalize_white_space toLowerCase _ toLowerCase_white_space) by reflexivity.
    reflexivity.
Qed.

End NearDuplicates.

(** ** The theorems at sample inputs *)

Ltac fits_sample :=
  cbv [fits q1 q2 q3 question_text]; apply Z.leb_le; vm_compute; reflexivity.

Lemma findSimilarQuestionsForQuestion_correct_sample :
  falsy (question_text q1) = false /\
  fits toLowerCase_ascii (question_text q1) /\
  Forall (fun q => fits toLowerCase_ascii (question_text q)) [q1; q2; q3] /\
  (forall q s,
     In {| question := q; similarity := s |}
        (findSimilarQuestionsForQuestion toLowerCase_ascii [q1; q2; q3] (Some q1)
           (Some (num 70))) <->
     In q [q1; q2; q3] /\ id q <> id q1 /\
     s = calculateSimilarity toLowerCase_ascii (question_text q1) (question_text q) /\
     fge s (num 70) = true) /\
  StronglySorted descending
    (findSimilarQuestionsForQuestion toLowerCase_ascii [q1; q2; q3] (Some q1)
       (Some (num 70))) /\
  Forall (fun r => id (question r) <> id q1)
    (findSimilarQuestionsForQuestion toLowerCase_ascii [q1; q2; q3] (Some q1)
       (Some (num 70))).
Proof.
  assert (H1 : falsy (question_text q1) = false) by reflexivity.
  assert (H2 : fits toLowerCase_ascii (question_text q1)) by fits_sample.
  assert (H3 : Forall (fun q => fits toLowerCase_ascii (question_text q)) [q1; q2; q3])
    by (constructor; [fits_sample|constructor; [fits_sample|constructor; [fits_sample|constructor]]]).
  destruct (findSimilarQuestionsForQuestion_correct toLowerCase_ascii
              [q1; q2; q3] q1 (Some (num 70)) H1 H2 H3) as (Hm & _ & Hs & Hi).
  exact (conj H1 (conj H2 (conj H3 (conj Hm (conj Hs Hi))))).
Defined.

Lemma calculateSimilarity_self_sample :
  js "Hello World" <> [] /\
  calculateSimilarity toLowerCase_ascii (Some (js "Hello World")) (Some (js "Hello World")) =
  num 100.
Proof.
  assert (H : js "Hello World" <> []) by discriminate.
  split; [exact H|]. exact (calculateSimilarity_self toLowerCase_ascii _ H).
Defined.

Lemma calculateSimilarity_range_sample :
  fits toLowerCase_ascii (Some (js "abcd")) /\
  fits toLowerCase_ascii (Some (js "abce")) /\
  fge (calculateSimilarity toLowerCase_ascii (Some (js "abcd")) (Some (js "abce"))) (num 0) = true /\
  fge (num 100) (calculateSimilarity toLowerCase_ascii (Some (js "abcd")) (Some (js "abce"))) = true.
Proof.
  assert (H1 : fits toLowerCase_ascii (Some (js "abcd"))) by fits_sample.
  assert (H2 : fits toLowerCase_ascii (Some (js "abce"))) by fits_sample.
  destruct (calculateSimilarity_range toLowerCase_ascii _ _ H1 H2) as (Hlo & Hhi & _).
  exact (conj H1 (conj H2 (conj Hlo Hhi))).
Defined.

Lemma normalize_idempotent_sample :
  normalize toLowerCase_ascii (normalize toLowerCase_ascii (js "  Hello   World ")) =
  normalize toLowerCase_ascii (js "  Hello   World ") /\
  normalize toLowerCase_ascii (js "  Hello   World ") = js "hello world".
Proof.
  split; [|reflexivity].
  exact (proj1 (normalize_idempotent toLowerCase_ascii
                  toLowerCase_ascii_idem toLowerCase_ascii_tidy (js "  Hello   World "))).
Defined.

Lemma findSimilarQuestionsForQuestion_sample_ascii :
  findSimilarQuestionsForQuestion toLowerCase_ascii [q1; q2; q3] (Some q1) (Some (num 70)) =
  [{| question := q2; similarity := fdiv (num 9667) (num 100) |}].
Proof.
  exact (proj1 (findSimilarQuestionsForQuestion_sample toLowerCase_ascii
                  (fun s _ => eq_refl))).
Defined.

Lemma calculateSimilarity_white_space_only_sample :
  calculateSimilarity toLowerCase_ascii (Some [32%N; 160%N]) (Some [9%N; 10%N; 13%N]) = num 100.
Proof.
  assert (Ha : [32%N; 160%N] <> ([] : list N)) by discriminate.
  assert (Hb : [9%N; 10%N; 13%N] <> ([] : list N)) by discriminate.
  exact (proj1 (proj2 (proj2
    (calculateSimilarity_white_space_only toLowerCase_ascii toLowerCase_ascii_white_space
       [32%N; 160%N] [9%N; 10%N; 13%N] Ha Hb eq_refl eq_refl)))).
Defined.

(** ** Where the description of the engine and the code part *)

Lemma calculateSimilarity_empty_empty_is_0 :
  calculateSimilarity toLowerCase_ascii (Some (js "")) (Some (js "")) = num 0 /\
  SFeqb (num 0) (num 100) = false.
Proof. split; reflexivity. Qed.

Lemma calculateSimilarity_self_empty_is_not_100 :
  SFeqb (calculateSimilarity toLowerCase_ascii (Some (js "")) (Some (js ""))) (num 100) = false.
Proof. reflexivity. Qed.

(** * More about the code *)

(** ** More about the distance *)

Lemma lev_rec_lower str1 str2 i j :
  Z.abs (Z.of_nat i - Z.of_nat j) <= lev_rec str1 str2 i j.
Proof.
  revert j. induction i as [|i IHi]; intros j.
  - rewrite lev_rec_0_l. lia.
  - induction j as [|j IHj].
    + rewrite lev_rec_0_r. lia.
    + rewrite lev_rec_S.
      pose proof (IHi j). pose proof (IHi (S j)).
      pose proof (cost_range str1 str2 (S i) (S j)).
      unfold min3. lia.
Qed.

Lemma lev_rec_diag str i : lev_rec str str i i = 0.
Proof.
  induction i as [|i IH]; [reflexivity|].
  rewrite lev_rec_S, IH.
  pose proof (lev_rec_bounds str str i (S i)).
  pose proof (lev_rec_bounds str str (S i) i).
  unfold cost. rewrite bool_decide_eq_true_2 by reflexivity.
  unfold min3. lia.
Qed.

Lemma lev_rec_zero_prefix (str1 str2 : jsstring) i j :
  (i <= length str1)%nat -> (j <= length str2)%nat ->
  lev_rec str1 str2 i j = 0 -> take i str1 = take j str2.
Proof.
  revert j. induction i as [|i IHi]; intros j Hi Hj H.
  - rewrite lev_rec_0_l in H. now replace j with 0%nat by lia.
  - destruct j as [|j].
    + rewrite lev_rec_0_r in H. lia.
    + rewrite lev_rec_S in H.
      pose proof (lev_rec_bounds str1 str2 i (S j)).
      pose proof (lev_rec_bounds str1 str2 (S i) j).
      pose proof (lev_rec_bounds str1 str2 i j).
      pose proof (cost_range str1 str2 (S i) (S j)).
      assert (Hz : lev_rec str1 str2 i j = 0) by (unfold min3 in H; lia).
      assert (Hc : cost str1 str2 (S i) (S j) = 0) by (unfold min3 in H; lia).
      unfold cost in Hc. cbn [Nat.sub] in Hc. rewrite !Nat.sub_0_r in Hc.
      case_bool_decide as E; [|discriminate].
      destruct (lookup_lt_is_Some_2 str1 i ltac:(lia)) as [x Hx].
      rewrite Hx in E. symmetry in E.
      rewrite (take_S_r _ _ _ Hx), (take_S_r _ _ _ E).
      f_equal. apply IHi; (assumption || lia).
Qed.

Lemma cost_prefix (s1 s2 s1' s2' : jsstring) i j :
  take i s1 = take i s1' -> take j s2 = take j s2' ->
  (1 <= i)%nat -> (1 <= j)%nat ->
  cost s1 s2 i j = cost s1' s2' i j.
Proof.
  intros H1 H2 Hi Hj. unfold cost.
  rewrite <- (lookup_take_lt s1 i (i - 1)), <- (lookup_take_lt s2 j (j - 1)) by lia.
  rewrite <- (lookup_take_lt s1' i (i - 1)), <- (lookup_take_lt s2' j (j - 1)) by lia.
  now rewrite H1, H2.
Qed.

Lemma take_take_le {A} (l l' : list A) i k :
  (k <= i)%nat -> take i l = take i l' -> take k l = take k l'.
Proof.
  intros Hk H.
  replace k with (Nat.min k i) by lia.
  now rewrite <- !take_take, H.
Qed.

Lemma lev_rec_prefix (s1 s2 s1' s2' : jsstring) i j :
  take i s1 = take i s1' -> take j s2 = take j s2' ->
  lev_rec s1 s2 i j = lev_rec s1' s2' i j.
Proof.
  revert j. induction i as [|i IHi]; intros j H1 H2; [reflexivity|].
  induction j as [|j IHj]; [reflexivity|].
  rewrite !lev_rec_S.
  assert (T1 : take i s1 = take i s1')
    by (apply (take_take_le _ _ (S i)); [lia|assumption]).
  assert (T2 : take j s2 = take j s2')
    by (apply (take_take_le _ _ (S j)); [lia|assumption]).
  rewrite (IHi (S j) T1 H2), (IHi j T1 T2), (IHj T2).
  rewrite (cost_prefix s1 s2 s1' s2' (S i) (S j) H1 H2) by lia.
  reflexivity.
Qed.

Lemma lev_rec_step_l str1 str2 i j :
  lev_rec str1 str2 (S i) j <= lev_rec str1 str2 i j + 1.
Proof.
  destruct j as [|j].
  - rewrite !lev_rec_0_r. lia.
  - rewrite lev_rec_S. unfold min3. lia.
Qed.

Lemma lev_rec_step_r str1 str2 i j :
  lev_rec str1 str2 i (S j) <= lev_rec str1 str2 i j + 1.
Proof.
  rewrite (lev_rec_sym str1 str2 i (S j)), (lev_rec_sym str1 str2 i j).
  apply lev_rec_step_l.
Qed.

Lemma edit_script_prefixes (str1 str2 : jsstring) i j :
  (i <= length str1)%nat -> (j <= length str2)%nat ->
  edit_script (take i str1) (take j str2) (lev_rec str1 str2 i j).
Proof.
  revert j. induction i as [|i IHi]; intros j Hi Hj.
  - rewrite lev_rec_0_l. induction j as [|j IHj]; [constructor|].
    destruct (lookup_lt_is_Some_2 str2 j ltac:(lia)) as [y Hy].
    rewrite (take_S_r _ _ _ Hy), Nat2Z.inj_succ. unfold Z.succ.
    apply edit_insert, IHj. lia.
  - destruct (lookup_lt_is_Some_2 str1 i ltac:(lia)) as [x Hx].
    induction j as [|j IHj].
    + rewrite lev_rec_0_r, (take_S_r _ _ _ Hx), Nat2Z.inj_succ. unfold Z.succ.
      specialize (IHi 0%nat ltac:(lia) ltac:(lia)). rewrite lev_rec_0_r in IHi.
      now apply edit_delete.
    + destruct (lookup_lt_is_Some_2 str2 j ltac:(lia)) as [y Hy].
      rewrite lev_rec_S. unfold min3.
      destruct (Z.min_spec (lev_rec str1 str2 i (S j) + 1) (lev_rec str1 str2 (S i) j + 1))
        as [[_ ->]|[_ ->]];
      match goal with
      | |- context [Z.min ?a ?b] => destruct (Z.min_spec a b) as [[_ ->]|[_ ->]]
      end.
      * rewrite (take_S_r _ _ _ Hx). apply edit_delete, IHi; lia.
      * rewrite (take_S_r _ _ _ Hx), (take_S_r _ _ _ Hy).
        unfold cost. cbn [Nat.sub]. rewrite !Nat.sub_0_r, Hx, Hy.
        case_bool_decide as E.
        -- injection E as ->. rewrite Z.add_0_r. apply edit_keep, IHi; lia.
        -- apply edit_substitute, IHi; lia.
      * rewrite (take_S_r str2 _ _ Hy). apply edit_insert, IHj. lia.
      * rewrite (take_S_r _ _ _ Hx), (take_S_r _ _ _ Hy).
        unfold cost. cbn [Nat.sub]. rewrite !Nat.sub_0_r, Hx, Hy.
        case_bool_decide as E.
        -- injection E as ->. rewrite Z.add_0_r. apply edit_keep, IHi; lia.
        -- apply edit_substitute, IHi; lia.
Qed.

Lemma edit_script_lower (s t : jsstring) n :
  edit_script s t n -> lev_rec s t (length s) (length t) <= n.
Proof.
  induction 1 as [|s t c n H IH|s t a b n H IH|s t a n H IH|s t b n H IH].
  - reflexivity.
  - rewrite !length_app. cbn [length]. rewrite !Nat.add_1_r, lev_rec_S.
    assert (E : lev_rec (s ++ [c]) (t ++ [c]) (length s) (length t) =
                lev_rec s t (length s) (length t))
      by (apply lev_rec_prefix; now rewrite take_app_length, take_ge).
    assert (Ec : cost (s ++ [c]) (t ++ [c]) (S (length s)) (S (length t)) = 0).
    { unfold cost. cbn [Nat.sub]. rewrite !Nat.sub_0_r, !list_lookup_middle by reflexivity.
      now rewrite bool_decide_eq_true_2. }
    rewrite E, Ec. unfold min3. lia.
  - rewrite !length_app. cbn [length]. rewrite !Nat.add_1_r, lev_rec_S.
    assert (E : lev_rec (s ++ [a]) (t ++ [b]) (length s) (length t) =
                lev_rec s t (length s) (length t))
      by (apply lev_rec_prefix; now rewrite take_app_length, take_ge).
    pose proof (cost_range (s ++ [a]) (t ++ [b]) (S (length s)) (S (length t))).
    rewrite E. unfold min3. lia.
  - rewrite length_app. cbn [length]. rewrite Nat.add_1_r.
    pose proof (lev_rec_step_l (s ++ [a]) t (length s) (length t)) as Hs.
    assert (E : lev_rec (s ++ [a]) t (length s) (length t) =
                lev_rec s t (length s) (length t))
      by (apply lev_rec_prefix; [now rewrite take_app_length, take_ge|reflexivity]).
    lia.
  - rewrite length_app. cbn [length]. rewrite Nat.add_1_r.
    pose proof (lev_rec_step_r s (t ++ [b]) (length s) (length t)) as Hs.
    assert (E : lev_rec s (t ++ [b]) (length s) (length t) =
                lev_rec s t (length s) (length t))
      by (apply lev_rec_prefix; [reflexivity|now rewrite take_app_length, take_ge]).
    lia.
Qed.

Lemma edit_script_nonneg (s t : jsstring) n : edit_script s t n -> 0 <= n.
Proof. induction 1; lia. Qed.

(** Doing one script after another costs at most the sum. *)
Lemma edit_script_compose (t u : jsstring) m :
  edit_script t u m ->
  forall (s : jsstring) n, edit_script s t n ->
  exists k, k <= n + m /\ edit_script s u k.
Proof.
  induction 1 as [|t u c m H2 IH|t u a b m H2 IH|t u a m H2 IH|t u b m H2 IH];
    intros s n H1.
  - exists n. split; [lia|assumption].
  - remember (t ++ [c]) as tc eqn:Etc.
    induction H1 as [|s t1 c1 n H1 IH1|s t1 a1 b1 n H1 IH1|s t1 a1 n H1 IH1|s t1 b1 n H1 IH1].
    + now apply app_cons_not_nil in Etc.
    + apply app_inj_tail in Etc as [-> ->].
      destruct (IH _ _ H1) as (k & Hk & Hs). exists k. split; [lia|now apply edit_keep].
    + apply app_inj_tail in Etc as [-> ->].
      destruct (IH _ _ H1) as (k & Hk & Hs). exists (k + 1). split; [lia|now apply edit_substitute].
    + destruct (IH1 Etc) as (k & Hk & Hs). exists (k + 1). split; [lia|now apply edit_delete].
    + apply app_inj_tail in Etc as [-> ->].
      destruct (IH _ _ H1) as (k & Hk & Hs). exists (k + 1). split; [lia|now apply edit_insert].
  - remember (t ++ [a]) as ta eqn:Eta.
    induction H1 as [|s t1 c1 n H1 IH1|s t1 a1 b1 n H1 IH1|s t1 a1 n H1 IH1|s t1 b1 n H1 IH1].
    + now apply app_cons_not_nil in Eta.
    + apply app_inj_tail in Eta as [-> ->].
      destruct (IH _ _ H1) as (k & Hk & Hs). exists (k + 1). split; [lia|now apply edit_substitute].
    + apply app_inj_tail in Eta as [-> ->].
      destruct (IH _ _ H1) as (k & Hk & Hs). exists (k + 1). split; [lia|now apply edit_substitute].
    + destruct (IH1 Eta) as (k & Hk & Hs). exists (k + 1). split; [lia|now apply edit_delete].
    + apply app_inj_tail in Eta as [-> ->].
      destruct (IH _ _ H1) as (k & Hk & Hs). exists (k + 1). split; [lia|now apply edit_insert].
  - remember (t ++ [a]) as ta eqn:Eta.
    induction H1 as [|s t1 c1 n H1 IH1|s t1 a1 b1 n H1 IH1|s t1 a1 n H1 IH1|s t1 b1 n H1 IH1].
    + now apply app_cons_not_nil in Eta.
    + apply app_inj_tail in Eta as [-> ->].
      destruct (IH _ _ H1) as (k & Hk & Hs). exists (k + 1). split; [lia|now apply edit_delete].
    + apply app_inj_tail in Eta as [-> ->].
      destruct (IH _ _ H1) as (k & Hk & Hs). exists (k + 1). split; [lia|now apply edit_delete].
    + destruct (IH1 Eta) as (k & Hk & Hs). exists (k + 1). split; [lia|now apply edit_delete].
    + apply app_inj_tail in Eta as [-> ->].
      destruct (IH _ _ H1) as (k & Hk & Hs). exists k. split; [lia|assumption].
  - destruct (IH _ _ H1) as (k & Hk & Hs). exists (k + 1). split; [lia|now apply edit_insert].
Qed.

Lemma edit_script_levenshteinDistance (str1 str2 : jsstring) :
  edit_script str1 str2 (levenshteinDistance str1 str2).
Proof.
  rewrite levenshteinDistance_lev_rec.
  pose proof (edit_script_prefixes str1 str2 (length str1) (length str2)
                ltac:(lia) ltac:(lia)) as H.
  now rewrite !take_ge in H by lia.
Qed.

(** X1. The distance of two strings is 0 exactly when they are the same
    string. *)
Theorem levenshteinDistance_zero_iff (str1 str2 : jsstring) :
  levenshteinDistance str1 str2 = 0 <-> str1 = str2.
Proof.
  rewrite levenshteinDistance_lev_rec. split.
  - intros H. apply lev_rec_zero_prefix in H; [|lia|lia].
    now rewrite !take_ge in H by lia.
  - intros ->. apply lev_rec_diag.
Qed.

(** X2. The distance is the least number of single-character edits
    (substitutions, deletions, insertions) that turn the first string into
    the second: there is an edit script of that cost, and none costs less. *)
Theorem levenshteinDistance_least_edit_script (str1 str2 : jsstring) :
  edit_script str1 str2 (levenshteinDistance str1 str2) /\
  forall n, edit_script str1 str2 n -> levenshteinDistance str1 str2 <= n.
Proof.
  split; [apply edit_script_levenshteinDistance|].
  intros n H. rewrite levenshteinDistance_lev_rec. now apply edit_script_lower.
Qed.

(** X3. The triangle inequality: going from the first string to the third
    by way of a second costs no less than going there directly. *)
Theorem levenshteinDistance_triangle (str1 str2 str3 : jsstring) :
  levenshteinDistance str1 str3 <=
  levenshteinDistance str1 str2 + levenshteinDistance str2 str3.
Proof.
  destruct (edit_script_compose str2 str3 _ (edit_script_levenshteinDistance str2 str3)
              str1 _ (edit_script_levenshteinDistance str1 str2)) as (k & Hk & Hs).
  apply edit_script_lower in Hs. rewrite <- levenshteinDistance_lev_rec in Hs. lia.
Qed.

(** X4. The distance is at least the difference of the two lengths and at
    most the greater of them; so the distance to the empty string is the
    length. *)
Theorem levenshteinDistance_length_difference (str1 str2 : jsstring) :
  Z.abs (Z.of_nat (length str1) - Z.of_nat (length str2)) <= levenshteinDistance str1 str2 /\
  levenshteinDistance str1 str2 <= Z.max (Z.of_nat (length str1)) (Z.of_nat (length str2)) /\
  levenshteinDistance str1 [] = Z.of_nat (length str1) /\
  levenshteinDistance [] str2 = Z.of_nat (length str2).
Proof.
  rewrite !levenshteinDistance_lev_rec.
  split; [apply lev_rec_lower|]. split; [apply lev_rec_bounds|].
  split; [apply lev_rec_0_r|apply lev_rec_0_l].
Qed.

Lemma SFleb_finite_neg_iff m1 e1 m2 e2 :
  SFleb (S754_finite true m1 e1) (S754_finite true m2 e2) = true <->
  e2 < e1 \/ (e1 = e2 /\ (m2 <= m1)%positive).
Proof.
  unfold SFleb, SFcompare.
  destruct (Z.compare_spec e1 e2) as [He|He|He].
  - change (Pos.compare_cont Eq m1 m2) with (Pos.compare m1 m2).
    destruct (Pos.compare_spec m1 m2) as [Hm|Hm|Hm]; cbn; split; intros H;
      try reflexivity; try discriminate; try lia.
  - split; [discriminate|lia].
  - split; [lia|reflexivity].
Qed.

(** [<=] on numbers is transitive (NaN is below and above nothing). *)
Lemma SFleb_trans x y z :
  SFleb x y = true -> SFleb y z = true -> SFleb x z = true.
Proof.
  destruct x as [[]|[]| |[] mx ex], y as [[]|[]| |[] my ey], z as [[]|[]| |[] mz ez];
    intros H1 H2; try reflexivity; try discriminate H1; try discriminate H2.
  - rewrite SFleb_finite_neg_iff in *. lia.
  - rewrite SFleb_finite_iff in *. lia.
Qed.

(** ** More about the similarity and the search *)

Lemma num_positive_cases z :
  0 < z ->
  match num z with
  | S754_finite false _ _ | S754_infinity false => True
  | _ => False
  end.
Proof.
  intros Hz. destruct z as [|p|p]; try lia.
  unfold num, binary_normalize.
  pose proof (binary_round_sign false p 0 ltac:(lia)) as H.
  destruct (binary_round prec emax false p 0) as [| [] | | [] ? ?];
    try contradiction; try discriminate; exact I.
Qed.

Lemma similarity_of_full_distance maxLength :
  0 < maxLength -> similarity_of maxLength maxLength = num 0.
Proof.
  intros HM. unfold similarity_of. rewrite Z.sub_diag.
  pose proof (num_positive_cases maxLength HM) as H.
  destruct (num maxLength) as [| [] | | [] ? ?]; try contradiction; reflexivity.
Qed.

Lemma hundredths_0_100 :
  num 0 = fdiv (num 0) (num 100) /\ num 100 = fdiv (num 10000) (num 100).
Proof. split; vm_compute; reflexivity. Qed.

Lemma calculateSimilarity_comm (toLowerCase : jsstring -> jsstring) text1 text2 :
  calculateSimilarity toLowerCase text1 text2 = calculateSimilarity toLowerCase text2 text1.
Proof.
  unfold calculateSimilarity.
  destruct text1 as [t1|], text2 as [t2|]; try reflexivity.
  rewrite (orb_comm (falsy (Some t2))). cbv zeta.
  destruct (falsy (Some t1) || falsy (Some t2)); [reflexivity|].
  rewrite (Z.max_comm (Z.of_nat (length (normalize toLowerCase t2)))).
  rewrite (levenshteinDistance_sym (normalize toLowerCase t2)).
  repeat case_bool_decide; congruence.
Qed.

Lemma In_findSimilarQuestionsForQuestion (toLowerCase : jsstring -> jsstring)
    questions target threshold q s :
  falsy (question_text target) = false ->
  In {| question := q; similarity := s |}
     (findSimilarQuestionsForQuestion toLowerCase questions (Some target) threshold) <->
  In q questions /\ id q <> id target /\
  s = calculateSimilarity toLowerCase (question_text target) (question_text q) /\
  fge s (default (num 70) threshold) = true.
Proof.
  intros Htext. unfold findSimilarQuestionsForQuestion. rewrite Htext. cbv zeta.
  split.
  - intros H. apply (Permutation_in _ (sort_Permutation _)) in H.
    apply in_map_iff in H as (q' & E & Hq'). unfold with_similarity in E.
    injection E as -> <-.
    apply filter_In in Hq' as [Hin Hs]. apply is_similar_true in Hs as [Hid Hge].
    auto.
  - intros (Hin & Hid & -> & Hge).
    apply (Permutation_in _ (Permutation_sym (sort_Permutation _))).
    apply in_map_iff. exists q. split; [reflexivity|].
    apply filter_In. split; [assumption|].
    apply is_similar_true. auto.
Qed.

(** The sort keeps the order of entries that have the same similarity. *)
Lemma fsub_diag_not_positive x : fpositive (fsub x x) = false.
Proof.
  destruct x as [[]|[]| |s m e]; try reflexivity.
  unfold fsub, SFsub. rewrite Z.sub_diag. reflexivity.
Qed.

Lemma filter_sort_insert (s : spec_float) a l :
  List.filter (fun r => bool_decide (similarity r = s)) (sort_insert a l) =
  List.filter (fun r => bool_decide (similarity r = s)) (a :: l).
Proof.
  induction l as [|b r IH]; [reflexivity|].
  cbn [sort_insert]. destruct (fpositive (comparefn a b)) eqn:E; [|reflexivity].
  cbn [List.filter] in *.
  destruct (bool_decide (similarity b = s)) eqn:Hb; rewrite IH;
    destruct (bool_decide (similarity a = s)) eqn:Ha; try reflexivity.
  apply bool_decide_eq_true_1 in Ha, Hb.
  unfold comparefn in E. rewrite Ha, Hb, fsub_diag_not_positive in E. discriminate.
Qed.

Lemma filter_sort (s : spec_float) l :
  List.filter (fun r => bool_decide (similarity r = s)) (sort l) =
  List.filter (fun r => bool_decide (similarity r = s)) l.
Proof.
  induction l as [|a r IH]; [reflexivity|].
  cbn [sort fold_right]. rewrite filter_sort_insert. fold (sort r).
  cbn [List.filter]. now rewrite IH.
Qed.

Section MoreAboutTheEngine.

Variable toLowerCase : jsstring -> jsstring.

(** X5. When no character of one normalised text can be kept to make the
    other (their distance is the greater of their lengths, which is not 0),
    the similarity is exactly 0. *)
Theorem calculateSimilarity_full_distance (t1 t2 : jsstring) :
  t1 <> [] -> t2 <> [] ->
  levenshteinDistance (normalize toLowerCase t1) (normalize toLowerCase t2) =
    Z.max (Z.of_nat (length (normalize toLowerCase t1)))
          (Z.of_nat (length (normalize toLowerCase t2))) ->
  normalize toLowerCase t1 <> normalize toLowerCase t2 ->
  calculateSimilarity toLowerCase (Some t1) (Some t2) = num 0.
Proof.
  intros H1 H2 Hd Hne. unfold calculateSimilarity.
  destruct t1 as [|c1 r1]; [congruence|]. destruct t2 as [|c2 r2]; [congruence|].
  cbn [falsy orb]. cbv zeta. rewrite bool_decide_eq_false_2 by assumption.
  destruct (Z.eqb_spec (Z.max (Z.of_nat (length (normalize toLowerCase (c1 :: r1))))
                              (Z.of_nat (length (normalize toLowerCase (c2 :: r2))))) 0)
    as [E|E].
  - exfalso. apply Hne.
    destruct (normalize toLowerCase (c1 :: r1)), (normalize toLowerCase (c2 :: r2));
      cbn [length] in E; try lia. reflexivity.
  - rewrite Hd. apply similarity_of_full_distance. lia.
Qed.

(** X6. A similarity has at most two decimals: for texts that are strings
    (or are missing) it is the double nearest to [k / 100] for a whole number
    [k] from 0 to 10000. *)
Theorem calculateSimilarity_hundredths (text1 text2 : option jsstring) :
  fits toLowerCase text1 -> fits toLowerCase text2 ->
  exists k, 0 <= k <= 10000 /\
            calculateSimilarity toLowerCase text1 text2 = fdiv (num k) (num 100).
Proof.
  intros H1 H2. destruct hundredths_0_100 as [E0 E100].
  unfold calculateSimilarity.
  destruct text1 as [t1|], text2 as [t2|]; try (exists 0; split; [lia|exact E0]).
  destruct (falsy (Some t1) || falsy (Some t2)); [exists 0; split; [lia|exact E0]|].
  cbv zeta. case_bool_decide; [exists 10000; split; [lia|exact E100]|].
  destruct (Z.eqb_spec (Z.max (Z.of_nat (length (normalize toLowerCase t1)))
                              (Z.of_nat (length (normalize toLowerCase t2)))) 0) as [|Hne];
    [exists 10000; split; [lia|exact E100]|].
  cbn [fits] in H1, H2. unfold max_string_length in H1, H2.
  pose proof (levenshteinDistance_bounds (normalize toLowerCase t1) (normalize toLowerCase t2))
    as Hd.
  set (maxLength := Z.max (Z.of_nat (length (normalize toLowerCase t1)))
                          (Z.of_nat (length (normalize toLowerCase t2)))) in *.
  assert (HM : 1 <= maxLength < 2 ^ 53) by lia.
  exact (similarity_of_hundredths _ _ HM Hd).
Qed.

(** X7. The similarity depends on a text only through its normalised form:
    a text that is not empty can be replaced with any other text that is not
    empty and has the same normalised form. *)
Theorem calculateSimilarity_normalize_invariant (t1 t1' : jsstring)
    (text2 : option jsstring) :
  t1 <> [] -> t1' <> [] ->
  normalize toLowerCase t1 = normalize toLowerCase t1' ->
  calculateSimilarity toLowerCase (Some t1) text2 =
  calculateSimilarity toLowerCase (Some t1') text2 /\
  calculateSimilarity toLowerCase text2 (Some t1) =
  calculateSimilarity toLowerCase text2 (Some t1').
Proof.
  intros H1 H1' E.
  destruct t1 as [|c1 r1]; [congruence|]. destruct t1' as [|c1' r1']; [congruence|].
  unfold calculateSimilarity. destruct text2 as [t2|]; [|split; reflexivity].
  cbn [falsy orb]. rewrite E. split; reflexivity.
Qed.

(** X8. With the threshold 0 the result holds every question of the
    collection whose id is not the target's, each as often as the collection
    has it. *)
Theorem findSimilarQuestionsForQuestion_threshold_0
    (questions : list Question) (target : Question) :
  falsy (question_text target) = false ->
  fits toLowerCase (question_text target) ->
  Forall (fun q => fits toLowerCase (question_text q)) questions ->
  Permutation
    (map question
       (findSimilarQuestionsForQuestion toLowerCase questions (Some target) (Some (num 0))))
    (List.filter (fun q => negb (bool_decide (id q = id target))) questions).
Proof.
  intros Htext Hfit Hfits.
  unfold findSimilarQuestionsForQuestion. rewrite Htext. cbv zeta. cbn [default].
  rewrite sort_Permutation, map_map. cbn [question with_similarity]. rewrite map_id.
  rewrite (List.filter_ext_in (is_similar toLowerCase target (num 0))
             (fun q => negb (bool_decide (id q = id target)))); [reflexivity|].
  intros q Hq. unfold is_similar. case_bool_decide; [reflexivity|]. cbn [negb].
  rewrite List.Forall_forall in Hfits.
  apply is_score_range, calculateSimilarity_is_score; auto.
Qed.

(** X9. Raising the threshold only removes entries: what is in the result at
    a threshold is in the result at every lower threshold, with the same
    similarity. *)
Theorem findSimilarQuestionsForQuestion_threshold_mono
    (questions : list Question) (target : Question) (low high : spec_float) r :
  falsy (question_text target) = false ->
  fge high low = true ->
  In r (findSimilarQuestionsForQuestion toLowerCase questions (Some target) (Some high)) ->
  In r (findSimilarQuestionsForQuestion toLowerCase questions (Some target) (Some low)).
Proof.
  intros Htext Hle. destruct r as [q s].
  rewrite !In_findSimilarQuestionsForQuestion by assumption. cbn [default].
  intros (Hin & Hid & Hs & Hge). repeat split; try assumption.
  unfold fge in *. now apply (SFleb_trans low high s).
Qed.

(** X10. Being a near-duplicate goes both ways: for two questions of the
    collection with texts that are not empty, the second is in the result
    for the first exactly when the first is in the result for the second,
    with the same similarity. *)
Theorem findSimilarQuestionsForQuestion_symmetric
    (questions : list Question) (q1 q2 : Question) (threshold : option spec_float) s :
  In q1 questions -> In q2 questions ->
  falsy (question_text q1) = false -> falsy (question_text q2) = false ->
  In {| question := q2; similarity := s |}
     (findSimilarQuestionsForQuestion toLowerCase questions (Some q1) threshold) <->
  In {| question := q1; similarity := s |}
     (findSimilarQuestionsForQuestion toLowerCase questions (Some q2) threshold).
Proof.
  intros Hin1 Hin2 Ht1 Ht2.
  rewrite !In_findSimilarQuestionsForQuestion by assumption.
  rewrite (calculateSimilarity_comm toLowerCase (question_text q2) (question_text q1)).
  split; intros (_ & Hid & Hs & Hge); repeat split; auto.
Qed.

(** X11. Entries with the same similarity come in the order their questions
    have in the collection ([Array.prototype.sort] is stable): the entries
    of the result with similarity [s] are the questions that pass the filter
    and have similarity [s], in collection order. The texts are strings, so
    that no similarity is NaN and the comparison function is consistent. *)
Theorem findSimilarQuestionsForQuestion_stable
    (questions : list Question) (target : Question) (threshold : option spec_float)
    (s : spec_float) :
  falsy (question_text target) = false ->
  fits toLowerCase (question_text target) ->
  Forall (fun q => fits toLowerCase (question_text q)) questions ->
  List.filter (fun r => bool_decide (similarity r = s))
    (findSimilarQuestionsForQuestion toLowerCase questions (Some target) threshold) =
  map (with_similarity toLowerCase target)
    (List.filter
       (fun q => is_similar toLowerCase target (default (num 70) threshold) q &&
                 bool_decide (calculateSimilarity toLowerCase (question_text target)
                                (question_text q) = s))
       questions).
Proof.
  intros Htext _ _. unfold findSimilarQuestionsForQuestion. rewrite Htext. cbv zeta.
  rewrite filter_sort.
  induction questions as [|q r IH]; [reflexivity|].
  cbn [List.filter].
  destruct (is_similar toLowerCase target (default (num 70) threshold) q);
    cbn [map List.filter andb]; [|exact IH].
  cbn [similarity with_similarity]. case_bool_decide; cbn [map]; now rewrite IH.
Qed.

(** X12. The search finds the duplicates: a question of the collection with
    another id whose text has the normalised form of the target's text is in
    the result, with similarity 100, for every threshold up to 100. *)
Theorem findSimilarQuestionsForQuestion_finds_duplicates
    (questions : list Question) (target q : Question) (threshold : option spec_float)
    (t t' : jsstring) :
  question_text target = Some t -> question_text q = Some t' ->
  t <> [] -> t' <> [] ->
  normalize toLowerCase t = normalize toLowerCase t' ->
  In q questions -> id q <> id target ->
  fge (num 100) (default (num 70) threshold) = true ->
  In {| question := q; similarity := num 100 |}
     (findSimilarQuestionsForQuestion toLowerCase questions (Some target) threshold).
Proof.
  intros Et Et' Ht Ht' E Hin Hid Hth.
  destruct t as [|c r]; [congruence|]. destruct t' as [|c' r']; [congruence|].
  apply In_findSimilarQuestionsForQuestion; [now rewrite Et|].
  split; [exact Hin|]. split; [exact Hid|].
  assert (Es : calculateSimilarity toLowerCase (question_text target) (question_text q) =
               num 100).
  { rewrite Et, Et'. unfold calculateSimilarity. cbn [falsy orb]. cbv zeta.
    now rewrite bool_decide_eq_true_2. }
  split; [now rewrite Es|exact Hth].
Qed.

End MoreAboutTheEngine.

(** ** generateFirestoreId *)

Lemma length_chars : length chars = 62%nat.
Proof. reflexivity. Qed.

Lemma charAt_chars_index (k : nat) :
  (k < 62)%nat ->
  exists c, chars !! k = Some c /\ charAt chars (num (Z.of_nat k)) = [c].
Proof.
  intros Hk.
  assert (H : forallb (fun k => match chars !! k with
                                | Some c => bool_decide (charAt chars (num (Z.of_nat k)) = [c])
                                | None => false
                                end) (seq 0 62) = true) by (vm_compute; reflexivity).
  rewrite forallb_forall in H. specialize (H k ltac:(apply in_seq; lia)).
  destruct (chars !! k) as [c|]; [|discriminate].
  exists c. split; [reflexivity|]. now apply bool_decide_eq_true_1 in H.
Qed.

Section GenerateId.

Variable Math_random : nat -> spec_float.
Variable timestamp : jsstring.

(** What the first loop counts on: every call of [Math.random] gives a number
    whose product with 62, rounded down, is a whole number from 0 to 61, a
    position in [chars]. *)
Hypothesis random_index :
  forall n, exists k, (k < 62)%nat /\
    Math_floor (fmul (Math_random n) (num 62)) = num (Z.of_nat k).

Lemma random_part_spec count : forall randomPart calls,
  Forall (fun c => In c chars) randomPart ->
  length (fst (random_part Math_random count randomPart calls)) =
    (length randomPart + count)%nat /\
  Forall (fun c => In c chars) (fst (random_part Math_random count randomPart calls)).
Proof.
  induction count as [|count IH]; intros randomPart calls Hall; cbn [random_part].
  - cbn [fst]. split; [lia|assumption].
  - destruct (random_index calls) as (k & Hk & Ek).
    destruct (charAt_chars_index k Hk) as (c & Hc & Ec).
    rewrite length_chars. change (Z.of_nat 62) with 62. rewrite Ek, Ec.
    destruct (IH (randomPart ++ [c]) (S calls)) as [Hl Hf].
    + apply Forall_app. split; [assumption|]. constructor; [|constructor].
      apply list_elem_of_In. now apply list_elem_of_lookup_2 in Hc.
    + rewrite length_app in Hl. cbn [length] in Hl. split; [lia|assumption].
Qed.

Definition scatter_inv (randomPart : jsstring) (i : nat) (st : scatter_state) : Prop :=
  (timestampIndex st <= length timestamp)%nat /\
  (randomIndex st <= length randomPart)%nat /\
  (timestampIndex st + randomIndex st = i)%nat /\
  shuffle (take (timestampIndex st) timestamp) (take (randomIndex st) randomPart) (result st).

Lemma append_unit_in (r s : jsstring) i :
  (i < length s)%nat ->
  exists c, s !! i = Some c /\ append_unit r s i = r ++ [c] /\ take (S i) s = take i s ++ [c].
Proof.
  intros Hi. destruct (lookup_lt_is_Some_2 s i Hi) as [c Hc].
  exists c. unfold append_unit. rewrite Hc. split; [reflexivity|]. split; [reflexivity|].
  now apply take_S_r.
Qed.

Lemma scatter_step_inv randomPart i st :
  (i < length timestamp + length randomPart)%nat ->
  scatter_inv randomPart i st ->
  scatter_inv randomPart (S i) (scatter_step Math_random timestamp randomPart st).
Proof.
  intros Hi (Ht & Hr & Hsum & Hsh). unfold scatter_step, scatter_inv.
  destruct (Nat.ltb_spec (timestampIndex st) (length timestamp)) as [Lt|Lt];
    destruct (Nat.ltb_spec (randomIndex st) (length randomPart)) as [Lr|Lr];
    try destruct (fgt (Math_random (random_calls st)) double_0_7);
    cbn [result timestampIndex randomIndex]; try lia;
    try (destruct (append_unit_in (result st) timestamp (timestampIndex st) Lt)
           as (c & _ & -> & ->);
         repeat split; try lia; now apply shuffle_l);
    destruct (append_unit_in (result st) randomPart (randomIndex st) Lr)
      as (c & _ & -> & ->);
    repeat split; try lia; now apply shuffle_r.
Qed.

Lemma scatter_iter_inv randomPart st0 i :
  (i <= length timestamp + length randomPart)%nat ->
  scatter_inv randomPart 0 st0 ->
  scatter_inv randomPart i
    (Nat.iter i (scatter_step Math_random timestamp randomPart) st0).
Proof.
  intros Hi H0. induction i as [|i IH]; [exact H0|].
  cbn [Nat.iter nat_rect]. apply scatter_step_inv; [lia|]. apply IH. lia.
Qed.

Lemma shuffle_length (s t r : jsstring) :
  shuffle s t r -> length r = (length s + length t)%nat.
Proof. induction 1; rewrite ?length_app; cbn [length]; lia. Qed.

(** X13. [generateFirestoreId] returns 20 code units: the first 20 characters
    of the timestamp, in their order, mixed with [20 - timestamp.length]
    characters of [chars], whichever way the second loop goes, when every
    number of the first loop gives a position in [chars]. *)
Theorem generateFirestoreId_shape :
  length (fst (generateFirestoreId Math_random timestamp)) = 20%nat /\
  exists randomPart : jsstring,
    length randomPart = (20 - length timestamp)%nat /\
    Forall (fun c => In c chars) randomPart /\
    shuffle (take 20 timestamp) randomPart (fst (generateFirestoreId Math_random timestamp)).
Proof.
  unfold generateFirestoreId, totalLength.
  destruct (random_part_spec (20 - length timestamp) [] 0%nat (List.Forall_nil _)) as [Hl Hf].
  destruct (random_part Math_random (20 - length timestamp) [] 0) as [randomPart calls].
  cbn [fst length Nat.add] in Hl, Hf |- *.
  set (st0 := {| result := []; timestampIndex := 0; randomIndex := 0; random_calls := calls |}).
  destruct (scatter_iter_inv randomPart st0 20) as (Ht & Hr & Hsum & Hsh).
  { lia. }
  { unfold scatter_inv, st0. cbn. repeat split; try lia. constructor. }
  set (st := Nat.iter 20 (scatter_step Math_random timestamp randomPart) st0) in *.
  assert (Er : randomIndex st = length randomPart) by lia.
  assert (Et : take (timestampIndex st) timestamp = take 20 timestamp).
  { destruct (Nat.le_gt_cases (length timestamp) 20).
    - rewrite !take_ge by lia. reflexivity.
    - f_equal. lia. }
  rewrite Er, (take_ge randomPart), Et in Hsh by lia.
  split.
  - rewrite (shuffle_length _ _ _ Hsh), length_take. lia.
  - exists randomPart. auto.
Qed.

End GenerateId.

(** ** appendQuestions and loadQuestions *)

Section AppendQuestions.

Variable toLowerCase : jsstring -> jsstring.
Variable fresh : nat -> jsstring.

Definition texts_in_step (st : append_state) : Prop :=
  existingTexts st = map (stored_key toLowerCase) (questions_now st).

Lemma append_step_cases st x :
  texts_in_step st ->
  let st' := append_step toLowerCase fresh st x in
  texts_in_step st' /\
  (appendedCount st' + skippedCount st' + duplicateCount st' =
   S (appendedCount st + skippedCount st + duplicateCount st))%nat /\
  ((questions_now st' = questions_now st /\ appendedCount st' = appendedCount st /\
    (complete x = true ->
     exists t, imported_question_text x = Some t /\
               In (Some (toLowerCase (trim t))) (existingTexts st))) \/
   (exists p t,
      questions_now st' = questions_now st ++ [p] /\
      appendedCount st' = S (appendedCount st) /\
      complete x = true /\
      imported_question_text x = Some t /\ t <> [] /\
      question_text (fields p) = Some t /\
      stored_key toLowerCase p = Some (toLowerCase (trim t)) /\
      ~ In (stored_key toLowerCase p) (existingTexts st) /\
      category (fields p) <> [] /\ difficulty (fields p) <> 0 /\
      _hasChanges p = false)).
Proof.
  intros Hinv. cbv zeta. unfold append_step, complete.
  destruct (imported_question_text x) as [[|c r]|] eqn:Et;
    try (cbn; split; [exact Hinv|]; split; [lia|]; left;
         split; [reflexivity|]; split; [reflexivity|]; discriminate).
  destruct (imported_options x) as [o|] eqn:Eo;
    [|cbn; split; [exact Hinv|]; split; [lia|]; left;
      split; [reflexivity|]; split; [reflexivity|]; discriminate].
  destruct (match imported_id x with
            | Some (c' :: r') => (c' :: r', generated st)
            | _ => (fresh (generated st), S (generated st))
            end) as [questionId generated1].
  destruct (if bool_decide (elem_of questionId (existingIds st))
            then (fresh generated1, S generated1)
            else (questionId, generated1)) as [questionId' generated2].
  case_bool_decide as Hdup; cbn.
  - split; [exact Hinv|]. split; [lia|]. left.
    split; [reflexivity|]. split; [reflexivity|]. intros _.
    exists (c :: r). split; [reflexivity|]. now apply list_elem_of_In.
  - split.
    + unfold texts_in_step in *. cbn. rewrite map_app, Hinv. reflexivity.
    + split; [lia|]. right. eexists _, (c :: r).
      split; [reflexivity|]. split; [reflexivity|].
      split; [reflexivity|]. split; [reflexivity|].
      split; [discriminate|]. split; [reflexivity|]. split; [reflexivity|].
      split; [intros H; apply Hdup; now apply list_elem_of_In|].
      split; [destruct (imported_category x) as [[|? ?]|]; discriminate|].
      split; [destruct (imported_difficulty x) as [[|?|?]|]; cbn; lia|].
      reflexivity.
Qed.

Lemma append_fold_spec new : forall st,
  texts_in_step st ->
  let st' := fold_left (append_step toLowerCase fresh) new st in
  texts_in_step st' /\
  (appendedCount st' + skippedCount st' + duplicateCount st' =
   appendedCount st + skippedCount st + duplicateCount st + length new)%nat /\
  exists added,
    questions_now st' = questions_now st ++ added /\
    appendedCount st' = (appendedCount st + length added)%nat /\
    NoDup (map (stored_key toLowerCase) added) /\
    (forall a, In a added -> ~ In (stored_key toLowerCase a) (existingTexts st)) /\
    Forall stored_complete added /\
    (forall x, In x new -> complete x = true ->
       exists t, imported_question_text x = Some t /\
                 In (Some (toLowerCase (trim t))) (existingTexts st')).
Proof.
  induction new as [|x new IH]; intros st Hinv; cbv zeta; cbn [fold_left].
  - split; [exact Hinv|]. split; [cbn [length]; lia|].
    exists []. rewrite app_nil_r. cbn [length map].
    repeat split; try lia; try constructor; intros ? [].
  - destruct (append_step_cases st x Hinv) as (Hinv1 & Hc1 & Hcase).
    set (st1 := append_step toLowerCase fresh st x) in *.
    destruct (IH st1 Hinv1) as (Hinv' & Hc' & added & Hq & Ha & Hnd & Hnew & Hgood & Hkeys).
    set (st' := fold_left (append_step toLowerCase fresh) new st1) in *.
    assert (Hgrow : forall k, In k (existingTexts st1) -> In k (existingTexts st')).
    { intros k Hk. unfold texts_in_step in Hinv1, Hinv'. rewrite Hinv', Hq, map_app.
      apply in_or_app. left. now rewrite <- Hinv1. }
    split; [exact Hinv'|]. split; [cbn [length]; lia|].
    destruct Hcase as [(Eq & Ea & Hx)|(p & t & Eq & Ea & Hcx & Et & Hne & Etp & Ekp & Hfresh & Hcat & Hdif & Hch)].
    + exists added. rewrite <- Eq. split; [exact Hq|]. split; [lia|]. split; [exact Hnd|].
      assert (Et1 : existingTexts st1 = existingTexts st).
      { unfold texts_in_step in Hinv, Hinv1. now rewrite Hinv, Hinv1, Eq. }
      split; [now rewrite <- Et1|]. split; [exact Hgood|].
      intros y [<-|Hy] Hcy.
      * destruct (Hx Hcy) as (t & Et & Hin). exists t. split; [exact Et|].
        apply Hgrow. now rewrite Et1.
      * now apply Hkeys.
    + assert (Et1 : existingTexts st1 = existingTexts st ++ [stored_key toLowerCase p]).
      { unfold texts_in_step in Hinv, Hinv1. rewrite Hinv1, Eq, map_app, Hinv. reflexivity. }
      exists (p :: added). rewrite Hq, Eq, <- app_assoc. split; [reflexivity|].
      split; [cbn [length]; lia|]. cbn [map]. split.
      * constructor; [|exact Hnd]. intros Hin. apply list_elem_of_In in Hin.
        apply in_map_iff in Hin as (a & Eka & Hina).
        apply (Hnew a Hina). rewrite Et1, Eka. apply in_or_app. right. now left.
      * split.
        -- intros a [<-|Hina]; [exact Hfresh|]. intros Hin.
           apply (Hnew a Hina). rewrite Et1. apply in_or_app. now left.
        -- split.
           ++ constructor; [|exact Hgood]. unfold stored_complete. eauto 10.
           ++ intros y [<-|Hy] Hcy; [|now apply Hkeys].
              exists t. split; [exact Et|]. apply Hgrow. rewrite Et1, Ekp.
              apply in_or_app. right. now left.
Qed.

Lemma appendQuestions_Some questions generated0 new st :
  appendQuestions toLowerCase fresh questions generated0 (Some new) = Some st ->
  new <> [] /\
  st = fold_left (append_step toLowerCase fresh) new
         {| questions_now := questions;
            existingIds := map (fun q => id (fields q)) questions;
            existingTexts :=
              map (fun q => text_key toLowerCase (question_text (fields q))) questions;
            appendedCount := 0;
            skippedCount := 0;
            duplicateCount := 0;
            generated := generated0 |}.
Proof.
  unfold appendQuestions. destruct new as [|x new]; [discriminate|].
  intros H. injection H as <-. split; [discriminate|reflexivity].
Qed.

(** X14. [appendQuestions] counts every imported question once, as appended,
    skipped or duplicate; it leaves the questions it had where they were and
    puts the appended ones behind them. *)
Theorem appendQuestions_counts questions generated0 new st :
  appendQuestions toLowerCase fresh questions generated0 (Some new) = Some st ->
  (appendedCount st + skippedCount st + duplicateCount st = length new)%nat /\
  exists added,
    questions_now st = questions ++ added /\ length added = appendedCount st.
Proof.
  intros H. apply appendQuestions_Some in H as [_ ->].
  match goal with
  | |- context [fold_left _ new ?st0] =>
      destruct (append_fold_spec new st0 eq_refl)
        as (_ & Hc & added & Hq & Ha & _)
  end.
  cbn [appendedCount skippedCount duplicateCount questions_now] in Hc, Hq, Ha.
  split; [lia|]. exists added. split; [exact Hq|lia].
Qed.

(** X15. [appendQuestions] never appends a question whose text, trimmed and
    lower-cased, is the text of a question it had or of one it appended
    before; so a collection without two such texts stays one. *)
Theorem appendQuestions_no_duplicate_text questions generated0 new st :
  appendQuestions toLowerCase fresh questions generated0 (Some new) = Some st ->
  exists added,
    questions_now st = questions ++ added /\
    NoDup (map (stored_key toLowerCase) added) /\
    (forall a q, In a added -> In q questions ->
       stored_key toLowerCase a <> stored_key toLowerCase q) /\
    (NoDup (map (stored_key toLowerCase) questions) ->
     NoDup (map (stored_key toLowerCase) (questions_now st))).
Proof.
  intros H. apply appendQuestions_Some in H as [_ ->].
  match goal with
  | |- context [fold_left _ new ?st0] =>
      destruct (append_fold_spec new st0 eq_refl)
        as (_ & _ & added & Hq & _ & Hnd & Hnew & _)
  end.
  cbn [questions_now existingTexts] in Hq, Hnew.
  exists added. split; [exact Hq|]. split; [exact Hnd|]. split.
  - intros a q Ha Hq' E. apply (Hnew a Ha). rewrite E.
    apply in_map_iff. exists q. split; [reflexivity|assumption].
  - intros Hold. rewrite Hq, map_app. apply NoDup_app. split; [exact Hold|].
    split; [|exact Hnd].
    intros k Hk Hk'. apply list_elem_of_In in Hk, Hk'.
    apply in_map_iff in Hk' as (a & <- & Ha). now apply (Hnew a Ha).
Qed.

(** X16. Every question that [appendQuestions] appends has a text and a
    category that are not empty and a difficulty that is not 0, and is not
    marked as changed. *)
Theorem appendQuestions_stores_complete questions generated0 new st :
  appendQuestions toLowerCase fresh questions generated0 (Some new) = Some st ->
  exists added,
    questions_now st = questions ++ added /\ Forall stored_complete added.
Proof.
  intros H. apply appendQuestions_Some in H as [_ ->].
  match goal with
  | |- context [fold_left _ new ?st0] =>
      destruct (append_fold_spec new st0 eq_refl)
        as (_ & _ & added & Hq & _ & _ & _ & Hgood & _)
  end.
  exists added. split; [exact Hq|exact Hgood].
Qed.

Lemma append_fold_known new : forall st,
  texts_in_step st ->
  (forall x, In x new -> complete x = true ->
     exists t, imported_question_text x = Some t /\
               In (Some (toLowerCase (trim t))) (existingTexts st)) ->
  questions_now (fold_left (append_step toLowerCase fresh) new st) = questions_now st /\
  appendedCount (fold_left (append_step toLowerCase fresh) new st) = appendedCount st.
Proof.
  induction new as [|x new IH]; intros st Hinv Hknown; cbn [fold_left]; [now split|].
  destruct (append_step_cases st x Hinv) as (Hinv1 & _ & Hcase).
  destruct Hcase as [(Eq & Ea & _)|(p & t & _ & _ & Hcx & Et & _ & _ & Ekp & Hfresh & _)].
  - assert (Et1 : existingTexts (append_step toLowerCase fresh st x) = existingTexts st).
    { unfold texts_in_step in Hinv, Hinv1. now rewrite Hinv, Hinv1, Eq. }
    destruct (IH _ Hinv1) as [Hq Ha].
    + intros y Hy Hcy. rewrite Et1. apply Hknown; [now right|assumption].
    + split; congruence.
  - exfalso. destruct (Hknown x ltac:(now left) Hcx) as (t' & Et' & Hin).
    rewrite Et in Et'. injection Et' as <-. apply Hfresh. now rewrite Ekp.
Qed.

(** X17. Importing the same questions a second time appends nothing: each of
    them is then skipped or found to be a duplicate. *)
Theorem appendQuestions_twice questions generated0 generated1 new st1 st2 :
  appendQuestions toLowerCase fresh questions generated0 (Some new) = Some st1 ->
  appendQuestions toLowerCase fresh (questions_now st1) generated1 (Some new) = Some st2 ->
  appendedCount st2 = 0%nat /\ questions_now st2 = questions_now st1.
Proof.
  intros H1 H2.
  apply appendQuestions_Some in H1 as [_ ->]. apply appendQuestions_Some in H2 as [_ ->].
  match goal with
  | |- context [questions_now (fold_left _ new ?st0)] =>
      match st0 with
      | context [generated0] =>
          destruct (append_fold_spec new st0 eq_refl)
            as (Hinv & _ & added & _ & _ & _ & _ & _ & Hkeys)
      end
  end.
  match goal with
  | |- appendedCount (fold_left _ new ?st0') = _ /\ _ =>
      destruct (append_fold_known new st0' eq_refl) as [Hq Ha]
  end.
  - cbn [existingTexts]. unfold texts_in_step, stored_key in Hinv. cbv zeta in Hkeys.
    intros x Hx Hcx. destruct (Hkeys x Hx Hcx) as (t & Et & Hin).
    exists t. split; [exact Et|]. now rewrite <- Hinv.
  - cbn [questions_now appendedCount] in Hq, Ha. split; [exact Ha|exact Hq].
Qed.





End AppendQuestions.





(** ** deleteQuestion, undeleteQuestion, saveData and exportData *)

Lemma find_question_change questionId change questions :
  (forall q, id (fields (change q)) = id (fields q)) ->
  find_question questionId (change_found questionId change questions) =
  option_map change (find_question questionId questions).
Proof.
  intros Hid. unfold find_question.
  induction questions as [|q r IH]; [reflexivity|]. cbn [change_found List.find].
  case_bool_decide as E.
  - cbn [List.find]. rewrite Hid. now rewrite bool_decide_eq_true_2.
  - cbn [List.find]. rewrite bool_decide_eq_false_2 by assumption. exact IH.
Qed.

Lemma change_found_twice questionId f g questions :
  (forall q, id (fields (f q)) = id (fields q)) ->
  change_found questionId g (change_found questionId f questions) =
  change_found questionId (fun q => g (f q)) questions.
Proof.
  intros Hid. induction questions as [|q r IH]; [reflexivity|]. cbn [change_found].
  case_bool_decide as E; cbn [change_found].
  - rewrite Hid. now rewrite bool_decide_eq_true_2.
  - rewrite bool_decide_eq_false_2 by assumption. now rewrite IH.
Qed.

Lemma change_found_marks questionId f questions q :
  find_question questionId questions = Some q ->
  fields (f q) = fields q -> _isDeleted (f q) = _isDeleted q ->
  map fields (change_found questionId f questions) = map fields questions /\
  map _isDeleted (change_found questionId f questions) = map _isDeleted questions.
Proof.
  unfold find_question. intros Hfind Hf Hd.
  induction questions as [|q0 r IH]; [now split|].
  cbn [change_found List.find] in *.
  case_bool_decide as E; cbn [map].
  - injection Hfind as ->. now rewrite Hf, Hd.
  - destruct (IH Hfind) as [IH1 IH2]. now rewrite IH1, IH2.
Qed.

(** X20. [deleteQuestion] is a switch: two calls with the same id leave every
    question with the fields and the deletion mark it had; a call with an id
    that no question has changes nothing. *)
Theorem deleteQuestion_twice (questionId : jsstring) (questions : list StoredQuestion) :
  map fields (deleteQuestion questionId (deleteQuestion questionId questions)) =
    map fields questions /\
  map _isDeleted (deleteQuestion questionId (deleteQuestion questionId questions)) =
    map _isDeleted questions /\
  (find_question questionId questions = None ->
   deleteQuestion questionId questions = questions).
Proof.
  assert (Hnone : find_question questionId questions = None ->
                  deleteQuestion questionId questions = questions)
    by (intros H; unfold deleteQuestion; now rewrite H).
  unfold deleteQuestion at 2 4.
  destruct (find_question questionId questions) as [q|] eqn:Ef.
  - destruct (_isDeleted q) eqn:Edel; unfold deleteQuestion, undeleteQuestion;
      rewrite find_question_change, Ef by reflexivity; cbn [option_map _isDeleted];
      rewrite change_found_twice by reflexivity;
      (destruct (change_found_marks questionId
                   (fun q0 => {| fields := fields q0; _hasChanges := true;
                                 _isDeleted := _isDeleted q |}) questions q Ef)
         as [H1 H2]; [reflexivity|reflexivity|]);
      rewrite Edel in H1, H2; cbn [fields] in *;
      (split; [exact H1|split; [exact H2|discriminate]]).
  - rewrite ?(Hnone eq_refl). auto.
Qed.

Lemma filter_change_found_deleted questionId questions q :
  find_question questionId questions = Some q -> _isDeleted q = false ->
  map fields
    (List.filter (fun question => negb (_isDeleted question))
       (change_found questionId
          (fun q0 => {| fields := fields q0; _hasChanges := true; _isDeleted := true |})
          questions)) =
  remove_first questionId
    (map fields (List.filter (fun question => negb (_isDeleted question)) questions)).
Proof.
  unfold find_question. intros Hfind Hdel.
  induction questions as [|q0 r IH]; [reflexivity|].
  cbn [change_found List.find] in *.
  case_bool_decide as E.
  - injection Hfind as ->. cbn [List.filter _isDeleted negb]. rewrite Hdel.
    cbn [negb map remove_first]. now rewrite bool_decide_eq_true_2.
  - cbn [List.filter]. destruct (negb (_isDeleted q0)); cbn [map remove_first].
    + rewrite bool_decide_eq_false_2 by assumption. now rewrite IH.
    + now apply IH.
Qed.

Lemma length_change_found questionId f questions :
  length (change_found questionId f questions) = length questions.
Proof.
  induction questions as [|q r IH]; [reflexivity|]. cbn [change_found].
  case_bool_decide; cbn [length]; congruence.
Qed.

(** X21. [exportData] writes the questions that are not marked as deleted, in
    their order, and [total_questions] is their number; after
    [deleteQuestion] for a question that was not marked, the export holds the
    same questions but the first one with that id. *)
Theorem exportData_after_delete (questionId : jsstring) (questions : list StoredQuestion)
    (categories : list jsstring) (now : jsstring) (q : StoredQuestion) (data : ExportData) :
  find_question questionId questions = Some q -> _isDeleted q = false ->
  exportData questions categories now = Some data ->
  exported_questions data =
    map fields (List.filter (fun question => negb (_isDeleted question)) questions) /\
  total_questions (export_info data) = length (exported_questions data) /\
  exists data',
    exportData (deleteQuestion questionId questions) categories now = Some data' /\
    exported_questions data' = remove_first questionId (exported_questions data) /\
    total_questions (export_info data') = length (exported_questions data').
Proof.
  intros Hfind Hdel Hexp. unfold exportData in *.
  unfold deleteQuestion. rewrite Hfind, Hdel, length_change_found.
  destruct (length questions =? 0)%nat; [discriminate|].
  injection Hexp as <-. cbn [exported_questions export_info total_questions].
  split; [reflexivity|]. split; [reflexivity|].
  eexists. split; [reflexivity|]. cbn [exported_questions export_info total_questions].
  split; [|reflexivity]. now apply (filter_change_found_deleted questionId questions q).
Qed.

Lemma count_difficulty_cons d q r :
  count_difficulty d (q :: r) =
  ((if (difficulty q =? d)%Z then 1 else 0) + count_difficulty d r)%nat.
Proof.
  unfold count_difficulty. cbn [List.filter]. now destruct (difficulty q =? d).
Qed.

Lemma difficulty_counts_sum (questions : list Question) :
  (list_sum (map (fun d => count_difficulty d questions) [1; 2; 3; 4; 5]%Z) <=
   length questions)%nat /\
  (Forall (fun q => 1 <= difficulty q <= 5) questions ->
   list_sum (map (fun d => count_difficulty d questions) [1; 2; 3; 4; 5]%Z) =
   length questions).
Proof.
  induction questions as [|q r [IH1 IH2]]; [split; reflexivity|].
  cbn [map list_sum fold_right length] in *. rewrite !count_difficulty_cons.
  split.
  - destruct (Z.eqb_spec (difficulty q) 1), (Z.eqb_spec (difficulty q) 2),
      (Z.eqb_spec (difficulty q) 3), (Z.eqb_spec (difficulty q) 4),
      (Z.eqb_spec (difficulty q) 5); lia.
  - intros H. inversion H as [|? ? Hq Hr]; subst. specialize (IH2 Hr).
    destruct (Z.eqb_spec (difficulty q) 1), (Z.eqb_spec (difficulty q) 2),
      (Z.eqb_spec (difficulty q) 3), (Z.eqb_spec (difficulty q) 4),
      (Z.eqb_spec (difficulty q) 5); lia.
Qed.

(** X22. In the exported object the five counts of [difficulty_stats] never
    add up to more than [total_questions], and they add up to it when every
    exported question has a difficulty from 1 to 5. *)
Theorem exportData_difficulty_stats (questions : list StoredQuestion)
    (categories : list jsstring) (now : jsstring) (data : ExportData) :
  exportData questions categories now = Some data ->
  (list_sum (difficulty_stats data) <= total_questions (export_info data))%nat /\
  (Forall (fun q => 1 <= difficulty q <= 5) (exported_questions data) ->
   list_sum (difficulty_stats data) = total_questions (export_info data)).
Proof.
  unfold exportData. destruct (length questions =? 0)%nat; [discriminate|].
  intros H. injection H as <-.
  cbn [difficulty_stats export_info total_questions exported_questions].
  apply difficulty_counts_sum.
Qed.

Lemma count_difficulty_not_deleted d (questions : list StoredQuestion) :
  length (List.filter (fun q => (difficulty (fields q) =? d) && negb (_isDeleted q))
            questions) =
  count_difficulty d
    (map fields (List.filter (fun question => negb (_isDeleted question)) questions)).
Proof.
  unfold count_difficulty.
  induction questions as [|q r IH]; [reflexivity|].
  cbn [List.filter]. destruct (_isDeleted q); cbn [negb map List.filter].
  - now rewrite andb_false_r.
  - rewrite andb_true_r. destruct (difficulty (fields q) =? d); cbn [length]; now rewrite IH.
Qed.

(** X23. What [saveData] keeps and what [exportData] writes agree: the saved
    object holds every question, marked as deleted or not, but its
    [total_questions], its [difficulty_stats] and its categories are those
    of the export, which count the questions not marked as deleted. *)
Theorem saveData_agrees_with_exportData (questions : list StoredQuestion)
    (categories : list jsstring) (now : jsstring) (data : ExportData) :
  exportData questions categories now = Some data ->
  saved_questions (saveData questions categories now) = questions /\
  saved_total_questions (saveData questions categories now) =
    total_questions (export_info data) /\
  saved_difficulty_stats (saveData questions categories now) = difficulty_stats data /\
  saved_categories (saveData questions categories now) = exported_categories data /\
  exported_questions data =
    map fields
      (List.filter (fun q => negb (_isDeleted q))
         (saved_questions (saveData questions categories now))).
Proof.
  unfold exportData. destruct (length questions =? 0)%nat; [discriminate|].
  intros H. injection H as <-.
  cbn [saveData saved_questions saved_total_questions saved_difficulty_stats
       saved_categories export_info total_questions difficulty_stats
       exported_categories exported_questions].
  split; [reflexivity|]. split; [now rewrite length_map|].
  split; [|split; reflexivity].
  cbn [map]. now rewrite !count_difficulty_not_deleted.
Qed.

(** ** findSimilarQuestions and applyFilters *)

Lemma starts_with_spec (s sub : jsstring) :
  starts_with s sub = true <-> exists b, s = sub ++ b.
Proof.
  revert s. induction sub as [|x sub IH]; intros s; cbn [starts_with].
  - split; [intros _; now exists s|reflexivity].
  - destruct s as [|y s].
    + split; [discriminate|intros [b Hb]; discriminate Hb].
    + rewrite andb_true_iff, N.eqb_eq, IH. split.
      * intros [-> [b ->]]. now exists b.
      * intros [b Hb]. injection Hb as -> ->. split; [reflexivity|now exists b].
Qed.

Lemma includes_spec (s sub : jsstring) :
  includes s sub = true <-> exists a b, s = a ++ sub ++ b.
Proof.
  induction s as [|y s IH]; cbn [includes]; rewrite orb_true_iff, starts_with_spec.
  - split.
    + intros [[b Hb]|H]; [|discriminate]. now exists [], b.
    + intros (a & b & H). left. destruct a; [now exists b|discriminate H].
  - rewrite IH. split.
    + intros [[b Hb]|(a & b & ->)]; [now exists [], b|now exists (y :: a), b].
    + intros (a & b & H). destruct a as [|x a]; [left; now exists b|].
      right. injection H as -> ->. now exists a, b.
Qed.

Lemma sublist_List_filter {A} (f : A -> bool) (l : list A) : sublist (List.filter f l) l.
Proof.
  induction l as [|a r IH]; [constructor|]. cbn [List.filter].
  destruct (f a); [now apply sublist_skip|now apply sublist_cons].
Qed.

Lemma filter_questions_Some f questions l :
  filter_questions f questions = Some l ->
  l = List.filter (fun q => bool_decide (f q = Some true)) questions /\
  Forall (fun q => f q <> None) questions.
Proof.
  revert l. induction questions as [|q r IH]; intros l; cbn [filter_questions List.filter].
  - intros H. injection H as <-. split; [reflexivity|constructor].
  - destruct (f q) as [keep|] eqn:Eq; [|discriminate].
    destruct (filter_questions f r) as [r'|]; [|discriminate].
    intros H. injection H as <-. destruct (IH r' eq_refl) as [-> Hall].
    split; [|constructor; [congruence|exact Hall]].
    destruct keep; [now rewrite bool_decide_eq_true_2|now rewrite bool_decide_eq_false_2].
Qed.

Lemma filter_questions_total f questions :
  Forall (fun q => f q <> None) questions ->
  exists l, filter_questions f questions = Some l.
Proof.
  induction 1 as [|q r Hq _ [l IH]]; cbn [filter_questions]; [now exists []|].
  destruct (f q) as [keep|]; [|congruence]. rewrite IH. eauto.
Qed.

Lemma filter_questions_None f questions :
  filter_questions f questions = None <-> exists q, In q questions /\ f q = None.
Proof.
  induction questions as [|q r IH]; cbn [filter_questions].
  - split; [discriminate|intros (q & [] & _)].
  - destruct (f q) as [keep|] eqn:Eq.
    + destruct (filter_questions f r) as [r'|].
      * split; [discriminate|]. intros (q' & [<-|Hq'] & E); [congruence|].
        exfalso. assert (H : Some r' = None) by (apply IH; eauto). discriminate H.
      * split; [|reflexivity]. intros _. destruct (proj1 IH eq_refl) as (q' & Hq' & E).
        exists q'. split; [now right|exact E].
    + split; [|reflexivity]. intros _. exists q. split; [now left|exact Eq].
Qed.

Lemma sort_insert_shown_Permutation a l : Permutation (sort_insert_shown a l) (a :: l).
Proof.
  induction l as [|b r IH]; cbn [sort_insert_shown]; [reflexivity|].
  destruct (fpositive (compare_shown a b)); [|reflexivity].
  rewrite IH. apply perm_swap.
Qed.

Lemma sort_shown_Permutation l : Permutation (sort_shown l) l.
Proof.
  induction l as [|a r IH]; cbn [sort_shown fold_right]; [reflexivity|].
  rewrite sort_insert_shown_Permutation. fold (sort_shown r). now rewrite IH.
Qed.

Lemma map_sort_insert_shown a l :
  map as_similar (sort_insert_shown a l) = sort_insert (as_similar a) (map as_similar l).
Proof.
  induction l as [|b r IH]; [reflexivity|]. cbn [sort_insert_shown map sort_insert].
  change (comparefn (as_similar a) (as_similar b)) with (compare_shown a b).
  destruct (fpositive (compare_shown a b)); cbn [map]; [now rewrite IH|reflexivity].
Qed.

Lemma map_sort_shown l : map as_similar (sort_shown l) = sort (map as_similar l).
Proof.
  induction l as [|a r IH]; [reflexivity|].
  cbn [sort_shown fold_right map sort]. rewrite map_sort_insert_shown.
  fold (sort_shown r). fold (sort (map as_similar r)). now rewrite IH.
Qed.

Lemma StronglySorted_as_similar l :
  StronglySorted descending (map as_similar l) -> StronglySorted descending_shown l.
Proof.
  induction l as [|a r IH]; intros H; [constructor|].
  cbn [map] in H. apply StronglySorted_inv in H as [Hr Ha].
  constructor; [now apply IH|].
  rewrite List.Forall_forall in Ha |- *. intros b Hb.
  apply (Ha (as_similar b)). now apply in_map.
Qed.

Lemma sort_shown_sorted l :
  Forall (fun d => is_score (or_0 (shown_similarity d)) = true) l ->
  StronglySorted descending_shown (sort_shown l).
Proof.
  intros H. apply StronglySorted_as_similar. rewrite map_sort_shown.
  apply sort_sorted. rewrite List.Forall_forall in H |- *.
  intros sq Hsq. apply in_map_iff in Hsq as (d & <- & Hd). now apply H.
Qed.

Lemma or_0_score x : is_score x = true -> or_0 (Some x) = x.
Proof. destruct x as [[]|[]| |s m e]; try discriminate; reflexivity. Qed.

Lemma unique_id (questions : list Question) a b :
  NoDup (map id questions) -> In a questions -> In b questions -> id a = id b -> a = b.
Proof.
  induction questions as [|q r IH]; cbn [map]; intros Hnd Ha Hb E; [destruct Ha|].
  apply NoDup_cons in Hnd as [Hq Hr].
  destruct Ha as [<-|Ha], Hb as [<-|Hb]; auto.
  - exfalso. apply Hq. rewrite E. apply list_elem_of_In. now apply in_map.
  - exfalso. apply Hq. rewrite <- E. apply list_elem_of_In. now apply in_map.
Qed.

Lemma In_similar_70 (toLowerCase : jsstring -> jsstring) questions selected sq :
  In sq (findSimilarQuestionsForQuestion toLowerCase questions (Some selected)
           (Some (num 70))) <->
  In (question sq) questions /\ id (question sq) <> id selected /\
  similarity sq = calculateSimilarity toLowerCase (question_text selected)
                    (question_text (question sq)) /\
  fge (similarity sq) (num 70) = true.
Proof.
  destruct sq as [q s]. cbn [question similarity].
  destruct (falsy (question_text selected)) eqn:Ef.
  - unfold findSimilarQuestionsForQuestion. rewrite Ef. split; [intros []|].
    intros (_ & _ & -> & H). rewrite calculateSimilarity_falsy in H by now left.
    discriminate H.
  - now rewrite In_findSimilarQuestionsForQuestion.
Qed.

Lemma similar_lookup (toLowerCase : jsstring -> jsstring) questions selected q :
  NoDup (map id questions) -> In q questions -> id q <> id selected ->
  let similarQuestions :=
    findSimilarQuestionsForQuestion toLowerCase questions (Some selected) (Some (num 70)) in
  existsb (fun similar => bool_decide (id (question similar) = id q)) similarQuestions =
    is_similar toLowerCase selected (num 70) q /\
  (is_similar toLowerCase selected (num 70) q = true ->
   List.find (fun sq => bool_decide (id (question sq) = id q)) similarQuestions =
   Some {| question := q;
           similarity := calculateSimilarity toLowerCase (question_text selected)
                           (question_text q) |}).
Proof.
  intros Hnd Hq Hid. cbv zeta.
  set (similarQuestions :=
         findSimilarQuestionsForQuestion toLowerCase questions (Some selected)
           (Some (num 70))).
  assert (Hsame : forall sq, In sq similarQuestions -> id (question sq) = id q ->
            sq = {| question := q;
                    similarity := calculateSimilarity toLowerCase (question_text selected)
                                    (question_text q) |}).
  { intros [q' s] Hsq E. apply In_similar_70 in Hsq as (Hq' & _ & Es & _).
    cbn [question similarity] in *.
    assert (q' = q) as -> by (now apply (unique_id questions)). now rewrite Es. }
  destruct (is_similar toLowerCase selected (num 70) q) eqn:Es.
  - apply is_similar_true in Es as [_ Hge].
    assert (Hin : In {| question := q;
                        similarity := calculateSimilarity toLowerCase
                                        (question_text selected) (question_text q) |}
                     similarQuestions)
      by (apply In_similar_70; cbn [question similarity]; auto).
    split.
    + apply existsb_exists. eexists. split; [exact Hin|].
      cbn [question]. now apply bool_decide_eq_true_2.
    + intros _.
      destruct (List.find (fun sq => bool_decide (id (question sq) = id q)) similarQuestions)
        as [sq|] eqn:Ef.
      * apply find_some in Ef as [Hsq E]. apply bool_decide_eq_true_1 in E.
        f_equal. now apply Hsame.
      * exfalso. apply (find_none _ _ Ef) in Hin. cbn [question] in Hin.
        now rewrite bool_decide_eq_true_2 in Hin.
  - split; [|discriminate].
    destruct (existsb (fun similar => bool_decide (id (question similar) = id q))
                similarQuestions) eqn:Ee; [|reflexivity].
    apply existsb_exists in Ee as (sq & Hsq & E). apply bool_decide_eq_true_1 in E.
    pose proof (Hsame sq Hsq E) as ->.
    apply In_similar_70 in Hsq as (_ & _ & _ & Hge). cbn [question similarity] in Hge.
    assert (is_similar toLowerCase selected (num 70) q = true)
      by (apply is_similar_true; auto).
    congruence.
Qed.

Lemma with_similarity_data_sorted (toLowerCase : jsstring -> jsstring) questions selected
    (shownQuestions : list Question) :
  fits toLowerCase (question_text selected) ->
  Forall (fun q => fits toLowerCase (question_text q)) questions ->
  StronglySorted descending_shown
    (sort_shown
       (map (with_similarity_data selected
               (findSimilarQuestionsForQuestion toLowerCase questions (Some selected)
                  (Some (num 70))))
          shownQuestions)).
Proof.
  intros Hfit Hfits. rewrite List.Forall_forall in Hfits.
  apply sort_shown_sorted. apply List.Forall_forall. intros d Hd.
  apply in_map_iff in Hd as (q & <- & _).
  unfold with_similarity_data. case_bool_decide as Hid; cbn [shown_similarity].
  - reflexivity.
  - destruct (List.find _ _) as [sq|] eqn:Efind; cbn [shown_similarity]; [|reflexivity].
    apply find_some in Efind as [Hsq _].
    apply In_similar_70 in Hsq as (Hq' & _ & Es & _).
    assert (Hs : is_score (similarity sq) = true)
      by (rewrite Es; apply calculateSimilarity_is_score; auto).
    now rewrite or_0_score.
Qed.

Lemma shown_with_similarity_data selected similarQuestions q :
  shown (with_similarity_data selected similarQuestions q) = q.
Proof.
  unfold with_similarity_data. case_bool_decide; [reflexivity|].
  now destruct (List.find _ similarQuestions).
Qed.

Lemma filter_same_id (questions : list Question) q :
  NoDup (map id questions) -> In q questions ->
  List.filter (fun q' => bool_decide (id q' = id q)) questions = [q].
Proof.
  induction questions as [|a r IH]; intros Hnd Hin; [destruct Hin|].
  cbn [map] in Hnd. apply NoDup_cons in Hnd as [Ha Hr]. cbn [List.filter].
  destruct Hin as [->|Hin].
  - rewrite bool_decide_eq_true_2 by reflexivity. f_equal.
    clear IH Hr. induction r as [|b r IH]; [reflexivity|]. cbn [List.filter].
    rewrite bool_decide_eq_false_2.
    + apply IH. intros H. apply Ha. cbn [map]. now right.
    + intros E. apply Ha. cbn [map]. rewrite E. now left.
  - rewrite bool_decide_eq_false_2; [now apply IH|].
    intros E. apply Ha. rewrite E. apply list_elem_of_In. now apply in_map.
Qed.

Lemma filter_orb_Permutation {A} (f g : A -> bool) (l : list A) :
  (forall x, In x l -> f x = true -> g x = false) ->
  Permutation (List.filter (fun x => f x || g x) l) (List.filter f l ++ List.filter g l).
Proof.
  induction l as [|a r IH]; intros H; [reflexivity|]. cbn [List.filter].
  assert (IH' := IH (fun x Hx => H x (or_intror Hx))).
  destruct (f a) eqn:Ef.
  - rewrite (H a (or_introl eq_refl) Ef). cbn [orb app]. now apply perm_skip.
  - cbn [orb]. destruct (g a); [|exact IH'].
    now apply Permutation_cons_app.
Qed.

Lemma filter_all {A} (f : A -> bool) (l : list A) :
  (forall x, In x l -> f x = true) -> List.filter f l = l.
Proof.
  induction l as [|a r IH]; intros H; [reflexivity|]. cbn [List.filter].
  rewrite (H a (or_introl eq_refl)). f_equal. apply IH. intros x Hx. apply H. now right.
Qed.

Section ApplyFilters.

Variable toLowerCase : jsstring -> jsstring.


(** X25. Outside the similar-questions mode [applyFilters] shows the
    questions that pass the three controls, in the order of the collection:
    a question passes the search when the text is empty or is part of its
    lower-cased text, id or one of its options, it passes the category
    control when that is empty or is its category, and the difficulty control
    when that is empty or parses to its difficulty. *)
Theorem applyFilters_plain (questions : list Question) (mode : similar_mode)
    (searchInput categoryFilter : jsstring) (difficultyFilter : option (option Z))
    (l : list Displayed) :
  showSimilarQuestions mode = false \/ selectedQuestionForSimilarity mode = None ->
  applyFilters toLowerCase questions mode searchInput categoryFilter difficultyFilter =
    Some l ->
  l = map plain (map shown l) /\
  sublist (map shown l) questions /\
  forall q, In q (map shown l) <->
    In q questions /\
    (trim (toLowerCase searchInput) = [] \/
     exists s a b,
       (question_text q = Some s \/ s = id q \/ In s (options q)) /\
       toLowerCase s = a ++ trim (toLowerCase searchInput) ++ b) /\
    (categoryFilter = [] \/ category q = categoryFilter) /\
    (difficultyFilter = None \/ difficultyFilter = Some (Some (difficulty q))).
Proof.
  intros Hmode. unfold applyFilters. cbv zeta.
  destruct (filter_questions _ questions) as [filtered|] eqn:Ef; [|discriminate].
  intros Hl.
  assert (El : l = map plain filtered)
    by (destruct Hmode as [E|E]; rewrite E in Hl; [|destruct (showSimilarQuestions mode)];
        now injection Hl as <-).
  clear Hl. subst l.
  assert (Em : map shown (map plain filtered) = filtered)
    by (rewrite map_map; exact (List.map_id filtered)).
  rewrite Em.
  apply filter_questions_Some in Ef as [-> Hall].
  split; [reflexivity|]. split; [apply sublist_List_filter|].
  intros q. rewrite filter_In. rewrite List.Forall_forall in Hall.
  split.
  - intros [Hq Hm]. split; [exact Hq|]. apply bool_decide_eq_true_1 in Hm.
    unfold matches, matches_search in Hm.
    destruct (trim (toLowerCase searchInput)) as [|c r] eqn:Es.
    + injection Hm as Hm. apply andb_true_iff in Hm as [Hc Hd].
      split; [now left|]. split.
      * unfold matches_category in Hc. destruct categoryFilter; [now left|].
        right. now apply bool_decide_eq_true_1 in Hc.
      * unfold matches_difficulty in Hd.
        destruct difficultyFilter as [[d|]|]; [|discriminate|now left].
        apply Z.eqb_eq in Hd. right. now rewrite Hd.
    + destruct (question_text q) as [text|] eqn:Et; [|discriminate].
      injection Hm as Hm. apply andb_true_iff in Hm as [Hm Hd].
      apply andb_true_iff in Hm as [Hs Hc]. split.
      * right. apply orb_true_iff in Hs as [Hs|Hs];
          [apply orb_true_iff in Hs as [Hs|Hs]|].
        -- apply includes_spec in Hs as (a & b & E). exists text, a, b. auto.
        -- apply includes_spec in Hs as (a & b & E). exists (id q), a, b. auto.
        -- apply existsb_exists in Hs as (opt & Ho & Hs).
           apply includes_spec in Hs as (a & b & E). exists opt, a, b. auto.
      * split.
        -- unfold matches_category in Hc. destruct categoryFilter; [now left|].
           right. now apply bool_decide_eq_true_1 in Hc.
        -- unfold matches_difficulty in Hd.
           destruct difficultyFilter as [[d|]|]; [|discriminate|now left].
           apply Z.eqb_eq in Hd. right. now rewrite Hd.
  - intros (Hq & Hs & Hc & Hd). split; [exact Hq|]. apply bool_decide_eq_true_2.
    assert (Ec : matches_category categoryFilter q = true).
    { unfold matches_category. destruct Hc as [-> | <-]; [reflexivity|].
      destruct (category q); [reflexivity|now apply bool_decide_eq_true_2]. }
    assert (Ed : matches_difficulty difficultyFilter q = true).
    { unfold matches_difficulty. destruct Hd as [-> | ->]; [reflexivity|apply Z.eqb_refl]. }
    specialize (Hall q Hq). unfold matches, matches_search in Hall |- *.
    destruct (trim (toLowerCase searchInput)) as [|c r] eqn:Es.
    + now rewrite Ec, Ed.
    + destruct (question_text q) as [text|] eqn:Et; [|congruence].
      rewrite Ec, Ed, !andb_true_r. f_equal.
      destruct Hs as [Hs|(s & a & b & Hs & E)]; [discriminate Hs|].
      assert (Hi : includes (toLowerCase s) (c :: r) = true)
        by (apply includes_spec; eauto).
      destruct Hs as [Hs|[->|Hs]].
      * injection Hs as ->. now rewrite Hi.
      * rewrite Hi. now rewrite orb_true_r.
      * rewrite !orb_true_iff. right. apply existsb_exists. eauto.
Qed.

(** X26. In the similar-questions mode, for a collection without two
    questions of the same id, [applyFilters] shows exactly: the questions
    with the id of the selected question that pass the controls, marked as
    the reference with similarity 100, and the questions that pass the
    controls and are similar to the selected one at the threshold 70, each
    with its similarity; and it shows them by descending similarity. *)
Theorem applyFilters_similar (questions : list Question) (selected : Question)
    (searchInput categoryFilter : jsstring) (difficultyFilter : option (option Z))
    (l : list Displayed) :
  NoDup (map id questions) ->
  fits toLowerCase (question_text selected) ->
  Forall (fun q => fits toLowerCase (question_text q)) questions ->
  applyFilters toLowerCase questions (similar_on selected)
    searchInput categoryFilter difficultyFilter = Some l ->
  (forall e, In e l <->
     In (shown e) questions /\
     matches toLowerCase (trim (toLowerCase searchInput)) categoryFilter difficultyFilter
       (shown e) = Some true /\
     (id (shown e) = id selected /\
      shown_similarity e = Some (num 100) /\ isReference e = true \/
      id (shown e) <> id selected /\
      shown_similarity e =
        Some (calculateSimilarity toLowerCase (question_text selected)
                (question_text (shown e))) /\
      isReference e = false /\
      fge (calculateSimilarity toLowerCase (question_text selected)
             (question_text (shown e))) (num 70) = true)) /\
  StronglySorted descending_shown l.
Proof.
  intros Hnd Hfit Hfits. unfold applyFilters, similar_on. cbv zeta.
  destruct (filter_questions _ questions) as [filtered|] eqn:Ef; [|discriminate].
  cbn [showSimilarQuestions selectedQuestionForSimilarity].
  intros H. apply (inj Some) in H. subst l.
  apply filter_questions_Some in Ef as [-> _].
  set (similarQuestions :=
         findSimilarQuestionsForQuestion toLowerCase questions (Some selected)
           (Some (num 70))).
  split.
  - intros e. split.
    + intros He. apply (Permutation_in _ (sort_shown_Permutation _)) in He.
      apply in_map_iff in He as (q & <- & Hq). apply filter_In in Hq as [Hq Hkeep].
      apply filter_In in Hq as [Hq Hm]. apply bool_decide_eq_true_1 in Hm.
      apply orb_true_iff in Hkeep.
      unfold with_similarity_data.
      destruct (decide (id q = id selected)) as [Hid|Hid].
      * rewrite bool_decide_eq_true_2 by assumption.
        cbn [shown shown_similarity isReference].
        split; [exact Hq|]. split; [exact Hm|]. left. auto.
      * rewrite bool_decide_eq_false_2 by assumption.
        destruct Hkeep as [Hkeep|Hkeep];
          [apply bool_decide_eq_true_1 in Hkeep; contradiction|].
        destruct (similar_lookup toLowerCase questions selected q Hnd Hq Hid) as [Ee Efind].
        fold similarQuestions in Ee, Efind. rewrite Ee in Hkeep.
        rewrite (Efind Hkeep). cbn [shown shown_similarity isReference similarity].
        split; [exact Hq|]. split; [exact Hm|]. right.
        apply is_similar_true in Hkeep as [_ Hge]. auto.
    + intros (Hq & Hm & Hcase).
      apply (Permutation_in _ (Permutation_sym (sort_shown_Permutation _))).
      apply in_map_iff. exists (shown e). split.
      * unfold with_similarity_data. destruct e as [q s r]. cbn [shown shown_similarity isReference] in *.
        destruct Hcase as [(Hid & -> & ->)|(Hid & -> & -> & Hge)].
        -- now rewrite bool_decide_eq_true_2.
        -- rewrite bool_decide_eq_false_2 by assumption.
           destruct (similar_lookup toLowerCase questions selected q Hnd Hq Hid) as [_ Efind].
           fold similarQuestions in Efind. rewrite Efind; [reflexivity|].
           apply is_similar_true. auto.
      * apply filter_In. split.
        -- apply filter_In. split; [exact Hq|now apply bool_decide_eq_true_2].
        -- destruct Hcase as [(Hid & _)|(Hid & _ & _ & Hge)].
           ++ now rewrite bool_decide_eq_true_2.
           ++ rewrite bool_decide_eq_false_2 by assumption. cbn [orb].
              destruct (similar_lookup toLowerCase questions selected (shown e) Hnd Hq Hid)
                as [Ee _].
              fold similarQuestions in Ee. rewrite Ee. apply is_similar_true. auto.
  - now apply with_similarity_data_sorted.
Qed.

(** X27. The button of a question shows its near-duplicates: for a question
    of a collection without two questions of the same id, one call of
    [findSimilarQuestions] from the mode switched off, and [applyFilters] with
    empty controls, show that question and the questions that
    [findSimilarQuestionsForQuestion] finds for it at the threshold 70, by
    descending similarity; a second call switches the mode off again. *)
Theorem findSimilarQuestions_shows_near_duplicates (questions : list Question)
    (q : Question) (searchInput : jsstring) :
  NoDup (map id questions) -> In q questions ->
  falsy (question_text q) = false ->
  fits toLowerCase (question_text q) ->
  Forall (fun q' => fits toLowerCase (question_text q')) questions ->
  trim (toLowerCase searchInput) = [] ->
  findSimilarQuestions (id q) questions similar_off = similar_on q /\
  findSimilarQuestions (id q) questions (similar_on q) = similar_off /\
  exists l,
    applyFilters toLowerCase questions (similar_on q) searchInput [] None = Some l /\
    Permutation (map shown l)
      (q :: map question
              (findSimilarQuestionsForQuestion toLowerCase questions (Some q)
                 (Some (num 70)))) /\
    StronglySorted descending_shown l.
Proof.
  intros Hnd Hq Htext Hfit Hfits Hsearch.
  assert (Hfind : List.find (fun q' => bool_decide (id q' = id q)) questions = Some q).
  { destruct (List.find (fun q' => bool_decide (id q' = id q)) questions) as [q'|] eqn:E.
    - apply find_some in E as [Hq' E]. apply bool_decide_eq_true_1 in E.
      f_equal. now apply (unique_id questions).
    - apply (find_none _ _ E) in Hq. now rewrite bool_decide_eq_true_2 in Hq. }
  unfold findSimilarQuestions, similar_off, similar_on. rewrite Hfind.
  cbn [showSimilarQuestions selectedQuestionForSimilarity andb].
  rewrite bool_decide_eq_true_2 by reflexivity.
  split; [reflexivity|]. split; [reflexivity|].
  unfold applyFilters. cbv zeta. rewrite Hsearch.
  destruct (filter_questions (matches toLowerCase [] [] None) questions)
    as [filtered|] eqn:Ef.
  - apply filter_questions_Some in Ef as [Ef _].
    rewrite filter_all in Ef by (intros; reflexivity). subst filtered.
    cbn [showSimilarQuestions selectedQuestionForSimilarity].
    eexists. split; [reflexivity|]. split; [|now apply with_similarity_data_sorted].
    rewrite (Permutation_map shown (sort_shown_Permutation _)), map_map.
    rewrite (map_ext _ (fun x => x)) by (intros; apply shown_with_similarity_data).
    rewrite List.map_id.
    rewrite (List.filter_ext_in _
               (fun q' => bool_decide (id q' = id q) ||
                          is_similar toLowerCase q (num 70) q')).
    + rewrite filter_orb_Permutation.
      * rewrite (filter_same_id questions q Hnd Hq). cbn [app]. apply perm_skip.
        unfold findSimilarQuestionsForQuestion. rewrite Htext. cbv zeta. cbn [default].
        rewrite sort_Permutation, map_map. cbn [question with_similarity].
        now rewrite List.map_id.
      * intros q' _ E. apply bool_decide_eq_true_1 in E. unfold is_similar.
        now rewrite bool_decide_eq_true_2.
    + intros q' Hq'. case_bool_decide as Hid; [reflexivity|]. cbn [orb].
      now destruct (similar_lookup toLowerCase questions q q' Hnd Hq' Hid) as [-> _].
  - exfalso. apply filter_questions_None in Ef as (q' & _ & E). discriminate E.
Qed.

End ApplyFilters.

(** ** saveToCurrentFile *)

Lemma length_remove_dups_le (l : list jsstring) :
  (length (remove_dups l) <= length l)%nat.
Proof.
  induction l as [|x l IH]; [reflexivity|]. cbn [remove_dups length].
  destruct (decide_rel elem_of x l); cbn [length]; lia.
Qed.

Lemma remove_dups_length_NoDup (l : list jsstring) :
  length (remove_dups l) = length l -> NoDup l.
Proof.
  induction l as [|x l IH]; [constructor|]. cbn [remove_dups length].
  pose proof (length_remove_dups_le l) as Hle.
  destruct (decide_rel elem_of x l) as [Hin|Hin]; cbn [length]; intros H.
  - lia.
  - constructor; [exact Hin|]. apply IH. lia.
Qed.

Lemma card_valid_spec (q : Question) :
  card_valid q = true ->
  falsy (question_text q) = false /\ category q <> [] /\
  length (options q) = 4%nat /\ Forall (fun opt => opt <> []) (options q) /\
  NoDup (options q).
Proof.
  unfold card_valid. rewrite !andb_true_iff, !negb_true_iff, !Nat.eqb_eq.
  intros ((((Ht & Hc) & Hl) & Ho) & Hs).
  split; [exact Ht|]. split; [now apply bool_decide_eq_false_1 in Hc|].
  split; [exact Hl|]. split.
  - apply List.Forall_forall. intros opt Hopt.
    rewrite forallb_forall in Ho. specialize (Ho opt Hopt).
    apply negb_true_iff in Ho. now apply bool_decide_eq_false_1 in Ho.
  - apply remove_dups_length_NoDup. congruence.
Qed.

(** What the loop leaves: the same questions with the same ids and marks,
    each one that is not deleted and has a card read from its card, and the
    positions of those whose card fails the checks. *)
Lemma save_loop_spec page questions : forall i updated invalidQuestions,
  save_loop page i questions = (updated, invalidQuestions) ->
  map (fun q => id (fields q)) updated = map (fun q => id (fields q)) questions /\
  map _isDeleted updated = map _isDeleted questions /\
  map _hasChanges updated = map _hasChanges questions /\
  (forall k q, questions !! k = Some q ->
     updated !! k =
       Some (if _isDeleted q then q
             else match page (id (fields q)) with
                  | Some card => read_card card q
                  | None => q
                  end)) /\
  (forall n, In n invalidQuestions <->
     exists k q card,
       n = (i + k + 1)%nat /\ questions !! k = Some q /\ _isDeleted q = false /\
       page (id (fields q)) = Some card /\
       card_valid (fields (read_card card q)) = false).
Proof.
  induction questions as [|q r IH]; intros i updated invalidQuestions; cbn [save_loop].
  - intros H. injection H as <- <-. repeat split; try reflexivity.
    + intros k q Hk. discriminate Hk.
    + intros [].
    + intros (k & q & card & _ & Hk & _). discriminate Hk.
  - destruct (save_loop page (S i) r) as [r' invalid'] eqn:Er.
    destruct (IH (S i) r' invalid' Er) as (Hids & Hdel & Hch & Hlook & Hinv).
    assert (Hrest : forall n,
              (exists k q0 card,
                 n = (i + k + 1)%nat /\ (q :: r) !! k = Some q0 /\ _isDeleted q0 = false /\
                 page (id (fields q0)) = Some card /\
                 card_valid (fields (read_card card q0)) = false) <->
              (n = (i + 1)%nat /\ _isDeleted q = false /\
               exists card, page (id (fields q)) = Some card /\
                            card_valid (fields (read_card card q)) = false) \/
              In n invalid').
    { intros n. rewrite Hinv. split.
      - intros ([|k] & q0 & card & -> & Hk & Hd & Hp & Hv).
        + injection Hk as <-. left. split; [lia|]. eauto.
        + right. exists k, q0, card. split; [lia|]. auto.
      - intros [(-> & Hd & card & Hp & Hv)|(k & q0 & card & -> & Hk & Hd & Hp & Hv)].
        + exists 0%nat, q, card. split; [lia|]. auto.
        + exists (S k), q0, card. split; [lia|]. auto. }
    destruct (_isDeleted q) eqn:Ed.
    + intros H. injection H as <- <-. cbn [map]. rewrite Hids, Hdel, Hch.
      split; [reflexivity|]. split; [reflexivity|]. split; [reflexivity|]. split.
      * intros [|k] q0 Hk; [injection Hk as <-; now rewrite Ed|now apply Hlook].
      * intros n. rewrite Hrest. split; [now right|].
        intros [(_ & Hd & _)|H]; [discriminate Hd|exact H].
    + destruct (page (id (fields q))) as [card|] eqn:Ep.
      * intros H. injection H as <- <-. cbn [map read_card fields id _isDeleted _hasChanges].
        rewrite Hids, Hdel, Hch.
        split; [reflexivity|]. split; [reflexivity|]. split; [reflexivity|]. split.
        -- intros [|k] q0 Hk; [injection Hk as <-; now rewrite Ed, Ep|now apply Hlook].
        -- intros n. rewrite Hrest.
           destruct (card_valid _) eqn:Ev.
           ++ split; [now right|].
              intros [(_ & _ & c & Hc & Hv)|H]; [|exact H].
              injection Hc as <-. unfold read_card in Hv. cbn [fields] in Hv. congruence.
           ++ split.
              ** intros [<-|H]; [|now right]. left. split; [reflexivity|].
                 split; [reflexivity|]. exists card. split; [reflexivity|exact Ev].
              ** intros [(-> & _)|H]; [now left|now right].
      * intros H. injection H as <- <-. cbn [map]. rewrite Hids, Hdel, Hch.
        split; [reflexivity|]. split; [reflexivity|]. split; [reflexivity|]. split.
        -- intros [|k] q0 Hk; [injection Hk as <-; now rewrite Ed, Ep|now apply Hlook].
        -- intros n. rewrite Hrest. split; [now right|].
           intros [(_ & _ & c & Hc & _)|H]; [discriminate Hc|exact H].
Qed.

Lemma map_filter_not_deleted {B} (f : StoredQuestion -> B) (l1 l2 : list StoredQuestion) :
  map _isDeleted l1 = map _isDeleted l2 -> map f l1 = map f l2 ->
  map f (List.filter (fun q => negb (_isDeleted q)) l1) =
  map f (List.filter (fun q => negb (_isDeleted q)) l2).
Proof.
  revert l2. induction l1 as [|a l1 IH]; intros [|b l2]; cbn [map]; try discriminate;
    [reflexivity|].
  intros Hd Hf. injection Hd as Hd Hd'. injection Hf as Hf Hf'.
  cbn [List.filter]. rewrite Hd. destruct (_isDeleted b); cbn [negb map]; [now apply IH|].
  rewrite Hf. f_equal. now apply IH.
Qed.

Lemma saveToCurrentFile_cases page questions saved invalidQuestions :
  saveToCurrentFile page questions = (saved, invalidQuestions) ->
  exists updated,
    save_loop page 0 questions = (updated, invalidQuestions) /\
    (invalidQuestions <> [] -> saved = updated) /\
    (invalidQuestions = [] ->
     saved = map (fun q => {| fields := fields q; _hasChanges := false;
                              _isDeleted := _isDeleted q |})
               (List.filter (fun q => negb (_isDeleted q)) updated)).
Proof.
  unfold saveToCurrentFile.
  destruct (save_loop page 0 questions) as [updated [|n invalid]]; intros H;
    injection H as <- <-; exists updated.
  - split; [reflexivity|]. split; [congruence|reflexivity].
  - split; [reflexivity|]. split; [reflexivity|discriminate].
Qed.

(** X28. When [saveToCurrentFile] finds no invalid question, it removes the
    questions marked as deleted and keeps the others in their order, with
    their ids; what it leaves is neither marked as deleted nor as changed,
    and whatever has a card on the page has a text and a category that are
    not empty and four options, none empty and no two the same. *)
Theorem saveToCurrentFile_saved (page : jsstring -> option Card)
    (questions saved : list StoredQuestion) :
  saveToCurrentFile page questions = (saved, []) ->
  map (fun q => id (fields q)) saved =
    map (fun q => id (fields q))
      (List.filter (fun q => negb (_isDeleted q)) questions) /\
  Forall (fun q => _isDeleted q = false /\ _hasChanges q = false) saved /\
  Forall (fun q => is_Some (page (id (fields q))) ->
                   falsy (question_text (fields q)) = false /\
                   category (fields q) <> [] /\
                   length (options (fields q)) = 4%nat /\
                   Forall (fun opt => opt <> []) (options (fields q)) /\
                   NoDup (options (fields q)))
    saved.
Proof.
  intros H. apply saveToCurrentFile_cases in H as (updated & Hloop & _ & Hsaved).
  specialize (Hsaved eq_refl). subst saved.
  destruct (save_loop_spec page questions 0 updated [] Hloop)
    as (Hids & Hdel & _ & Hlook & Hinv).
  split.
  - rewrite map_map. cbn [fields]. now apply map_filter_not_deleted.
  - split.
    + apply List.Forall_forall. intros s Hs. apply in_map_iff in Hs as (u & <- & Hu).
      apply filter_In in Hu as [_ Hu]. cbn [_isDeleted _hasChanges].
      split; [now destruct (_isDeleted u)|reflexivity].
    + apply List.Forall_forall. intros s Hs. apply in_map_iff in Hs as (u & <- & Hu).
      apply filter_In in Hu as [Hu Hnd]. cbn [fields]. intros [card Hcard].
      apply list_elem_of_In, list_elem_of_lookup in Hu as [k Hk].
      assert (Hlen : length updated = length questions)
        by (rewrite <- (length_map _isDeleted updated), Hdel; apply length_map).
      destruct (lookup_lt_is_Some_2 questions k) as [q Hq];
        [rewrite <- Hlen; now apply lookup_lt_Some in Hk|].
      rewrite (Hlook k q Hq) in Hk. injection Hk as Hk.
      destruct (_isDeleted q) eqn:Ed; [subst u; now rewrite Ed in Hnd|].
      assert (Hpage : page (id (fields q)) = Some card).
      { destruct (page (id (fields q))) as [c|] eqn:Ep; subst u;
          cbn [read_card fields id] in Hcard; congruence. }
      rewrite Hpage in Hk. subst u. apply card_valid_spec.
      destruct (card_valid (fields (read_card card q))) eqn:Ev; [reflexivity|].
      exfalso. apply (proj2 (Hinv (0 + k + 1)%nat)). exists k, q, card. auto.
Qed.

(** X29. When [saveToCurrentFile] finds an invalid question, nothing is
    removed and no mark is changed, but the fields of every question that is
    not deleted and has a card have been set from the card all the same;
    the numbers it reports are the positions, counted from 1, of the
    questions that are not deleted and whose card fails a check. *)
Theorem saveToCurrentFile_invalid (page : jsstring -> option Card)
    (questions updated : list StoredQuestion) (invalidQuestions : list nat) :
  saveToCurrentFile page questions = (updated, invalidQuestions) ->
  invalidQuestions <> [] ->
  map (fun q => id (fields q)) updated = map (fun q => id (fields q)) questions /\
  map _isDeleted updated = map _isDeleted questions /\
  map _hasChanges updated = map _hasChanges questions /\
  (forall k q, questions !! k = Some q ->
     updated !! k =
       Some (if _isDeleted q then q
             else match page (id (fields q)) with
                  | Some card => read_card card q
                  | None => q
                  end)) /\
  (forall n, In n invalidQuestions <->
     exists k q card,
       n = (k + 1)%nat /\ questions !! k = Some q /\ _isDeleted q = false /\
       page (id (fields q)) = Some card /\
       card_valid (fields (read_card card q)) = false).
Proof.
  intros H Hne. apply saveToCurrentFile_cases in H as (updated' & Hloop & Hsame & _).
  rewrite (Hsame Hne). clear Hsame.
  destruct (save_loop_spec page questions 0 updated' invalidQuestions Hloop)
    as (Hids & Hdel & Hch & Hlook & Hinv).
  split; [exact Hids|]. split; [exact Hdel|]. split; [exact Hch|].
  split; [exact Hlook|]. exact Hinv.
Qed.

(** ** These theorems at sample inputs *)

Lemma calculateSimilarity_full_distance_sample :
  js "abc" <> [] /\ js "xyz" <> [] /\
  calculateSimilarity toLowerCase_ascii (Some (js "abc")) (Some (js "xyz")) = num 0.
Proof.
  assert (H1 : js "abc" <> []) by discriminate.
  assert (H2 : js "xyz" <> []) by discriminate.
  assert (H3 : levenshteinDistance (normalize toLowerCase_ascii (js "abc"))
                 (normalize toLowerCase_ascii (js "xyz")) =
               Z.max (Z.of_nat (length (normalize toLowerCase_ascii (js "abc"))))
                     (Z.of_nat (length (normalize toLowerCase_ascii (js "xyz")))))
    by (vm_compute; reflexivity).
  assert (H4 : normalize toLowerCase_ascii (js "abc") <> normalize toLowerCase_ascii (js "xyz"))
    by (vm_compute; discriminate).
  exact (conj H1 (conj H2
           (calculateSimilarity_full_distance toLowerCase_ascii _ _ H1 H2 H3 H4))).
Defined.

Lemma calculateSimilarity_hundredths_sample :
  fits toLowerCase_ascii (Some (js "abcd")) /\
  fits toLowerCase_ascii (Some (js "abce")) /\
  exists k, 0 <= k <= 10000 /\
    calculateSimilarity toLowerCase_ascii (Some (js "abcd")) (Some (js "abce")) =
    fdiv (num k) (num 100).
Proof.
  assert (H1 : fits toLowerCase_ascii (Some (js "abcd"))) by fits_sample.
  assert (H2 : fits toLowerCase_ascii (Some (js "abce"))) by fits_sample.
  exact (conj H1 (conj H2 (calculateSimilarity_hundredths toLowerCase_ascii _ _ H1 H2))).
Defined.

Lemma calculateSimilarity_normalize_invariant_sample :
  js "Hello  World" <> [] /\ js " hello world " <> [] /\
  calculateSimilarity toLowerCase_ascii (Some (js "Hello  World")) (Some (js "hello, world")) =
  calculateSimilarity toLowerCase_ascii (Some (js " hello world ")) (Some (js "hello, world")).
Proof.
  assert (H1 : js "Hello  World" <> []) by discriminate.
  assert (H2 : js " hello world " <> []) by discriminate.
  assert (H3 : normalize toLowerCase_ascii (js "Hello  World") =
               normalize toLowerCase_ascii (js " hello world "))
    by (vm_compute; reflexivity).
  exact (conj H1 (conj H2
           (proj1 (calculateSimilarity_normalize_invariant toLowerCase_ascii _ _
                     (Some (js "hello, world")) H1 H2 H3)))).
Defined.

Lemma fits_samples :
  Forall (fun q => fits toLowerCase_ascii (question_text q)) [q1; q2; q3].
Proof.
  constructor; [fits_sample|constructor; [fits_sample|constructor; [fits_sample|constructor]]].
Qed.

Lemma findSimilarQuestionsForQuestion_threshold_0_sample :
  falsy (question_text q1) = false /\
  fits toLowerCase_ascii (question_text q1) /\
  Forall (fun q => fits toLowerCase_ascii (question_text q)) [q1; q2; q3] /\
  Permutation
    (map question
       (findSimilarQuestionsForQuestion toLowerCase_ascii [q1; q2; q3] (Some q1)
          (Some (num 0))))
    (List.filter (fun q => negb (bool_decide (id q = id q1))) [q1; q2; q3]).
Proof.
  assert (H1 : falsy (question_text q1) = false) by reflexivity.
  assert (H2 : fits toLowerCase_ascii (question_text q1)) by fits_sample.
  exact (conj H1 (conj H2 (conj fits_samples
           (findSimilarQuestionsForQuestion_threshold_0 toLowerCase_ascii
              [q1; q2; q3] q1 H1 H2 fits_samples)))).
Defined.

Lemma findSimilarQuestionsForQuestion_at_70 :
  findSimilarQuestionsForQuestion toLowerCase_ascii [q1; q2; q3] (Some q1) (Some (num 70)) =
  [{| question := q2; similarity := fdiv (num 9667) (num 100) |}].
Proof. vm_compute; reflexivity. Qed.

Lemma findSimilarQuestionsForQuestion_threshold_mono_sample :
  falsy (question_text q1) = false /\
  fge (num 70) (num 50) = true /\
  In {| question := q2; similarity := fdiv (num 9667) (num 100) |}
     (findSimilarQuestionsForQuestion toLowerCase_ascii [q1; q2; q3] (Some q1)
        (Some (num 70))) /\
  In {| question := q2; similarity := fdiv (num 9667) (num 100) |}
     (findSimilarQuestionsForQuestion toLowerCase_ascii [q1; q2; q3] (Some q1)
        (Some (num 50))).
Proof.
  assert (H1 : falsy (question_text q1) = false) by reflexivity.
  assert (H2 : fge (num 70) (num 50) = true) by reflexivity.
  assert (H3 : In {| question := q2; similarity := fdiv (num 9667) (num 100) |}
                 (findSimilarQuestionsForQuestion toLowerCase_ascii [q1; q2; q3] (Some q1)
                    (Some (num 70))))
    by (rewrite findSimilarQuestionsForQuestion_at_70; left; reflexivity).
  exact (conj H1 (conj H2 (conj H3
           (findSimilarQuestionsForQuestion_threshold_mono toLowerCase_ascii
              [q1; q2; q3] q1 (num 50) (num 70) _ H1 H2 H3)))).
Defined.

Lemma findSimilarQuestionsForQuestion_symmetric_sample :
  In q1 [q1; q2; q3] /\ In q2 [q1; q2; q3] /\
  falsy (question_text q1) = false /\ falsy (question_text q2) = false /\
  (In {| question := q2; similarity := fdiv (num 9667) (num 100) |}
      (findSimilarQuestionsForQuestion toLowerCase_ascii [q1; q2; q3] (Some q1) None) <->
   In {| question := q1; similarity := fdiv (num 9667) (num 100) |}
      (findSimilarQuestionsForQuestion toLowerCase_ascii [q1; q2; q3] (Some q2) None)).
Proof.
  assert (H1 : In q1 [q1; q2; q3]) by (left; reflexivity).
  assert (H2 : In q2 [q1; q2; q3]) by (right; left; reflexivity).
  assert (H3 : falsy (question_text q1) = false) by reflexivity.
  assert (H4 : falsy (question_text q2) = false) by reflexivity.
  exact (conj H1 (conj H2 (conj H3 (conj H4
           (findSimilarQuestionsForQuestion_symmetric toLowerCase_ascii
              [q1; q2; q3] q1 q2 None (fdiv (num 9667) (num 100)) H1 H2 H3 H4))))).
Defined.

Lemma findSimilarQuestionsForQuestion_stable_sample :
  falsy (question_text q1) = false /\
  fits toLowerCase_ascii (question_text q1) /\
  Forall (fun q => fits toLowerCase_ascii (question_text q)) [q1; q2; q2; q3] /\
  List.filter (fun r => bool_decide (similarity r = fdiv (num 9667) (num 100)))
    (findSimilarQuestionsForQuestion toLowerCase_ascii [q1; q2; q2; q3] (Some q1) None) =
  map (with_similarity toLowerCase_ascii q1)
    (List.filter
       (fun q => is_similar toLowerCase_ascii q1 (default (num 70) None) q &&
                 bool_decide (calculateSimilarity toLowerCase_ascii (question_text q1)
                                (question_text q) = fdiv (num 9667) (num 100)))
       [q1; q2; q2; q3]).
Proof.
  assert (H1 : falsy (question_text q1) = false) by reflexivity.
  assert (H2 : fits toLowerCase_ascii (question_text q1)) by fits_sample.
  assert (H3 : Forall (fun q => fits toLowerCase_ascii (question_text q)) [q1; q2; q2; q3])
    by (constructor; [fits_sample|constructor; [fits_sample|constructor;
          [fits_sample|constructor; [fits_sample|constructor]]]]).
  exact (conj H1 (conj H2 (conj H3
           (findSimilarQuestionsForQuestion_stable toLowerCase_ascii
              [q1; q2; q2; q3] q1 None (fdiv (num 9667) (num 100)) H1 H2 H3)))).
Defined.

Lemma findSimilarQuestionsForQuestion_finds_duplicates_sample :
  In (copy_sample) [q1; q2; copy_sample] /\ id copy_sample <> id q1 /\
  fge (num 100) (default (num 70) (Some (num 100))) = true /\
  In {| question := copy_sample; similarity := num 100 |}
     (findSimilarQuestionsForQuestion toLowerCase_ascii [q1; q2; copy_sample] (Some q1)
        (Some (num 100))).
Proof.
  assert (H1 : In copy_sample [q1; q2; copy_sample]) by (right; right; left; reflexivity).
  assert (H2 : id copy_sample <> id q1) by discriminate.
  assert (H3 : fge (num 100) (default (num 70) (Some (num 100))) = true) by reflexivity.
  assert (H4 : js "What is the capital of France?" <> []) by discriminate.
  assert (H5 : js "  what IS the capital   of france? " <> []) by discriminate.
  assert (H6 : normalize toLowerCase_ascii (js "What is the capital of France?") =
               normalize toLowerCase_ascii (js "  what IS the capital   of france? "))
    by (vm_compute; reflexivity).
  exact (conj H1 (conj H2 (conj H3
           (findSimilarQuestionsForQuestion_finds_duplicates toLowerCase_ascii
              [q1; q2; copy_sample] q1 copy_sample (Some (num 100)) _ _
              eq_refl eq_refl H4 H5 H6 H1 H2 H3)))).
Defined.

Lemma generateFirestoreId_shape_sample :
  (forall n : nat, exists k, (k < 62)%nat /\
     Math_floor (fmul half (num 62)) = num (Z.of_nat k)) /\
  length (fst (generateFirestoreId (fun _ => half) (js "mh5x2k9a"))) = 20%nat /\
  exists randomPart : jsstring,
    length randomPart = (20 - length (js "mh5x2k9a"))%nat /\
    Forall (fun c => In c chars) randomPart /\
    shuffle (take 20 (js "mh5x2k9a")) randomPart
      (fst (generateFirestoreId (fun _ => half) (js "mh5x2k9a"))).
Proof.
  assert (H : forall n : nat, exists k, (k < 62)%nat /\
                Math_floor (fmul half (num 62)) = num (Z.of_nat k)).
  { intros _. exists 31%nat. split; [lia|]. vm_compute. reflexivity. }
  exact (conj H (generateFirestoreId_shape (fun _ => half) (js "mh5x2k9a") H)).
Defined.

Lemma appendQuestions_counts_sample :
  exists st,
    appendQuestions toLowerCase_ascii fresh_sample [] 0 (Some file_sample) = Some st /\
    (appendedCount st = 2 /\ skippedCount st = 1 /\ duplicateCount st = 1)%nat /\
    (appendedCount st + skippedCount st + duplicateCount st = length file_sample)%nat /\
    exists added,
      questions_now st = [] ++ added /\ length added = appendedCount st.
Proof.
  eexists. split; [reflexivity|].
  split; [split; [reflexivity|split; reflexivity]|].
  exact (appendQuestions_counts toLowerCase_ascii fresh_sample [] 0%nat file_sample _ eq_refl).
Defined.

Lemma appendQuestions_no_duplicate_text_sample :
  exists st,
    appendQuestions toLowerCase_ascii fresh_sample [stored q1 false] 0 (Some file_sample) =
      Some st /\
    exists added,
      questions_now st = [stored q1 false] ++ added /\
      NoDup (map (stored_key toLowerCase_ascii) added) /\
      (forall a q, In a added -> In q [stored q1 false] ->
         stored_key toLowerCase_ascii a <> stored_key toLowerCase_ascii q) /\
      (NoDup (map (stored_key toLowerCase_ascii) [stored q1 false]) ->
       NoDup (map (stored_key toLowerCase_ascii) (questions_now st))).
Proof.
  eexists. split; [reflexivity|].
  exact (appendQuestions_no_duplicate_text toLowerCase_ascii fresh_sample
           [stored q1 false] 0%nat file_sample _ eq_refl).
Defined.

Lemma appendQuestions_stores_complete_sample :
  exists st,
    appendQuestions toLowerCase_ascii fresh_sample [] 0 (Some file_sample) = Some st /\
    exists added,
      questions_now st = [] ++ added /\ Forall stored_complete added.
Proof.
  eexists. split; [reflexivity|].
  exact (appendQuestions_stores_complete toLowerCase_ascii fresh_sample
           [] 0%nat file_sample _ eq_refl).
Defined.

Lemma appendQuestions_twice_sample :
  exists st1 st2,
    appendQuestions toLowerCase_ascii fresh_sample [] 0 (Some file_sample) = Some st1 /\
    appendQuestions toLowerCase_ascii fresh_sample (questions_now st1) (generated st1)
      (Some file_sample) = Some st2 /\
    appendedCount st2 = 0%nat /\ questions_now st2 = questions_now st1.
Proof.
  eexists. eexists. split; [reflexivity|]. split; [reflexivity|].
  exact (appendQuestions_twice toLowerCase_ascii fresh_sample [] 0%nat _ file_sample
           _ _ eq_refl eq_refl).
Defined.




Lemma exportData_after_delete_sample :
  find_question (js "3") collection_sample = Some (stored q3 false) /\
  exists data,
    exportData collection_sample [] (js "2026-01-01T00:00:00.000Z") = Some data /\
    exported_questions data = [q1; q3] /\
    exists data',
      exportData (deleteQuestion (js "3") collection_sample) []
        (js "2026-01-01T00:00:00.000Z") = Some data' /\
      exported_questions data' = remove_first (js "3") (exported_questions data) /\
      total_questions (export_info data') = length (exported_questions data').
Proof.
  split; [reflexivity|]. eexists. split; [reflexivity|]. split; [reflexivity|].
  exact (proj2 (proj2 (exportData_after_delete (js "3") collection_sample []
                         (js "2026-01-01T00:00:00.000Z") (stored q3 false) _
                         eq_refl eq_refl eq_refl))).
Defined.

Lemma exportData_difficulty_stats_sample :
  exists data,
    exportData collection_sample [] (js "2026-01-01T00:00:00.000Z") = Some data /\
    difficulty_stats data = [2; 0; 0; 0; 0]%nat /\
    (list_sum (difficulty_stats data) <= total_questions (export_info data))%nat.
Proof.
  eexists. split; [reflexivity|]. split; [reflexivity|].
  exact (proj1 (exportData_difficulty_stats collection_sample []
                  (js "2026-01-01T00:00:00.000Z") _ eq_refl)).
Defined.

Lemma saveData_agrees_with_exportData_sample :
  exists data,
    exportData collection_sample [] (js "2026-01-01T00:00:00.000Z") = Some data /\
    saved_total_questions (saveData collection_sample [] (js "2026-01-01T00:00:00.000Z")) =
      total_questions (export_info data) /\
    length (saved_questions (saveData collection_sample [] (js "2026-01-01T00:00:00.000Z"))) =
      3%nat /\
    total_questions (export_info data) = 2%nat.
Proof.
  eexists. split; [reflexivity|].
  split; [|split; reflexivity].
  exact (proj1 (proj2 (saveData_agrees_with_exportData collection_sample []
                         (js "2026-01-01T00:00:00.000Z") _ eq_refl))).
Defined.

Lemma NoDup_ids_samples : NoDup (map id [q1; q2; q3]).
Proof.
  apply NoDup_cons. split; [intros H; apply list_elem_of_In in H;
                            destruct H as [H|[H|[]]]; discriminate H|].
  apply NoDup_cons. split; [intros H; apply list_elem_of_In in H;
                            destruct H as [H|[]]; discriminate H|].
  apply NoDup_singleton.
Qed.

Lemma applyFilters_plain_sample :
  exists l,
    applyFilters toLowerCase_ascii [q1; q2; q3] similar_off (js " FRANCE") [] None =
      Some l /\
    map shown l = [q1; q2] /\
    sublist (map shown l) [q1; q2; q3].
Proof.
  eexists. split; [reflexivity|]. split; [reflexivity|].
  exact (proj1 (proj2 (applyFilters_plain toLowerCase_ascii [q1; q2; q3] similar_off
                         (js " FRANCE") [] None _ (or_introl eq_refl) eq_refl))).
Defined.

Lemma applyFilters_similar_at_q1 :
  applyFilters toLowerCase_ascii [q1; q2; q3] (similar_on q1) (js "capital") [] None =
  Some [{| shown := q1; shown_similarity := Some (num 100); isReference := true |};
        {| shown := q2; shown_similarity := Some (fdiv (num 9667) (num 100));
           isReference := false |}].
Proof. vm_compute; reflexivity. Qed.

Lemma applyFilters_similar_sample :
  NoDup (map id [q1; q2; q3]) /\
  fits toLowerCase_ascii (question_text q1) /\
  Forall (fun q => fits toLowerCase_ascii (question_text q)) [q1; q2; q3] /\
  applyFilters toLowerCase_ascii [q1; q2; q3] (similar_on q1) (js "capital") [] None =
    Some [{| shown := q1; shown_similarity := Some (num 100); isReference := true |};
          {| shown := q2; shown_similarity := Some (fdiv (num 9667) (num 100));
             isReference := false |}] /\
  StronglySorted descending_shown
    [{| shown := q1; shown_similarity := Some (num 100); isReference := true |};
     {| shown := q2; shown_similarity := Some (fdiv (num 9667) (num 100));
        isReference := false |}].
Proof.
  assert (H2 : fits toLowerCase_ascii (question_text q1)) by fits_sample.
  exact (conj NoDup_ids_samples (conj H2 (conj fits_samples (conj applyFilters_similar_at_q1
           (proj2 (applyFilters_similar toLowerCase_ascii [q1; q2; q3] q1 (js "capital") []
                     None _ NoDup_ids_samples H2 fits_samples
                     applyFilters_similar_at_q1)))))).
Defined.

Lemma findSimilarQuestions_shows_near_duplicates_sample :
  NoDup (map id [q1; q2; q3]) /\ In q1 [q1; q2; q3] /\
  findSimilarQuestions (id q1) [q1; q2; q3] similar_off = similar_on q1 /\
  findSimilarQuestions (id q1) [q1; q2; q3] (similar_on q1) = similar_off /\
  exists l,
    applyFilters toLowerCase_ascii [q1; q2; q3] (similar_on q1) (js "  ") [] None =
      Some l /\
    Permutation (map shown l)
      (q1 :: map question
               (findSimilarQuestionsForQuestion toLowerCase_ascii [q1; q2; q3] (Some q1)
                  (Some (num 70)))) /\
    StronglySorted descending_shown l.
Proof.
  assert (H1 : In q1 [q1; q2; q3]) by (left; reflexivity).
  assert (H2 : falsy (question_text q1) = false) by reflexivity.
  assert (H3 : fits toLowerCase_ascii (question_text q1)) by fits_sample.
  assert (H4 : trim (toLowerCase_ascii (js "  ")) = []) by reflexivity.
  exact (conj NoDup_ids_samples (conj H1
           (findSimilarQuestions_shows_near_duplicates toLowerCase_ascii [q1; q2; q3] q1
              (js "  ") NoDup_ids_samples H1 H2 H3 fits_samples H4))).
Defined.

Lemma saveToCurrentFile_saved_sample :
  exists saved,
    saveToCurrentFile page_sample collection_sample = (saved, []) /\
    map (fun q => id (fields q)) saved = [js "1"; js "3"] /\
    Forall (fun q => _isDeleted q = false /\ _hasChanges q = false) saved.
Proof.
  eexists. split; [reflexivity|]. split; [reflexivity|].
  exact (proj1 (proj2 (saveToCurrentFile_saved page_sample collection_sample _ eq_refl))).
Defined.

Lemma saveToCurrentFile_invalid_sample :
  exists updated,
    saveToCurrentFile page_sample_invalid collection_sample = (updated, [3%nat]) /\
    [3%nat] <> [] /\
    map _isDeleted updated = map _isDeleted collection_sample.
Proof.
  assert (H : [3%nat] <> []) by discriminate.
  eexists. split; [reflexivity|]. split; [exact H|].
  exact (proj1 (proj2 (saveToCurrentFile_invalid page_sample_invalid collection_sample
                         _ [3%nat] eq_refl H))).
Defined.
